(** * SAT: Davis-Putnam, resolution and DPLL over DIMACS CNF

    A shallow embedding of the three solvers of the repository
    ([dp.py], [resolution.py], [dpll.py]) and of their DIMACS readers,
    followed by the properties of the specification that were checked
    against them.

    Conventions of the embedding.
    - Python [int] is [Z]; [str] is [string] (ASCII input is assumed).
    - A [dict] whose iteration order is observable (the [symbols] of a
      [Clause]) is an association list in insertion order; a [dict] that
      is only looked up and updated (an assignment, [variable_map]) is a
      [gmap].
    - A [set]/[frozenset] is a [gset]. Its iteration order is
      implementation-defined in Python; [elements] stands for it, the
      general theorems hold whatever that order is, and the one place
      where the program's verdict depends on it ([next(iter(variables))]
      in [dp]) takes the choice as a parameter.
    - An exception is a value of [exn] carried by the [res] monad.
    - A loop or recursion that the program does not bound by a
      structural argument takes a [fuel]; [None] means the fuel ran out. *)

From Stdlib Require Import ZArith Ascii String DecimalString DecimalZ DecimalPos.
From stdpp Require Import base decidable option list sorting gmap strings.

Local Open Scope Z_scope.

(** ** Python primitives used by the readers *)

Module Py.

Inductive exn : Type :=
  | ValueError (msg : string)
  | KeyError
  | AttributeError.

Inductive res (A : Type) : Type :=
  | Ok (a : A)
  | Raise (e : exn).
Arguments Ok {A} a.
Arguments Raise {A} e.

#[global] Instance res_ret : MRet res := fun A a => Ok a.
#[global] Instance res_bind : MBind res := fun A B k m =>
  match m with
  | Ok a => k a
  | Raise e => Raise e
  end.

(** [str.isspace] on ASCII: TAB, LF, VT, FF, CR, FS, GS, RS, US, space. *)
Definition isspace (c : ascii) : bool :=
  let n := N_of_ascii c in
  (((9 <=? n) && (n <=? 13)) || ((28 <=? n) && (n <=? 32)))%N.

Definition digit_val (c : ascii) : option Z :=
  let n := N_of_ascii c in
  if ((48 <=? n) && (n <=? 57))%N then Some (Z.of_N n - 48) else None.

(** [s.lstrip()], [s.rstrip()], [s.strip()]. *)
Fixpoint lstrip (s : string) : string :=
  match s with
  | String c r => if isspace c then lstrip r else s
  | EmptyString => EmptyString
  end.

Fixpoint rstrip (s : string) : string :=
  match s with
  | EmptyString => EmptyString
  | String c r =>
      match rstrip r with
      | EmptyString => if isspace c then EmptyString else String c EmptyString
      | r' => String c r'
      end
  end.

Definition strip (s : string) : string := rstrip (lstrip s).

(** [s.split()]: maximal runs of non-space characters, left to right.
    [tok] is the run being read. *)
Fixpoint split_go (tok : string) (s : string) : list string :=
  match s with
  | EmptyString => if decide (tok = "") then [] else [tok]
  | String c r =>
      if isspace c
      then (if decide (tok = "") then split_go "" r else tok :: split_go "" r)
      else split_go (tok +:+ String c "") r
  end.

Definition split (s : string) : list string := split_go "" s.

(** [s.startswith(p)]. *)
Definition startswith (s p : string) : bool := String.prefix p s.

(** [" ".join(parts)]. *)
Fixpoint join (sep : string) (parts : list string) : string :=
  match parts with
  | [] => ""
  | [p] => p
  | p :: rest => p +:+ sep +:+ join sep rest
  end.

(** [str(i)] for an [int]: decimal, a leading [-] for negatives, no
    leading zeros. *)
Definition str (i : Z) : string := NilZero.string_of_int (Z.to_int i).

(** The digits of [int(s)]: one or more decimal digits, single
    underscores allowed between two digits. [seen] tells whether the
    previous character was a digit. *)
Fixpoint int_digits (acc : Z) (seen : bool) (s : string) : option Z :=
  match s with
  | EmptyString => if seen then Some acc else None
  | String c r =>
      match digit_val c with
      | Some d => int_digits (10 * acc + d) true r
      | None =>
          if decide (c = "_"%char)
          then (if seen then int_digits acc false r else None)
          else None
      end
  end.

(** [int(s)] in base 10: surrounding whitespace stripped, an optional
    sign, then the digits. The message of the [ValueError] quotes the
    argument the way [repr] does for a string without quotes or escapes. *)
Definition int (s : string) : res Z :=
  let body := strip s in
  let parsed :=
    match body with
    | String c r =>
        if decide (c = "-"%char) then Z.opp <$> int_digits 0 false r
        else if decide (c = "+"%char) then int_digits 0 false r
        else int_digits 0 false body
    | EmptyString => None
    end in
  match parsed with
  | Some z => Ok z
  | None =>
      Raise (ValueError ("invalid literal for int() with base 10: '" +:+ s +:+ "'"))
  end.

(** The number a string of decimal digits denotes, [acc] being the value
    of the digits already read. *)
Fixpoint digits_value (acc : Z) (d : Decimal.uint) : Z :=
  match d with
  | Decimal.Nil => acc
  | Decimal.D0 d => digits_value (10 * acc) d
  | Decimal.D1 d => digits_value (10 * acc + 1) d
  | Decimal.D2 d => digits_value (10 * acc + 2) d
  | Decimal.D3 d => digits_value (10 * acc + 3) d
  | Decimal.D4 d => digits_value (10 * acc + 4) d
  | Decimal.D5 d => digits_value (10 * acc + 5) d
  | Decimal.D6 d => digits_value (10 * acc + 6) d
  | Decimal.D7 d => digits_value (10 * acc + 7) d
  | Decimal.D8 d => digits_value (10 * acc + 8) d
  | Decimal.D9 d => digits_value (10 * acc + 9) d
  end.

(** [range(lo, hi)] as the list it iterates. *)
Definition range (lo hi : Z) : list Z := seqZ lo (hi - lo).

End Py.

(** ** The CNF model shared by [dp.py] and [dpll.py]

    Both files declare the same two classes. A symbol is always a string
    [f"x{i}"] taken from [variable_map]; the embedding keeps the index [i]
    and renders the name on demand, so the sort key [int(s[1:])] of the
    program is [idx]. *)

Module Model.

Record symbol : Type := Sym { idx : Z }.

#[global] Instance symbol_eq_dec : EqDecision symbol.
Proof. solve_decision. Defined.

#[global] Instance symbol_countable : Countable symbol :=
  inj_countable' idx Sym (fun s => match s with Sym _ => eq_refl end).

(** The string the program stores for a symbol. *)
Definition symbol_name (s : symbol) : string := "x" +:+ Py.str (idx s).

(** [Clause.symbols]: a dict from symbol to sign, in insertion order. *)
Abbreviation Clause := (list (symbol * Z)).

(** [d[k] = v] on a dict kept in insertion order: an existing key keeps
    its position and takes the new value, a new key goes last. *)
Fixpoint dict_set (d : Clause) (k : symbol) (v : Z) : Clause :=
  match d with
  | [] => [(k, v)]
  | (k', v') :: rest =>
      if decide (k = k') then (k, v) :: rest else (k', v') :: dict_set rest k v
  end.

(** The keys of a dict as a set. *)
Definition keys (d : Clause) : gset symbol := list_to_set (d.*1).

Record SatInstance : Type := mkSatInstance {
  symbols : list symbol;
  clauses : list Clause
}.

(** The order of the sort key [int(s[1:])]. *)
Definition symbol_le (a b : symbol) : Prop := idx a <= idx b.

#[global] Instance symbol_le_dec : RelDecision symbol_le.
Proof. intros a b. unfold symbol_le. apply _. Defined.

(** [sorted(list(S), key=lambda s: int(s[1:]))]. *)
Definition sorted_symbols (S : gset symbol) : list symbol :=
  merge_sort symbol_le (elements S).

(** A partial assignment: a dict from symbol to sign. *)
Abbreviation assignment := (gmap symbol Z).

(** The state of the file readers while they consume lines:
    [self.symbols] (still a set), [self.clauses] and [variable_map]. *)
Record reader : Type := mkReader {
  r_symbols : gset symbol;
  r_clauses : list Clause;
  r_variable_map : gmap Z symbol
}.

(** The store of assignment dicts. [solve_dpll] updates the dict it is
    given in place and copies it before branching, so dicts are objects:
    an object is its index in the store. *)
Abbreviation heap := (list assignment).

Definition load (h : heap) (a : nat) : assignment := default ∅ (h !! a).

(** [d[k] = v] on the object [a]. *)
Definition setitem (h : heap) (a : nat) (k : symbol) (v : Z) : heap :=
  <[a := <[k := v]> (load h a)]> h.

(** [d.copy()]: a new object with the contents of [a]. *)
Definition copy (h : heap) (a : nat) : heap * nat :=
  (h ++ [load h a], length h).

(** [{}]: a new empty dict. *)
Definition fresh (h : heap) : heap * nat := (h ++ [∅], length h).

End Model.

(** ** [dpll.py] *)

Module Dpll.
Import Py Model.

(** [Clause.from_dimacs]: the loop over [literals], [symbols] being the
    dict under construction. *)
Fixpoint from_dimacs_loop (literals : list Z) (variable_map : gmap Z symbol)
    (symbols : Clause) : res Clause :=
  match literals with
  | [] => Ok symbols
  | literal :: rest =>
      let sign := if decide (literal > 0) then 1 else -1 in
      let variable_index := Z.abs literal in
      match variable_map !! variable_index with
      | Some symbol =>
          from_dimacs_loop rest variable_map (dict_set symbols symbol sign)
      | None =>
          Raise (ValueError
            ("Literal " +:+ str literal +:+ " refers to an undefined variable"))
      end
  end.

Definition from_dimacs (literals : list Z) (variable_map : gmap Z symbol)
  : res Clause :=
  from_dimacs_loop literals variable_map [].

(** [Clause.__str__]. *)
Definition Clause_str (self : Clause) : string :=
  join " "
    (map (fun '(symbol, sign) =>
            (if decide (sign = -1) then "-" else "") +:+ symbol_name symbol)
         self).

(** [[int(l) for l in line.split() if l != '0']]. *)
Fixpoint literals_of (tokens : list string) : res (list Z) :=
  match tokens with
  | [] => Ok []
  | l :: rest =>
      if decide (l = "0") then literals_of rest
      else z ← int l; zs ← literals_of rest; Ok (z :: zs)
  end.

(** One iteration of [for line in f]. *)
Definition read_line (st : reader) (line : string) : res reader :=
  let line := strip line in
  if startswith line "c" then Ok st
  else if startswith line "p cnf" then
    let parts := split line in
    if decide (length parts = 4%nat /\ parts !! 0%nat = Some "p"
               /\ parts !! 1%nat = Some "cnf")
    then
      num_vars ← int (default "" (parts !! 2%nat));
      Ok (mkReader (r_symbols st) (r_clauses st)
            (foldl (fun vm i => <[i := Sym i]> vm) (r_variable_map st)
               (range 1 (num_vars + 1))))
    else Raise (ValueError "Invalid DIMACS preamble")
  else if decide (line = "") then Ok st
  else
    literals ← literals_of (split line);
    match literals with
    | [] => Ok st
    | _ =>
        clause ← from_dimacs literals (r_variable_map st);
        Ok (mkReader (r_symbols st ∪ keys clause) (r_clauses st ++ [clause])
              (r_variable_map st))
    end.

Fixpoint read_lines (st : reader) (lines : list string) : res reader :=
  match lines with
  | [] => Ok st
  | line :: rest => st' ← read_line st line; read_lines st' rest
  end.

(** [SatInstance.from_dimacs_file], on the lines of the file. *)
Definition from_dimacs_file (lines : list string) : res SatInstance :=
  st ← read_lines (mkReader ∅ [] ∅) lines;
  Ok (mkSatInstance
        (if decide (r_symbols st = ∅) then [] else sorted_symbols (r_symbols st))
        (r_clauses st)).

(** [SatInstance.is_satisfied]: the inner loop over the items of one
    clause, then the loop over the clauses. *)
Fixpoint clause_satisfied (items : Clause) (a : assignment) : bool :=
  match items with
  | [] => false
  | (symbol, sign) :: rest =>
      match a !! symbol with
      | Some v => if decide (v = sign) then true else clause_satisfied rest a
      | None => clause_satisfied rest a
      end
  end.

Fixpoint is_satisfied_loop (cs : list Clause) (a : assignment) : bool :=
  match cs with
  | [] => true
  | clause :: rest =>
      if clause_satisfied clause a then is_satisfied_loop rest a else false
  end.

Definition is_satisfied (self : SatInstance) (a : assignment) : bool :=
  is_satisfied_loop (clauses self) a.

(** [SatInstance.find_unit_clause]: the item of the first clause with
    exactly one symbol (the program wraps it in a one-entry dict). *)
Fixpoint find_unit_loop (cs : list Clause) : option (symbol * Z) :=
  match cs with
  | [] => None
  | clause :: rest =>
      match clause with
      | [item] => Some item
      | _ => find_unit_loop rest
      end
  end.

Definition find_unit_clause (self : SatInstance) : option (symbol * Z) :=
  find_unit_loop (clauses self).

(** [SatInstance.simplify]: the scan of one clause ([None] when the
    [break] is taken, the clause being satisfied), then the loop over the
    clauses ([None] for the program's [return None]). *)
Fixpoint simplify_clause (items : Clause) (a : assignment)
    (new_symbols : Clause) : option Clause :=
  match items with
  | [] => Some new_symbols
  | (symbol, sign) :: rest =>
      match a !! symbol with
      | Some v =>
          if decide (v = sign) then None
          else simplify_clause rest a new_symbols
      | None => simplify_clause rest a (dict_set new_symbols symbol sign)
      end
  end.

Fixpoint simplify_loop (cs : list Clause) (a : assignment)
    (new_clauses : list Clause) : option (list Clause) :=
  match cs with
  | [] => Some new_clauses
  | clause :: rest =>
      match simplify_clause clause a [] with
      | None => simplify_loop rest a new_clauses
      | Some [] => None
      | Some new_symbols => simplify_loop rest a (new_clauses ++ [new_symbols])
      end
  end.

Definition simplify (self : SatInstance) (a : assignment) : option SatInstance :=
  new_clauses ← simplify_loop (clauses self) a [];
  Some (mkSatInstance
          (match new_clauses with
           | [] => []
           | _ => sorted_symbols (⋃ (keys <$> new_clauses))
           end)
          new_clauses).

(** What the unit-propagation loop of [solve_dpll] ends with: a [return]
    (of [None] or of the assignment object), or the loop condition
    failing, with the instance reached. *)
Inductive loop_exit : Type :=
  | Returns (r : option nat)
  | Falls_through (instance : SatInstance).

(** [symbol in assignment and assignment[symbol] != sign]. *)
Definition conflicts (a : assignment) (symbol : symbol) (sign : Z) : bool :=
  match a !! symbol with
  | Some v => negb (bool_decide (v = sign))
  | None => false
  end.

(** The [while unit_clause:] loop, on the assignment object [a]. *)
Fixpoint propagate (fuel : nat) (instance : SatInstance) (h : heap) (a : nat)
  : option (heap * loop_exit) :=
  match find_unit_clause instance with
  | None => Some (h, Falls_through instance)
  | Some (symbol, sign) =>
      match fuel with
      | O => None
      | S fuel =>
          if conflicts (load h a) symbol sign then Some (h, Returns None)
          else
            let h := setitem h a symbol sign in
            match simplify instance {[symbol := sign]} with
            | None => Some (h, Returns None)
            | Some instance =>
                match clauses instance with
                | [] => Some (h, Returns (Some a))
                | _ => propagate fuel instance h a
                end
            end
      end
  end.

(** [next((s for s in instance.symbols if s not in assignment), None)]. *)
Fixpoint first_unassigned (symbols : list symbol) (a : assignment)
  : option symbol :=
  match symbols with
  | [] => None
  | s :: rest =>
      match a !! s with
      | None => Some s
      | Some _ => first_unassigned rest a
      end
  end.

(** Truth value of what [solve_dpll] returned: [None] and the empty dict
    are false. *)
Definition truthy (h : heap) (r : option nat) : bool :=
  match r with
  | None => false
  | Some a => negb (bool_decide (load h a = ∅))
  end.

(** [if assignment is None: assignment = {}]. *)
Definition enter (h : heap) (assignment : option nat) : heap * nat :=
  match assignment with
  | None => fresh h
  | Some a => (h, a)
  end.

(** [solve_dpll(instance, assignment)]. [instance] is [None] when the
    caller passes the [None] that [simplify] returned; [assignment] is
    [None] for the default argument. The result is the store after the
    call and either the returned value ([None], or the assignment object)
    or the exception raised. *)
Fixpoint solve_dpll (fuel : nat) (instance : option SatInstance)
    (assignment : option nat) (h : heap) : option (heap * res (option nat)) :=
  match fuel with
  | O => None
  | S fuel =>
      let '(h, a) := enter h assignment in
      match instance with
      | None => Some (h, Raise AttributeError)
      | Some instance =>
          match propagate fuel instance h a with
          | None => None
          | Some (h, Returns r) => Some (h, Ok r)
          | Some (h, Falls_through instance) =>
              match clauses instance with
              | [] => Some (h, Ok (Some a))
              | _ =>
                  match first_unassigned (symbols instance) (load h a) with
                  | None => Some (h, Ok (Some a))
                  | Some unassigned_symbol =>
                      let '(h, assignment_true) := copy h a in
                      let h := setitem h assignment_true unassigned_symbol 1 in
                      match solve_dpll fuel
                              (simplify instance {[unassigned_symbol := 1]})
                              (Some assignment_true) h with
                      | None => None
                      | Some (h, Raise e) => Some (h, Raise e)
                      | Some (h, Ok result_true) =>
                          if truthy h result_true then Some (h, Ok result_true)
                          else
                            let '(h, assignment_false) := copy h a in
                            let h :=
                              setitem h assignment_false unassigned_symbol (-1) in
                            solve_dpll fuel
                              (simplify instance {[unassigned_symbol := -1]})
                              (Some assignment_false) h
                      end
                  end
              end
          end
      end
  end.

End Dpll.

(** ** [dp.py] *)

Module Dp.
Import Py Model.

(** [Clause.dimacs]. *)
Fixpoint dimacs_loop (literals : list Z) (variable_map : gmap Z symbol)
    (symbols : Clause) : res Clause :=
  match literals with
  | [] => Ok symbols
  | literal :: rest =>
      let sign := if decide (literal > 0) then 1 else -1 in
      let variable_index := Z.abs literal in
      match variable_map !! variable_index with
      | Some symbol => dimacs_loop rest variable_map (dict_set symbols symbol sign)
      | None =>
          Raise (ValueError
            ("Literal " +:+ str literal +:+ " refers to an undefined variable"))
      end
  end.

Definition dimacs (literals : list Z) (variable_map : gmap Z symbol)
  : res Clause :=
  dimacs_loop literals variable_map [].

(** [Clause.format]. *)
Definition format (self : Clause) : string :=
  join " "
    (map (fun '(var, sign) =>
            if decide (sign = -1) then "-" +:+ symbol_name var
            else symbol_name var)
         self).

Fixpoint literals_of (tokens : list string) : res (list Z) :=
  match tokens with
  | [] => Ok []
  | l :: rest =>
      if decide (l = "0") then literals_of rest
      else z ← int l; zs ← literals_of rest; Ok (z :: zs)
  end.

Definition read_line (st : reader) (line : string) : res reader :=
  let line := strip line in
  if startswith line "c" then Ok st
  else if startswith line "p cnf" then
    let parts := split line in
    if decide (length parts = 4%nat /\ parts !! 0%nat = Some "p"
               /\ parts !! 1%nat = Some "cnf")
    then
      num_vars ← int (default "" (parts !! 2%nat));
      Ok (mkReader (r_symbols st) (r_clauses st)
            (foldl (fun vm i => <[i := Sym i]> vm) (r_variable_map st)
               (range 1 (num_vars + 1))))
    else Raise (ValueError "Invalid DIMACS preamble")
  else if decide (line = "") then Ok st
  else
    literals ← literals_of (split line);
    match literals with
    | [] => Ok st
    | _ =>
        clause ← dimacs literals (r_variable_map st);
        Ok (mkReader (r_symbols st ∪ keys clause) (r_clauses st ++ [clause])
              (r_variable_map st))
    end.

Fixpoint read_lines (st : reader) (lines : list string) : res reader :=
  match lines with
  | [] => Ok st
  | line :: rest => st' ← read_line st line; read_lines st' rest
  end.

(** [SatInstance.dimacs_file], on the lines of the file. *)
Definition dimacs_file (lines : list string) : res SatInstance :=
  st ← read_lines (mkReader ∅ [] ∅) lines;
  Ok (mkSatInstance
        (if decide (r_symbols st = ∅) then [] else sorted_symbols (r_symbols st))
        (r_clauses st)).

(** [SatInstance.is_satisfied] of [dp.py]. *)
Fixpoint clause_satisfied (items : Clause) (a : assignment) : bool :=
  match items with
  | [] => false
  | (symbol, sign) :: rest =>
      match a !! symbol with
      | Some v => if decide (v = sign) then true else clause_satisfied rest a
      | None => clause_satisfied rest a
      end
  end.

Fixpoint is_satisfied_loop (cs : list Clause) (a : assignment) : bool :=
  match cs with
  | [] => true
  | clause :: rest =>
      if clause_satisfied clause a then is_satisfied_loop rest a else false
  end.

Definition is_satisfied (self : SatInstance) (a : assignment) : bool :=
  is_satisfied_loop (clauses self) a.

(** [{s: i + 1 for i, s in enumerate(instance.symbols)}]. *)
Fixpoint symbol_to_int_from (i : Z) (symbols : list symbol)
    (m : gmap symbol Z) : gmap symbol Z :=
  match symbols with
  | [] => m
  | s :: rest => symbol_to_int_from (i + 1) rest (<[s := i + 1]> m)
  end.

(** The inner loop of [convert_to_clause_list]; [symbol_to_int[symbol]]
    raises [KeyError] on a symbol that [instance.symbols] does not list. *)
Fixpoint clause_lits_loop (items : Clause) (symbol_to_int : gmap symbol Z)
    (clause_lits : gset Z) : res (gset Z) :=
  match items with
  | [] => Ok clause_lits
  | (symbol, sign) :: rest =>
      match symbol_to_int !! symbol with
      | Some n => clause_lits_loop rest symbol_to_int (clause_lits ∪ {[n * sign]})
      | None => Raise KeyError
      end
  end.

Fixpoint clause_list_loop (cs : list Clause) (symbol_to_int : gmap symbol Z)
    (clause_list : list (gset Z)) : res (list (gset Z)) :=
  match cs with
  | [] => Ok clause_list
  | clause :: rest =>
      lits ← clause_lits_loop clause symbol_to_int ∅;
      clause_list_loop rest symbol_to_int (clause_list ++ [lits])
  end.

Definition convert_to_clause_list (instance : SatInstance)
  : res (list (gset Z)) :=
  clause_list_loop (clauses instance)
    (symbol_to_int_from 0 (symbols instance) ∅) [].

(** [set(abs(lit) for clause in clauses for lit in clause)]. *)
Definition variables_of (cs : list (gset Z)) : gset Z :=
  ⋃ (set_map Z.abs <$> cs).

(** The two nested loops that build [resolvents]; [None] is the
    [return False] on an empty resolvent. *)
Fixpoint resolvents_inner (var : Z) (c1 : gset Z) (neg_clauses : list (gset Z))
    (resolvents : list (gset Z)) : option (list (gset Z)) :=
  match neg_clauses with
  | [] => Some resolvents
  | c2 :: rest =>
      let new_clause := (c1 ∖ {[var]}) ∪ (c2 ∖ {[- var]}) in
      if decide (new_clause = ∅) then None
      else resolvents_inner var c1 rest (resolvents ++ [new_clause])
  end.

Fixpoint resolvents_outer (var : Z) (pos_clauses neg_clauses : list (gset Z))
    (resolvents : list (gset Z)) : option (list (gset Z)) :=
  match pos_clauses with
  | [] => Some resolvents
  | c1 :: rest =>
      match resolvents_inner var c1 neg_clauses resolvents with
      | None => None
      | Some resolvents => resolvents_outer var rest neg_clauses resolvents
      end
  end.

(** One call of [dp] once [var] is chosen: the verdict it returns, or the
    clause list it recurses on. *)
Definition eliminate (var : Z) (cs : list (gset Z)) : bool + list (gset Z) :=
  let pos_clauses := filter (fun c => var ∈ c) cs in
  let neg_clauses := filter (fun c => - var ∈ c) cs in
  let rest_clauses := filter (fun c => (var ∉ c) /\ (- var ∉ c)) cs in
  match resolvents_outer var pos_clauses neg_clauses [] with
  | None => inl false
  | Some resolvents => inr (rest_clauses ++ resolvents)
  end.

Section dp.
(** [next(iter(variables))]: which element of the set comes first is
    left to the Python implementation; [pick] is that choice. *)
Variable pick : gset Z -> Z.

Fixpoint dp (fuel : nat) (cs : list (gset Z)) : option bool :=
  match fuel with
  | O => None
  | S fuel =>
      if decide (∅ ∈ cs) then Some false
      else if decide (cs = []) then Some true
      else
        let variables := variables_of cs in
        if decide (variables = ∅) then Some true
        else
          match eliminate (pick variables) cs with
          | inl verdict => Some verdict
          | inr new_formula => dp fuel new_formula
          end
  end.
End dp.

(** A choice that every Python set agrees with on a one-element set and
    that CPython makes on a set of small non-negative integers, whose
    slots it visits in increasing order: the least element. *)
Definition pick_min (X : gset Z) : Z :=
  foldr Z.min (default 0 (head (elements X))) (elements X).

End Dp.

(** ** [resolution.py] *)

Module Resolution.
Import Py.

Fixpoint literals_of (tokens : list string) : res (list Z) :=
  match tokens with
  | [] => Ok []
  | lit :: rest =>
      if decide (lit = "0") then literals_of rest
      else z ← int lit; zs ← literals_of rest; Ok (z :: zs)
  end.

(** [dimacs(file)], on the lines of the file it opens (which is
    [input.cnf] whatever [file] is). [frozenset(sorted(literals))] is the
    set of the literals. *)
Fixpoint dimacs (lines : list string) (clauses : list (gset Z))
  : res (list (gset Z)) :=
  match lines with
  | [] => Ok clauses
  | line :: rest =>
      let line := strip line in
      if startswith line "c" || bool_decide (line = "") || startswith line "p"
      then dimacs rest clauses
      else
        literals ← literals_of (split line);
        match literals with
        | [] => dimacs rest clauses
        | _ => dimacs rest (clauses ++ [list_to_set literals])
        end
  end.

(** [resolve(c1, c2)]: the loop over the literals of [c1]. *)
Fixpoint resolve_loop (lits : list Z) (c1 c2 : gset Z) : option (gset Z) :=
  match lits with
  | [] => None
  | lit :: rest =>
      if decide (- lit ∈ c2) then Some ((c1 ∖ {[lit]}) ∪ (c2 ∖ {[- lit]}))
      else resolve_loop rest c1 c2
  end.

Definition resolve (c1 c2 : gset Z) : option (gset Z) :=
  resolve_loop (elements c1) c1 c2.

(** One pass of the [while True:] loop: [c1] against every later clause
    of [known_list]; [None] is the [return "Unsatisfiable"]. *)
Fixpoint pass_inner (c1 : gset Z) (later : list (gset Z))
    (known new_clauses : gset (gset Z)) : option (gset (gset Z)) :=
  match later with
  | [] => Some new_clauses
  | c2 :: rest =>
      match resolve c1 c2 with
      | None => pass_inner c1 rest known new_clauses
      | Some resolvent =>
          if decide (resolvent = ∅) then None
          else if decide (resolvent ∉ known)
          then pass_inner c1 rest known (new_clauses ∪ {[resolvent]})
          else pass_inner c1 rest known new_clauses
      end
  end.

Fixpoint pass_outer (known_list : list (gset Z))
    (known new_clauses : gset (gset Z)) : option (gset (gset Z)) :=
  match known_list with
  | [] => Some new_clauses
  | c1 :: later =>
      match pass_inner c1 later known new_clauses with
      | None => None
      | Some new_clauses => pass_outer later known new_clauses
      end
  end.

Fixpoint saturate (fuel : nat) (known : gset (gset Z)) : option string :=
  match fuel with
  | O => None
  | S fuel =>
      match pass_outer (elements known) known ∅ with
      | None => Some "Unsatisfiable"
      | Some new_clauses =>
          if decide (new_clauses = ∅) then Some "Satisfiable"
          else saturate fuel (known ∪ new_clauses)
      end
  end.

(** [resolution(clauses)]. *)
Definition resolution (fuel : nat) (clauses : list (gset Z)) : option string :=
  saturate fuel (list_to_set clauses).

End Resolution.

(** ** Vocabulary of the specification *)

Module Spec.
Import Py Model.

(** A literal of a clause agrees with the assignment: its symbol is
    assigned and the assigned sign is the recorded one. *)
Definition agrees (a : assignment) (item : symbol * Z) : Prop :=
  a !! item.1 = Some item.2.

#[global] Instance agrees_dec a item : Decision (agrees a item).
Proof. unfold agrees. apply _. Defined.

(** A clause is satisfied when one of its literals agrees. *)
Definition satisfied_by (a : assignment) (c : Clause) : Prop :=
  Exists (agrees a) c.

(** A clause without the symbols the assignment mentions. *)
Definition reduce (a : assignment) (c : Clause) : Clause :=
  filter (fun item => a !! item.1 = None) c.

(** The symbols of a list of clauses. *)
Definition symbols_of (cs : list Clause) : gset symbol := ⋃ (keys <$> cs).

(** [simplify] as the specification words it: drop the satisfied
    clauses, reduce the others, fail when a reduced clause is empty,
    otherwise build the formula of the reduced clauses. *)
Definition simplify_spec (f : SatInstance) (a : assignment)
  : option SatInstance :=
  let survivors :=
    reduce a <$> filter (fun c => ¬ satisfied_by a c) (clauses f) in
  if decide ([] ∈ survivors) then None
  else Some (mkSatInstance (sorted_symbols (symbols_of survivors)) survivors).

(** A formula as the readers and [simplify] build it: every clause is a
    non-empty dict (keys pairwise distinct), and [symbols] lists the
    symbols of the clauses. *)
Definition wf_clause (c : Clause) : Prop := c ≠ [] /\ NoDup c.*1.

Definition wf_instance (f : SatInstance) : Prop :=
  Forall wf_clause (clauses f) /\
  list_to_set (symbols f) = symbols_of (clauses f).

(** The same, for a reader at work. *)
Definition reader_ok (st : reader) : Prop :=
  Forall wf_clause (r_clauses st) /\
  r_symbols st = symbols_of (r_clauses st).

(** The link between the formula [orig] a search started from, the
    formula [f] it has reached and the assignment [asg] built on the
    way: every clause of [orig] is already satisfied or still has a
    part of it among the clauses of [f], and no symbol of [f] is
    assigned. *)
Definition covers (orig f : SatInstance) (asg : assignment) : Prop :=
  wf_instance f /\
  (∀ c, c ∈ clauses orig →
        satisfied_by asg c \/ ∃ c', c' ∈ clauses f /\ c' ⊆ c) /\
  (∀ s, s ∈ symbols_of (clauses f) → asg !! s = None).

(** The number of literal occurrences of a formula. *)
Definition weight (f : SatInstance) : nat :=
  sum_list_with length (clauses f).

(** The empty clause is one resolution step away: two unit clauses on
    the same variable with opposite signs. *)
Definition complementary_units (f : SatInstance) : Prop :=
  ∃ s, [(s, 1)] ∈ clauses f /\ [(s, -1)] ∈ clauses f.

Definition complementary_units_flat (cs : list (gset Z)) : Prop :=
  ∃ l, l ≠ 0 /\ {[ l ]} ∈ cs /\ {[ - l ]} ∈ cs.

(** The admissible choices for [next(iter(variables))]: an element of
    the set. *)
Definition chooses (pick : gset Z -> Z) : Prop :=
  ∀ X, X ≠ ∅ → pick X ∈ X.

(** [variable_map] once the preamble [p cnf nvars _] has been read. *)
Definition declared (nvars : Z) : gmap Z symbol :=
  foldl (fun vm i => <[i := Sym i]> vm) ∅ (range 1 (nvars + 1)).

(** The DIMACS literal of an item of a clause, and the token
    [Clause.__str__] prints for it with the [x] of the symbol name taken
    out. *)
Definition literal_of (item : symbol * Z) : Z := idx item.1 * item.2.

Definition token_of (item : symbol * Z) : string :=
  (if decide (item.2 = -1) then "-" else "") +:+ symbol_name item.1.

(** The items a clause builder produces under [p cnf nvars _]: distinct
    declared symbols, each with sign [1] or [-1]. *)
Definition built_under (nvars : Z) (c : Clause) : Prop :=
  NoDup c.*1 /\
  Forall (fun item : symbol * Z =>
            1 <= idx item.1 <= nvars /\ (item.2 = 1 \/ item.2 = -1)) c.

Definition drop_x (token : string) : string :=
  match token with
  | String "-" (String "x" r) => String "-" r
  | String "x" r => r
  | _ => token
  end.

End Spec.

(** ** The scenarios of the specification *)

Module Examples.
Import Model.

(** Scenario 1: [p cnf 2 2 / 1 2 0 / -1 -2 0]. *)
Definition scenario_1_text : list string :=
  ["p cnf 2 2"; "1 2 0"; "-1 -2 0"].

Definition scenario_1 : SatInstance :=
  mkSatInstance [Sym 1; Sym 2]
    [[(Sym 1, 1); (Sym 2, 1)]; [(Sym 1, -1); (Sym 2, -1)]].

Definition scenario_1_flat : list (gset Z) := [{[1; 2]}; {[-1; -2]}].

(** Scenario 2: [p cnf 1 2 / 1 0 / -1 0]. *)
Definition scenario_2 : SatInstance :=
  mkSatInstance [Sym 1] [[(Sym 1, 1)]; [(Sym 1, -1)]].

(** A formula whose only clause is the empty clause. *)
Definition only_empty_clause : SatInstance := mkSatInstance [] [[]].

(** A formula with one unit clause. *)
Definition one_unit : SatInstance := mkSatInstance [Sym 1] [[(Sym 1, 1)]].

End Examples.

(** ** What the verdicts are about *)

Module Meaning.
Import Model.

(** A formula of the CNF model is satisfiable when [is_satisfied] holds
    of it under some assignment. *)
Definition satisfiable (f : SatInstance) : Prop :=
  ∃ a : assignment, Dpll.is_satisfied f a = true.

(** Every recorded sign is [1] or [-1]. *)
Definition signed (f : SatInstance) : Prop :=
  Forall (Forall (fun item : symbol * Z => item.2 = 1 \/ item.2 = -1))
         (clauses f).

(** Clauses of signed integers under a valuation of the variables: the
    literal [l > 0] holds when variable [l] is true, the literal [l < 0]
    when variable [-l] is false. *)
Definition lit_holds (v : Z -> bool) (l : Z) : Prop :=
  if decide (0 < l) then v l = true else v (- l) = false.

Definition clause_holds (v : Z -> bool) (c : gset Z) : Prop :=
  ∃ l, l ∈ c /\ lit_holds v l.

Definition models (v : Z -> bool) (cs : list (gset Z)) : Prop :=
  ∀ c, c ∈ cs → clause_holds v c.

(** No clause mentions the integer [0], which is no literal. *)
Definition zero_free (cs : list (gset Z)) : Prop :=
  ∀ c, c ∈ cs → 0 ∉ c.

(** The valuation [v] changed on one variable so that the literal [l]
    holds. *)
Definition force (v : Z -> bool) (l : Z) : Z -> bool :=
  fun x => if decide (x = Z.abs l) then bool_decide (0 < l) else v x.

(** The resolvent [dp] builds from a clause with [var] and a clause with
    [-var]. *)
Definition resolvent (var : Z) (c1 c2 : gset Z) : gset Z :=
  (c1 ∖ {[var]}) ∪ (c2 ∖ {[- var]}).

(** From a valuation of the numbered variables to an assignment of the
    symbols, and back: [symbol_to_int] is the numbering
    [convert_to_clause_list] builds, and variable [n] is the symbol at
    position [n - 1] of [symbols]. *)
Definition assignment_of (symbol_to_int : gmap symbol Z) (v : Z -> bool)
  : assignment :=
  (fun n => if v n then 1 else -1) <$> symbol_to_int.

Definition valuation_of (symbols : list symbol) (a : assignment) : Z -> bool :=
  fun n =>
    match symbols !! Z.to_nat (n - 1) with
    | Some s => bool_decide (a !! s = Some 1)
    | None => false
    end.

End Meaning.

(** * Properties *)

Import Py Model.

(** ** [int(str(i)) == i] *)

Section int_str.

Lemma lstrip_nospace c s : isspace c = false → lstrip (String c s) = String c s.
Proof. intros H. simpl. by rewrite H. Qed.

Lemma rstrip_nospace s :
  (∀ c, In c (list_ascii_of_string s) → isspace c = false) → rstrip s = s.
Proof.
  induction s as [|c s IH]; simpl; [done|]. intros H.
  rewrite IH by (intros c' ?; apply H; by right).
  destruct s; [|done]. by rewrite H by (by left).
Qed.

Lemma strip_nospace s :
  (∀ c, In c (list_ascii_of_string s) → isspace c = false) → strip s = s.
Proof.
  intros H. unfold strip. destruct s as [|c s]; [done|].
  rewrite lstrip_nospace by (apply H; by left). by apply rstrip_nospace.
Qed.

Lemma uint_string_nospace d c :
  In c (list_ascii_of_string (NilEmpty.string_of_uint d)) → isspace c = false.
Proof.
  induction d; simpl; [done|..]; (intros [<-|?]; [reflexivity|auto]).
Qed.

Lemma int_digits_uint d acc seen :
  seen = true ∨ d ≠ Decimal.Nil →
  int_digits acc seen (NilEmpty.string_of_uint d) = Some (digits_value acc d).
Proof.
  revert acc seen. induction d; intros acc seen Hs;
    try (cbn [NilEmpty.string_of_uint int_digits digits_value];
         change (digit_val _) with (Some 0) || change (digit_val _) with (Some 1)
         || change (digit_val _) with (Some 2) || change (digit_val _) with (Some 3)
         || change (digit_val _) with (Some 4) || change (digit_val _) with (Some 5)
         || change (digit_val _) with (Some 6) || change (digit_val _) with (Some 7)
         || change (digit_val _) with (Some 8) || change (digit_val _) with (Some 9);
         cbv beta iota; rewrite ?Z.add_0_r; apply IHd; by left).
  simpl. by destruct Hs as [->|?].
Qed.

Lemma of_uint_acc_value d p :
  Z.pos (Pos.of_uint_acc d p) = digits_value (Z.pos p) d.
Proof.
  revert p. induction d; intros p; simpl; [done|..];
    rewrite IHd; f_equal; lia.
Qed.

Lemma of_uint_value d : Z.of_N (Pos.of_uint d) = digits_value 0 d.
Proof.
  induction d; simpl; [done|done|..]; by rewrite of_uint_acc_value.
Qed.

Lemma digits_value_to_uint p : digits_value 0 (Pos.to_uint p) = Z.pos p.
Proof. by rewrite <- of_uint_value, DecimalPos.Unsigned.of_to. Qed.

Lemma uint_string_head d :
  d ≠ Decimal.Nil →
  ∃ c r, NilEmpty.string_of_uint d = String c r ∧
         c ≠ "-"%char ∧ c ≠ "+"%char.
Proof. destruct d; [done|..]; intros _; simpl; eauto. Qed.

Lemma int_uint_string d :
  d ≠ Decimal.Nil → int (NilEmpty.string_of_uint d) = Ok (digits_value 0 d).
Proof.
  intros Hd. unfold int.
  rewrite strip_nospace by apply uint_string_nospace.
  pose proof (int_digits_uint d 0 false (or_intror Hd)) as Hv.
  destruct (uint_string_head d Hd) as (c & r & Hs & Hm & Hp).
  rewrite Hs in *.
  rewrite decide_False by done. rewrite decide_False by done.
  by rewrite Hv.
Qed.

Lemma int_neg_uint_string d :
  d ≠ Decimal.Nil →
  int (String "-" (NilEmpty.string_of_uint d)) = Ok (- digits_value 0 d).
Proof.
  intros Hd. unfold int.
  rewrite strip_nospace.
  2:{ intros c [<-|Hc]; [done|]. by eapply uint_string_nospace. }
  rewrite decide_True by done.
  by rewrite int_digits_uint by (by right).
Qed.

Lemma str_pos p : str (Z.pos p) = NilEmpty.string_of_uint (Pos.to_uint p).
Proof.
  unfold str. simpl. unfold NilZero.string_of_uint.
  pose proof (DecimalPos.Unsigned.to_uint_nonnil p).
  by destruct (Pos.to_uint p).
Qed.

Lemma str_neg p :
  str (Z.neg p) = String "-" (NilEmpty.string_of_uint (Pos.to_uint p)).
Proof.
  unfold str. simpl. unfold NilZero.string_of_uint.
  pose proof (DecimalPos.Unsigned.to_uint_nonnil p).
  by destruct (Pos.to_uint p).
Qed.

Lemma int_str (z : Z) : int (str z) = Ok z.
Proof.
  destruct z as [|p|p]; [done|..].
  - rewrite str_pos, int_uint_string by apply DecimalPos.Unsigned.to_uint_nonnil.
    by rewrite digits_value_to_uint.
  - rewrite str_neg, int_neg_uint_string by apply DecimalPos.Unsigned.to_uint_nonnil.
    by rewrite digits_value_to_uint.
Qed.

Lemma str_inj z z' : str z = str z' → z = z'.
Proof.
  intros H. assert (Ok z = Ok z') as [=]; [|done].
  by rewrite <- !int_str, H.
Qed.

End int_str.

(** ** The readers of [dp.py] and [dpll.py] are the same function *)

Lemma dp_dimacs_eq : Dp.dimacs = Dpll.from_dimacs.
Proof. reflexivity. Qed.

Lemma dp_read_line_eq : Dp.read_line = Dpll.read_line.
Proof. reflexivity. Qed.

Lemma dp_dimacs_file_eq : Dp.dimacs_file = Dpll.from_dimacs_file.
Proof. reflexivity. Qed.

Lemma dp_format_eq c : Dp.format c = Dpll.Clause_str c.
Proof.
  unfold Dp.format, Dpll.Clause_str. f_equal.
  apply map_ext. intros [v sg]. by destruct (decide (sg = -1)).
Qed.

(** ** Dicts in insertion order *)

Lemma dict_set_nonempty d k v : dict_set d k v ≠ [].
Proof. destruct d as [|[k' v'] d]; simpl; [done|]. by case_decide. Qed.

Lemma dict_set_fst d k v :
  (dict_set d k v).*1 = if decide (k ∈ d.*1) then d.*1 else d.*1 ++ [k].
Proof.
  induction d as [|[k' v'] d IH]; csimpl; [done|].
  destruct (decide (k = k')) as [->|Hne]; csimpl.
  - by rewrite decide_True by left.
  - rewrite IH. destruct (decide (k ∈ d.*1)).
    + by rewrite decide_True by (by right).
    + rewrite decide_False; [done|]. by intros [?|?]%elem_of_cons.
Qed.

Lemma dict_set_keys d k v : keys (dict_set d k v) = keys d ∪ {[k]}.
Proof.
  unfold keys. rewrite dict_set_fst. case_decide.
  - apply set_eq. intros y. rewrite elem_of_union, !elem_of_list_to_set.
    set_solver.
  - rewrite list_to_set_app_L. set_solver.
Qed.

Lemma dict_set_NoDup d k v : NoDup d.*1 → NoDup (dict_set d k v).*1.
Proof.
  intros Hd. rewrite dict_set_fst. case_decide; [done|].
  apply NoDup_app. split_and!; [done| |apply NoDup_singleton].
  intros x Hx ->%list_elem_of_singleton. done.
Qed.

Lemma dict_set_fresh d k v : k ∉ d.*1 → dict_set d k v = d ++ [(k, v)].
Proof.
  induction d as [|[k' v'] d IH]; csimpl; [done|].
  intros Hk. rewrite decide_False by (intros ->; apply Hk; by left).
  rewrite IH; [done|]. intros ?. apply Hk. by right.
Qed.

Lemma elem_of_dict_set d k v item :
  item ∈ dict_set d k v → item ∈ d ∨ item = (k, v).
Proof.
  induction d as [|[k' v'] d IH]; cbn [dict_set].
  - intros ->%list_elem_of_singleton. by right.
  - destruct (decide (k = k')) as [->|Hne].
    + intros [->|Hin]%elem_of_cons; [by right|]. left. by right.
    + intros [->|Hin]%elem_of_cons; [left; by left|].
      destruct (IH Hin) as [?|?]; [left; by right|by right].
Qed.

(** ** What the readers produce *)

Section readers.

Lemma from_dimacs_loop_nonempty literals vm acc c :
  Dpll.from_dimacs_loop literals vm acc = Ok c →
  literals ≠ [] ∨ acc ≠ [] → c ≠ [].
Proof.
  revert acc. induction literals as [|l ls IH]; simpl; intros acc Hc Hne.
  - destruct Hne; [done|congruence].
  - destruct (vm !! Z.abs l); [|done].
    eapply IH; [done|]. right. apply dict_set_nonempty.
Qed.

Lemma from_dimacs_loop_NoDup literals vm acc c :
  Dpll.from_dimacs_loop literals vm acc = Ok c → NoDup acc.*1 → NoDup c.*1.
Proof.
  revert acc. induction literals as [|l ls IH]; simpl; intros acc Hc Hnd.
  - congruence.
  - destruct (vm !! Z.abs l); [|done].
    eapply IH; [done|]. by apply dict_set_NoDup.
Qed.

Lemma read_line_clauses st line st' :
  Dpll.read_line st line = Ok st' →
  (r_clauses st' = r_clauses st ∧ r_symbols st' = r_symbols st) ∨
  ∃ literals c, literals ≠ [] ∧
    Dpll.from_dimacs literals (r_variable_map st) = Ok c ∧
    r_clauses st' = r_clauses st ++ [c] ∧
    r_symbols st' = r_symbols st ∪ keys c.
Proof.
  unfold Dpll.read_line.
  destruct (startswith _ "c"); [intros [= <-]; by left|].
  destruct (startswith _ "p cnf").
  { case_decide; [|done].
    destruct (int _); simpl; [intros [= <-]; by left|done]. }
  case_decide; [intros [= <-]; by left|].
  destruct (Dpll.literals_of _) as [lits|]; simpl; [|done].
  destruct lits as [|l lits]; [intros [= <-]; by left|].
  destruct (Dpll.from_dimacs _ _) as [c|] eqn:Hc; simpl; [|done].
  intros [= <-]. right. exists (l :: lits), c. by simpl.
Qed.

End readers.


(** ** [simplify] against its specification *)

Import Spec.

Lemma satisfied_by_cons a item c :
  satisfied_by a (item :: c) ↔ agrees a item ∨ satisfied_by a c.
Proof. apply Exists_cons. Qed.

Lemma reduce_cons a item c :
  reduce a (item :: c) =
  if decide (a !! item.1 = None) then item :: reduce a c else reduce a c.
Proof. unfold reduce. by rewrite filter_cons. Qed.

Lemma simplify_clause_spec c a acc :
  NoDup (acc.*1 ++ c.*1) →
  Dpll.simplify_clause c a acc =
  if decide (satisfied_by a c) then None else Some (acc ++ reduce a c).
Proof.
  revert acc. induction c as [|[s sg] c IH]; intros acc Hnd.
  - cbn [Dpll.simplify_clause].
    rewrite decide_False by (by intros ?%Exists_nil).
    unfold reduce. by rewrite filter_nil, app_nil_r.
  - rewrite !fmap_cons in *. cbn [Dpll.simplify_clause fst].
    rewrite reduce_cons. cbn [fst].
    apply NoDup_app in Hnd as (Hacc & Hdisj & Hc).
    apply NoDup_cons in Hc as [Hs Hc].
    destruct (a !! s) as [v|] eqn:Has.
    + destruct (decide (v = sg)) as [->|Hne].
      * rewrite decide_True; [done|]. apply Exists_cons_hd. by unfold agrees.
      * rewrite IH.
        2:{ apply NoDup_app. split_and!; [done| |done].
            intros x Hx Hx'. apply (Hdisj x Hx). by right. }
        rewrite (decide_False (P := Some v = None)) by congruence.
        destruct (decide (satisfied_by a c)) as [Hsat|Hsat].
        -- rewrite decide_True; [done|]. by apply Exists_cons_tl.
        -- rewrite decide_False; [done|].
           intros [Hag|?]%satisfied_by_cons; [|done].
           unfold agrees in Hag. simpl in Hag. congruence.
    + rewrite (decide_True (P := None = None)) by done.
      rewrite dict_set_fresh.
      2:{ intros Hx. apply (Hdisj s Hx). by left. }
      rewrite IH.
      2:{ rewrite fmap_app. csimpl. rewrite <- app_assoc. simpl.
          apply NoDup_app. split_and!; [done| |by apply NoDup_cons].
          intros x Hx Hx'. by apply (Hdisj x Hx). }
      rewrite <- app_assoc. simpl.
      destruct (decide (satisfied_by a c)) as [Hsat|Hsat].
      * rewrite decide_True; [done|]. by apply Exists_cons_tl.
      * rewrite decide_False; [done|].
        intros [Hag|?]%satisfied_by_cons; [|done].
        unfold agrees in Hag. simpl in Hag. congruence.
Qed.

Lemma simplify_loop_spec cs a acc :
  Forall (fun c : Clause => NoDup c.*1) cs →
  Dpll.simplify_loop cs a acc =
  let survivors := reduce a <$> filter (fun c => ¬ satisfied_by a c) cs in
  if decide ([] ∈ survivors) then None else Some (acc ++ survivors).
Proof.
  intros Hcs. cbv zeta. revert acc.
  induction Hcs as [|c cs Hc Hcs IH]; intros acc.
  - cbn [Dpll.simplify_loop]. rewrite filter_nil, fmap_nil.
    rewrite decide_False by (by intros ?%elem_of_nil).
    by rewrite app_nil_r.
  - cbn [Dpll.simplify_loop]. rewrite simplify_clause_spec by done.
    rewrite filter_cons.
    destruct (decide (satisfied_by a c)) as [Hsat|Hsat].
    + rewrite (decide_False (P := ¬ satisfied_by a c)) by (intros H; by apply H).
      apply IH.
    + rewrite (decide_True (P := ¬ satisfied_by a c)) by done.
      rewrite fmap_cons. simpl app.
      destruct (reduce a c) as [|item r] eqn:Hr.
      * rewrite decide_True; [done|]. by left.
      * rewrite IH.
        destruct (decide ([] ∈ _)) as [Hin|Hin].
        -- rewrite decide_True; [done|]. by right.
        -- rewrite decide_False.
           ++ by rewrite <- app_assoc.
           ++ by intros [?|?]%elem_of_cons.
Qed.

Lemma sorted_symbols_empty : sorted_symbols ∅ = [].
Proof. unfold sorted_symbols. by rewrite elements_empty. Qed.

Lemma simplify_refines f a :
  Forall (fun c : Clause => NoDup c.*1) (clauses f) →
  Dpll.simplify f a = simplify_spec f a.
Proof.
  intros Hf. unfold Dpll.simplify, simplify_spec.
  rewrite simplify_loop_spec by done. simpl.
  case_decide; [done|]. simpl. f_equal.
  destruct (reduce a <$> _) as [|c cs] eqn:E; [|done].
  unfold symbols_of. simpl. by rewrite sorted_symbols_empty.
Qed.

Lemma elem_of_reduce a c item :
  item ∈ reduce a c ↔ item ∈ c ∧ a !! item.1 = None.
Proof. unfold reduce. rewrite list_elem_of_filter. tauto. Qed.

Lemma satisfied_by_alt a c :
  satisfied_by a c ↔ ∃ s sg, (s, sg) ∈ c ∧ a !! s = Some sg.
Proof.
  unfold satisfied_by. rewrite Exists_exists. split.
  - intros ([s sg] & Hin & Hag). by exists s, sg.
  - intros (s & sg & Hin & Hag). by exists (s, sg).
Qed.

Import Examples.

(** C7. [simplify] does what the specification says: it coincides with
    [simplify_spec], which drops exactly the clauses having a literal
    whose symbol and sign match the assignment, removes from the others
    exactly the symbols the assignment mentions, fails exactly when a
    clause that is not satisfied loses all its symbols, and otherwise
    returns the formula of the reduced survivors with their sorted
    symbols. (The clauses are dicts: their keys are pairwise distinct.) *)
Theorem simplify_meets_spec (f : SatInstance) (a : assignment) :
  Forall (fun c : Clause => NoDup c.*1) (clauses f) →
  Dpll.simplify f a = simplify_spec f a ∧
  (Dpll.simplify f a = None ↔
     ∃ c, c ∈ clauses f ∧ ¬ satisfied_by a c ∧ reduce a c = []) ∧
  (∀ f', Dpll.simplify f a = Some f' →
     clauses f' = reduce a <$> filter (fun c => ¬ satisfied_by a c) (clauses f) ∧
     symbols f' = sorted_symbols (symbols_of (clauses f'))) ∧
  (∀ c, satisfied_by a c ↔ ∃ s sg, (s, sg) ∈ c ∧ a !! s = Some sg) ∧
  (∀ c item, item ∈ reduce a c ↔ item ∈ c ∧ a !! item.1 = None).
Proof.
  intros Hf. split; [by apply simplify_refines|].
  rewrite simplify_refines by done. unfold simplify_spec.
  split_and!.
  - case_decide as Hin; split; try done.
    + intros _. apply list_elem_of_fmap in Hin as (c & Hc & Hin).
      apply list_elem_of_filter in Hin as [Hsat Hin]. by exists c.
    + intros (c & Hc & Hsat & Hr). destruct Hin.
      apply list_elem_of_fmap. exists c. split; [done|].
      by apply list_elem_of_filter.
  - intros f'. case_decide; [done|]. by intros [= <-].
  - apply satisfied_by_alt.
  - intros c item. apply elem_of_reduce.
Qed.

Lemma simplify_meets_spec_witness :
  Dpll.simplify scenario_1 {[Sym 1 := 1]} =
  simplify_spec scenario_1 {[Sym 1 := 1]}.
Proof.
  refine (proj1 (simplify_meets_spec scenario_1 {[Sym 1 := 1]} _)).
  apply (bool_decide_unpack _). vm_compute. exact I.
Defined.

(** ** The formulas the readers build *)

Lemma symbols_of_snoc cs c : symbols_of (cs ++ [c]) = symbols_of cs ∪ keys c.
Proof.
  unfold symbols_of. rewrite fmap_app, union_list_app_L. simpl.
  by rewrite (right_id_L ∅ (∪)).
Qed.

Lemma elem_of_symbols_of cs s :
  s ∈ symbols_of cs ↔ ∃ c, c ∈ cs ∧ s ∈ keys c.
Proof.
  unfold symbols_of. rewrite elem_of_union_list. split.
  - intros (X & HX & Hs). apply list_elem_of_fmap in HX as (c & -> & Hc).
    by exists c.
  - intros (c & Hc & Hs). exists (keys c). split; [|done].
    apply list_elem_of_fmap. by exists c.
Qed.

Lemma elem_of_keys c s : s ∈ keys c ↔ ∃ sg, (s, sg) ∈ c.
Proof.
  unfold keys. rewrite elem_of_list_to_set, list_elem_of_fmap. split.
  - intros ([s' sg] & -> & Hin). by exists sg.
  - intros (sg & Hin). by exists (s, sg).
Qed.

Lemma sorted_symbols_set S : list_to_set (sorted_symbols S) = S.
Proof.
  apply set_eq. intros s. unfold sorted_symbols.
  rewrite elem_of_list_to_set, merge_sort_Permutation. apply elem_of_elements.
Qed.

Lemma read_line_ok st line st' :
  Dpll.read_line st line = Ok st' → reader_ok st → reader_ok st'.
Proof.
  intros Hrd [Hcs Hsy].
  destruct (read_line_clauses _ _ _ Hrd)
    as [[Heq Heq']|(lits & c & Hne & Hc & Hcl & Hsym)].
  - split; [by rewrite Heq|]. by rewrite Heq, Heq'.
  - split.
    + rewrite Hcl. apply Forall_app. split; [done|].
      apply Forall_singleton. split.
      * eapply from_dimacs_loop_nonempty; [exact Hc|by left].
      * eapply from_dimacs_loop_NoDup; [exact Hc|constructor].
    + by rewrite Hsym, Hcl, symbols_of_snoc, Hsy.
Qed.

Lemma read_lines_ok lines st st' :
  Dpll.read_lines st lines = Ok st' → reader_ok st → reader_ok st'.
Proof.
  revert st. induction lines as [|line lines IH]; simpl; intros st.
  - by intros [= <-].
  - destruct (Dpll.read_line st line) as [st1|] eqn:H1; simpl; [|done].
    intros H2 Hok. eapply IH; [done|]. by eapply read_line_ok.
Qed.

Lemma from_dimacs_file_wf lines f :
  Dpll.from_dimacs_file lines = Ok f → wf_instance f.
Proof.
  unfold Dpll.from_dimacs_file.
  destruct (Dpll.read_lines _ lines) as [st|] eqn:Hst; simpl; [|done].
  intros [= <-]. apply read_lines_ok in Hst as [Hcs Hsy].
  2:{ split; [constructor|done]. }
  split; simpl; [done|].
  case_decide as He.
  - by rewrite <- Hsy, He.
  - by rewrite sorted_symbols_set.
Qed.

(** The reader of [resolution.py]. *)
Lemma resolution_dimacs_nonempty lines acc cs :
  Resolution.dimacs lines acc = Ok cs →
  Forall (fun c : gset Z => c ≠ ∅) acc → Forall (fun c : gset Z => c ≠ ∅) cs.
Proof.
  revert acc. induction lines as [|line lines IH]; simpl; intros acc.
  - by intros [= <-].
  - destruct (_ || _); [apply IH|].
    destruct (Resolution.literals_of _) as [lits|]; simpl; [|done].
    destruct lits as [|l lits]; [apply IH|].
    intros H Hacc. eapply IH; [done|].
    apply Forall_app. split; [done|]. apply Forall_singleton.
    set_solver.
Qed.

(** C10. Every clause of a formula accepted by a reader has at least
    one literal, for the three readers; a line that only holds the
    terminating [0] adds no clause. *)
Theorem parsed_clauses_nonempty (lines : list string) :
  (∀ f, Dpll.from_dimacs_file lines = Ok f →
        Forall (fun c : Clause => c ≠ []) (clauses f)) ∧
  (∀ f, Dp.dimacs_file lines = Ok f →
        Forall (fun c : Clause => c ≠ []) (clauses f)) ∧
  (∀ cs, Resolution.dimacs lines [] = Ok cs →
        Forall (fun c : gset Z => c ≠ ∅) cs) ∧
  (∀ st, Dpll.read_line st "0" = Ok st ∧ Dp.read_line st "0" = Ok st) ∧
  (∀ rest acc, Resolution.dimacs ("0" :: rest) acc = Resolution.dimacs rest acc).
Proof.
  assert (∀ f, Dpll.from_dimacs_file lines = Ok f →
               Forall (fun c : Clause => c ≠ []) (clauses f)) as Hdpll.
  { intros f [Hcs _]%from_dimacs_file_wf.
    eapply Forall_impl; [exact Hcs|]. by intros c [? _]. }
  split_and!; [done| |..].
  - rewrite dp_dimacs_file_eq. done.
  - intros cs Hcs. eapply resolution_dimacs_nonempty; [done|constructor].
  - intros st. by rewrite dp_read_line_eq.
  - done.
Qed.

Lemma parsed_clauses_nonempty_witness :
  Forall (fun c : Clause => c ≠ []) (clauses scenario_1).
Proof.
  refine (proj1 (parsed_clauses_nonempty scenario_1_text) scenario_1 _).
  vm_compute. reflexivity.
Defined.

(** ** Literals that the preamble does not declare *)

Lemma foldl_declare_lookup (l : list Z) (vm : gmap Z symbol) i :
  foldl (fun vm i => <[i := Sym i]> vm) vm l !! i =
  if decide (i ∈ l) then Some (Sym i) else vm !! i.
Proof.
  revert vm. induction l as [|j l IH]; intros vm; cbn [foldl].
  - by rewrite decide_False by (by intros ?%elem_of_nil).
  - rewrite IH. destruct (decide (i ∈ l)) as [Hin|Hin].
    + by rewrite decide_True by (by right).
    + destruct (decide (i = j)) as [->|Hne].
      * rewrite decide_True by (by left). by rewrite lookup_insert_eq.
      * rewrite decide_False by (by intros [?|?]%elem_of_cons).
        by rewrite lookup_insert_ne.
Qed.

Lemma declared_lookup nvars i :
  declared nvars !! i = if decide (1 ≤ i ≤ nvars) then Some (Sym i) else None.
Proof.
  unfold declared, range. rewrite foldl_declare_lookup, lookup_empty.
  destruct (decide (i ∈ seqZ 1 (nvars + 1 - 1))) as [Hin|Hin];
    rewrite elem_of_seqZ in Hin; case_decide; (done || lia).
Qed.

Lemma from_dimacs_loop_undeclared nvars literals acc l :
  l ∈ literals → ¬ (1 ≤ Z.abs l ≤ nvars) →
  ∃ before l' after,
    literals = before ++ l' :: after ∧
    (∀ x, x ∈ before → 1 ≤ Z.abs x ≤ nvars) ∧
    ¬ (1 ≤ Z.abs l' ≤ nvars) ∧
    Dpll.from_dimacs_loop literals (declared nvars) acc =
    Raise (ValueError
      ("Literal " +:+ str l' +:+ " refers to an undefined variable")).
Proof.
  intros Hin Hout. revert acc.
  induction literals as [|x xs IH]; intros acc; [by apply elem_of_nil in Hin|].
  cbn [Dpll.from_dimacs_loop]. rewrite declared_lookup.
  case_decide as Hx.
  - apply elem_of_cons in Hin as [->|Hin]; [done|].
    destruct (IH Hin (dict_set acc (Sym (Z.abs x))
                        (if decide (x > 0) then 1 else -1)))
      as (before & l' & after & -> & Hb & Hr & Heq).
    exists (x :: before), l', after. split_and!; [done| |done|done].
    intros y [->|Hy]%elem_of_cons; [done|by apply Hb].
  - exists [], x, xs. split_and!; [done| |done|done].
    by intros y ?%elem_of_nil.
Qed.

(** C9 (as amended). With the variable map that the preamble
    [p cnf nvars _] leaves, the clause builders of [dpll.py] and [dp.py]
    fail on a list of literals one of which has an absolute value outside
    [1..nvars]: they raise [ValueError] with a message that spells the
    first such literal, the one before which every literal of the list
    is declared (and [str] is injective, so the message identifies it),
    and so does the reading of a clause line that holds it. *)
Theorem undeclared_literal_rejected (nvars : Z) (literals : list Z) (l : Z) :
  l ∈ literals → ¬ (1 ≤ Z.abs l ≤ nvars) →
  ∃ before l' after,
    literals = before ++ l' :: after ∧
    (∀ x, x ∈ before → 1 ≤ Z.abs x ≤ nvars) ∧
    ¬ (1 ≤ Z.abs l' ≤ nvars) ∧
    let e := ValueError
      ("Literal " +:+ str l' +:+ " refers to an undefined variable") in
    Dpll.from_dimacs literals (declared nvars) = Raise e ∧
    Dp.dimacs literals (declared nvars) = Raise e ∧
    (∀ st line,
        r_variable_map st = declared nvars →
        startswith (strip line) "c" = false →
        startswith (strip line) "p cnf" = false →
        Dpll.literals_of (split (strip line)) = Ok literals →
        Dpll.read_line st line = Raise e ∧ Dp.read_line st line = Raise e) ∧
    (∀ z, str z = str l' → z = l').
Proof.
  intros Hin Hout.
  destruct (from_dimacs_loop_undeclared nvars literals [] l Hin Hout)
    as (before & l' & after & Hsplit & Hb & Hr & Heq).
  exists before, l', after. split_and!; [done|done|done|]. cbv zeta.
  split_and!; [done|by rewrite dp_dimacs_eq| |intros z; apply str_inj].
  intros st line Hvm Hc Hp Hlits. rewrite dp_read_line_eq.
  assert (Dpll.read_line st line = Raise (ValueError
      ("Literal " +:+ str l' +:+ " refers to an undefined variable")));
    [|done].
  unfold Dpll.read_line. rewrite Hc, Hp.
  destruct (decide (strip line = "")) as [He|_].
  { rewrite He in Hlits. simpl in Hlits. injection Hlits as <-.
    by apply elem_of_nil in Hin. }
  rewrite Hlits. simpl.
  destruct literals as [|x xs]; [by apply elem_of_nil in Hin|].
  rewrite Hvm. unfold Dpll.from_dimacs in Heq. unfold Dpll.from_dimacs.
  by rewrite Heq.
Qed.

Lemma undeclared_literal_rejected_witness :
  ∃ before l' after,
    [1; 3; -7] = before ++ l' :: after ∧
    (∀ x, x ∈ before → 1 ≤ Z.abs x ≤ 2) ∧
    ¬ (1 ≤ Z.abs l' ≤ 2) ∧
    Dpll.from_dimacs [1; 3; -7] (declared 2) =
    Raise (ValueError
      ("Literal " +:+ str l' +:+ " refers to an undefined variable")).
Proof.
  destruct (undeclared_literal_rejected 2 [1; 3; -7] (-7))
    as (before & l' & after & H1 & H2 & H3 & H4 & _).
  - set_solver.
  - simpl. lia.
  - exists before, l', after. split_and!; [exact H1|exact H2|exact H3|exact H4].
Defined.

(** C9, as stated, fails: the reader of [resolution.py] skips the
    preamble and accepts a literal that it does not declare. *)
Lemma resolution_reader_accepts_undeclared :
  ¬ (1 ≤ Z.abs 5 ≤ 1) ∧
  Resolution.dimacs ["p cnf 1 1"; "5 0"] [] = Ok [{[ 5 ]}] ∧
  Dpll.from_dimacs_file ["p cnf 1 1"; "5 0"] =
    Raise (ValueError "Literal 5 refers to an undefined variable").
Proof. split; [simpl; lia|]. split; vm_compute; reflexivity. Qed.

(** ** Formatting a clause and reading it back *)

Lemma rstrip_cons_nospace c s :
  isspace c = false → ∃ r, rstrip (String c s) = String c r.
Proof. intros H. simpl. destruct (rstrip s); rewrite ?H; eauto. Qed.

Lemma int_x_rejected s : ∃ msg, int (String "x" s) = Raise (ValueError msg).
Proof.
  unfold int, strip. rewrite lstrip_nospace by done.
  destruct (rstrip_cons_nospace "x" s) as [r ->]; [done|].
  simpl. eauto.
Qed.

Lemma int_minus_x_rejected s :
  ∃ msg, int (String "-" (String "x" s)) = Raise (ValueError msg).
Proof.
  unfold int, strip. rewrite lstrip_nospace by done.
  cbn [rstrip]. destruct (rstrip s); simpl; eauto.
Qed.

Lemma token_rejected item : ∃ msg, int (token_of item) = Raise (ValueError msg).
Proof.
  destruct item as [s sg]. unfold token_of, symbol_name. simpl.
  case_decide; [apply int_minus_x_rejected|apply int_x_rejected].
Qed.

Lemma int_minus_str z : 0 < z → int (String "-" (str z)) = Ok (- z).
Proof.
  destruct z as [|p|p]; [lia| |lia]. intros _.
  rewrite str_pos, int_neg_uint_string by apply DecimalPos.Unsigned.to_uint_nonnil.
  by rewrite digits_value_to_uint.
Qed.

Lemma token_without_x item :
  0 < idx item.1 → item.2 = 1 ∨ item.2 = -1 →
  int (drop_x (token_of item)) = Ok (literal_of item).
Proof.
  destruct item as [[i] sg]. unfold token_of, symbol_name, literal_of. simpl.
  intros Hi [->| ->]; simpl; change ("" +:+ str i) with (str i).
  - rewrite int_str. f_equal. lia.
  - rewrite int_minus_str by done. f_equal. lia.
Qed.

Lemma from_dimacs_loop_built nvars literals acc c :
  Dpll.from_dimacs_loop literals (declared nvars) acc = Ok c →
  built_under nvars acc → built_under nvars c.
Proof.
  revert acc. induction literals as [|l ls IH]; cbn [Dpll.from_dimacs_loop];
    intros acc.
  - by intros [= <-].
  - rewrite declared_lookup. case_decide as Hl; [|done].
    intros Hc [Hnd Hit]. apply (IH _ Hc). split.
    + by apply dict_set_NoDup.
    + apply Forall_forall. intros [s sg] Hin.
      apply elem_of_dict_set in Hin as [Hold| [= -> ->]].
      * by apply (proj1 (Forall_forall _ _) Hit).
      * simpl. split; [done|]. case_decide; auto.
Qed.

Lemma from_dimacs_loop_literals nvars c acc :
  built_under nvars c → NoDup (acc.*1 ++ c.*1) →
  Dpll.from_dimacs_loop (literal_of <$> c) (declared nvars) acc = Ok (acc ++ c).
Proof.
  intros [_ Hit]. revert acc.
  induction Hit as [|[[i] sg] c [Hi Hsg] Hit IH]; intros acc Hnd.
  - simpl. by rewrite app_nil_r.
  - rewrite fmap_cons. cbn [Dpll.from_dimacs_loop]. simpl in Hi, Hsg.
    change (literal_of ({| idx := i |}, sg)) with (i * sg).
    assert (Z.abs (i * sg) = i) as -> by (destruct Hsg as [-> | ->]; lia).
    rewrite declared_lookup, decide_True by done.
    assert ((if decide (i * sg > 0) then 1 else -1) = sg) as ->.
    { destruct Hsg as [-> | ->]; case_decide; lia. }
    rewrite fmap_cons in Hnd. simpl in Hnd.
    rewrite dict_set_fresh.
    2:{ apply NoDup_app in Hnd as (_ & Hd & _). intros Hx.
        apply (Hd _ Hx). by left. }
    rewrite IH.
    + by rewrite <- app_assoc.
    + rewrite fmap_app. simpl. by rewrite <- app_assoc.
Qed.

Lemma built_under_perm nvars c c' :
  c ≡ₚ c' → built_under nvars c → built_under nvars c'.
Proof.
  intros Hp [Hnd Hit]. split.
  - by rewrite <- Hp.
  - by rewrite <- Hp.
Qed.

(** C6 (as amended). For a clause built by the reader under
    [p cnf nvars _]: formatting prints, in insertion order, the token
    [x<i>] or [-x<i>] of each literal; none of these tokens is accepted
    by the integer conversion of the readers; once the [x] is taken out
    of each token, converting them gives back the literals, and building
    a clause from these literals, in any order, gives back the same
    symbol-to-sign mapping (the same dict when the order is kept). *)
Theorem format_then_reparse (nvars : Z) (literals : list Z) (c : Clause) :
  Dpll.from_dimacs literals (declared nvars) = Ok c →
  Dpll.Clause_str c = join " " (token_of <$> c) ∧
  Dp.format c = join " " (token_of <$> c) ∧
  (∀ item, item ∈ c → ∃ msg, int (token_of item) = Raise (ValueError msg)) ∧
  (∀ item, item ∈ c → int (drop_x (token_of item)) = Ok (literal_of item)) ∧
  Dpll.from_dimacs (literal_of <$> c) (declared nvars) = Ok c ∧
  (∀ lits, lits ≡ₚ literal_of <$> c →
     ∃ c', Dpll.from_dimacs lits (declared nvars) = Ok c' ∧ c' ≡ₚ c ∧
           (list_to_map c' : gmap symbol Z) = list_to_map c).
Proof.
  intros Hc.
  assert (built_under nvars c) as Hb.
  { eapply from_dimacs_loop_built; [exact Hc|]. split; constructor. }
  assert (Dpll.Clause_str c = join " " (token_of <$> c)) as Hstr.
  { unfold Dpll.Clause_str. f_equal. apply map_ext. by intros [s sg]. }
  split_and!.
  - done.
  - by rewrite dp_format_eq.
  - intros item _. apply token_rejected.
  - intros item Hin. destruct Hb as [_ Hit].
    destruct (proj1 (Forall_forall _ _) Hit item Hin) as [[? ?] ?].
    apply token_without_x; [lia|done].
  - unfold Dpll.from_dimacs. rewrite (from_dimacs_loop_literals nvars c []).
    + done.
    + done.
    + by destruct Hb.
  - intros lits Hp.
    change (literal_of <$> c) with (map literal_of c) in Hp.
    apply Permutation_map_inv in Hp as (c' & -> & Hp').
    change (map literal_of c') with (literal_of <$> c').
    assert (built_under nvars c') as Hb' by (by eapply built_under_perm).
    exists c'. split_and!.
    + unfold Dpll.from_dimacs.
      rewrite (from_dimacs_loop_literals nvars c' []); [done|done|].
      by destruct Hb'.
    + done.
    + apply list_to_map_proper; [by destruct Hb'|done].
Qed.

Lemma format_then_reparse_witness :
  Dpll.from_dimacs (literal_of <$> [(Sym 1, -1); (Sym 2, 1)]) (declared 2) =
  Ok [(Sym 1, -1); (Sym 2, 1)].
Proof.
  refine (proj1 (proj2 (proj2 (proj2 (proj2
    (format_then_reparse 2 [-1; 2] [(Sym 1, -1); (Sym 2, 1)] _)))))).
  vm_compute. reflexivity.
Defined.

(** C6, as stated, fails: the formatted clause is not DIMACS text, and
    reading it back raises [ValueError]. *)
Lemma formatted_clause_not_reparsed :
  Dpll.from_dimacs_file ["p cnf 1 1"; "1 0"] =
    Ok (mkSatInstance [Sym 1] [[(Sym 1, 1)]]) ∧
  Dpll.Clause_str [(Sym 1, 1)] = "x1" ∧
  Dp.format [(Sym 1, 1)] = "x1" ∧
  Dpll.from_dimacs_file ["p cnf 1 1"; Dpll.Clause_str [(Sym 1, 1)]] =
    Raise (ValueError "invalid literal for int() with base 10: 'x1'") ∧
  Dp.dimacs_file ["p cnf 1 1"; Dp.format [(Sym 1, 1)]] =
    Raise (ValueError "invalid literal for int() with base 10: 'x1'").
Proof. split_and!; vm_compute; reflexivity. Qed.

(** ** The store of assignment dicts *)

Section store.
Implicit Types (h : heap) (a b : nat) (k : symbol) (v : Z).

Lemma length_setitem h a k v : length (setitem h a k v) = length h.
Proof. unfold setitem. apply length_insert. Qed.

Lemma lookup_setitem_ne h a b k v : b ≠ a → setitem h a k v !! b = h !! b.
Proof. intros Hne. unfold setitem. by apply list_lookup_insert_ne. Qed.

Lemma load_setitem_ne h a b k v : b ≠ a → load (setitem h a k v) b = load h b.
Proof. intros Hne. unfold load. by rewrite lookup_setitem_ne. Qed.

Lemma load_setitem_eq h a k v :
  (a < length h)%nat → load (setitem h a k v) a = <[k := v]> (load h a).
Proof.
  intros Hlt. unfold load at 1, setitem.
  by rewrite list_lookup_insert_eq.
Qed.

Lemma load_setitem_out h a k v :
  (length h ≤ a)%nat → load (setitem h a k v) a = load h a.
Proof. intros Hge. unfold setitem. by rewrite list_insert_ge. Qed.

Lemma load_copy h a : load (copy h a).1 (copy h a).2 = load h a.
Proof.
  unfold copy, load at 1. simpl.
  by rewrite lookup_app_r, Nat.sub_diag.
Qed.

Lemma lookup_copy_old h a b : (b < length h)%nat → (copy h a).1 !! b = h !! b.
Proof. intros Hlt. unfold copy. simpl. by rewrite lookup_app_l. Qed.

Lemma load_fresh h : load (fresh h).1 (fresh h).2 = ∅.
Proof.
  unfold fresh, load. simpl. by rewrite lookup_app_r, Nat.sub_diag.
Qed.

Lemma conflicts_false asg k v :
  Dpll.conflicts asg k v = false ↔ asg !! k = None ∨ asg !! k = Some v.
Proof.
  unfold Dpll.conflicts. destruct (asg !! k) as [w|]; [|naive_solver].
  rewrite negb_false_iff, bool_decide_eq_true. naive_solver.
Qed.

Lemma load_setitem_subseteq h a k v :
  Dpll.conflicts (load h a) k v = false →
  load h a ⊆ load (setitem h a k v) a.
Proof.
  intros Hc. destruct (decide (a < length h)%nat) as [Hlt|Hge].
  - rewrite load_setitem_eq by done.
    apply conflicts_false in Hc as [Hn|Hs].
    + by apply insert_subseteq.
    + by rewrite insert_id.
  - rewrite load_setitem_out by lia. done.
Qed.

End store.

(** ** What a call of [solve_dpll] does to the store *)

Lemma propagate_frame fuel f h a h' e :
  Dpll.propagate fuel f h a = Some (h', e) →
  length h' = length h ∧
  (∀ b, b ≠ a → h' !! b = h !! b) ∧
  load h a ⊆ load h' a ∧
  (∀ r, e = Dpll.Returns (Some r) → r = a).
Proof.
  revert f h. induction fuel as [|n IH]; intros f h; cbn [Dpll.propagate];
    destruct (Dpll.find_unit_clause f) as [[s sg]|]; try done;
    try (intros [= <- <-]; by split_and!).
  destruct (Dpll.conflicts (load h a) s sg) eqn:Hc;
    [intros [= <- <-]; by split_and!|].
  pose proof (load_setitem_subseteq h a s sg Hc) as Hsub.
  assert (∀ b, b ≠ a → setitem h a s sg !! b = h !! b) as Hoth
    by (intros b ?; by apply lookup_setitem_ne).
  destruct (Dpll.simplify f _) as [f'|];
    [|intros [= <- <-]; rewrite length_setitem; by split_and!].
  destruct (clauses f') as [|c cs];
    [intros [= <- <-]; rewrite length_setitem; split_and!; try done;
     by intros r [= <-]|].
  intros Hp. apply IH in Hp as (Hlen & Hframe & Hincl & Hret).
  rewrite length_setitem in Hlen. split_and!; [done| |by etrans|done].
  intros b Hb. by rewrite Hframe, Hoth.
Qed.

Lemma enter_spec h asg h0 a :
  Dpll.enter h asg = (h0, a) →
  (length h ≤ length h0)%nat ∧
  (∀ b, (b < length h)%nat → h0 !! b = h !! b) ∧
  (asg = Some a ∧ h0 = h ∨ asg = None ∧ a = length h ∧ h0 = h ++ [∅]).
Proof.
  destruct asg as [a'|]; simpl.
  - intros [= <- <-]. split_and!; [done|done|by left].
  - unfold fresh. intros [= <- <-]. rewrite length_app. simpl.
    split_and!; [lia| |by right].
    intros b Hb. by rewrite lookup_app_l.
Qed.

Lemma solve_dpll_frame fuel inst asg h h' res :
  Dpll.solve_dpll fuel inst asg h = Some (h', res) →
  (length h ≤ length h')%nat ∧
  (∀ b, (b < length h)%nat → asg ≠ Some b → h' !! b = h !! b) ∧
  (∀ a, asg = Some a → load h a ⊆ load h' a) ∧
  (∀ r, res = Ok (Some r) → asg = Some r ∨ (length h ≤ r)%nat).
Proof.
  revert inst asg h h' res.
  induction fuel as [|n IH]; intros inst asg h h' res; [done|].
  cbn [Dpll.solve_dpll].
  destruct (Dpll.enter h asg) as [h0 a] eqn:He.
  apply enter_spec in He as (Hlen0 & Hold0 & Hasg).
  assert (∀ a', asg = Some a' → a' = a ∧ h0 = h) as Hsome.
  { intros a' ->. destruct Hasg as [[[= ->] ->]|[? _]]; done. }
  assert (∀ r, r = a → asg = Some r ∨ (length h ≤ r)%nat) as Hres.
  { intros r ->. destruct Hasg as [[-> _]|(_ & -> & _)]; [by left|by right]. }
  assert (∀ b, (b < length h)%nat → asg ≠ Some b → b ≠ a) as Hne.
  { intros b Hb Hab ->. destruct Hasg as [[-> _]|(_ & -> & _)]; [done|lia]. }
  destruct inst as [f|].
  2:{ intros [= <- <-]. split_and!; [done|by auto| |done].
      intros a' Ha'. by destruct (Hsome a' Ha') as [-> ->]. }
  destruct (Dpll.propagate n f h0 a) as [[h1 e]|] eqn:Hp; [|done].
  apply propagate_frame in Hp as (Hlen1 & Hold1 & Hincl1 & Hret1).
  assert ((length h ≤ length h1)%nat ∧
          (∀ b, (b < length h)%nat → asg ≠ Some b → h1 !! b = h !! b) ∧
          (∀ a', asg = Some a' → load h a' ⊆ load h1 a')) as (HA & HB & HC).
  { split_and!; [lia| |].
    - intros b Hb Hab. rewrite Hold1 by eauto. by apply Hold0.
    - intros a' Ha'. by destruct (Hsome a' Ha') as [-> ->]. }
  destruct e as [r|f1].
  { intros [= <- <-]. split_and!; [done|done|done|].
    intros r' [= ->]. apply Hres. by apply Hret1. }
  destruct (clauses f1) as [|c1 cs1] eqn:Hcl.
  { intros [= <- <-]. split_and!; [done|done|done|].
    intros r' [= <-]. by apply Hres. }
  destruct (Dpll.first_unassigned _ _) as [s|].
  2:{ intros [= <- <-]. split_and!; [done|done|done|].
      intros r' [= <-]. by apply Hres. }
  destruct (copy h1 a) as [h2 at_] eqn:Hcp.
  assert (at_ = length h1 ∧ h2 = h1 ++ [load h1 a]) as [-> ->].
  { unfold copy in Hcp. by injection Hcp as <- <-. }
  destruct (Dpll.solve_dpll n _ _ (setitem _ _ _ 1)) as [[h3 rt]|] eqn:Ht;
    [|done].
  apply IH in Ht as (Hlen3 & Hold3 & _ & Hret3).
  rewrite length_setitem, length_app in Hlen3, Hold3, Hret3.
  simpl in Hlen3, Hold3, Hret3.
  assert (∀ b, (b < length h1)%nat → h3 !! b = h1 !! b) as Hold13.
  { intros b Hb. rewrite Hold3; [|lia|intros [= Hx]; lia].
    rewrite lookup_setitem_ne by lia. by rewrite lookup_app_l. }
  assert (load h3 a = load h1 a ∨ (length h1 ≤ a)%nat) as Ha3.
  { destruct (decide (a < length h1)%nat); [left|right; lia].
    unfold load. by rewrite Hold13. }
  assert ((length h ≤ length h3)%nat ∧
          (∀ b, (b < length h)%nat → asg ≠ Some b → h3 !! b = h !! b) ∧
          (∀ a', asg = Some a' → load h a' ⊆ load h3 a'))
    as (HA3 & HB3 & HC3).
  { split_and!; [lia| |].
    - intros b Hb Hab. rewrite Hold13 by lia. by apply HB.
    - intros a' Ha'. destruct (Hsome a' Ha') as [-> ->].
      destruct (decide (a < length h1)%nat) as [Hlt|Hge].
      + unfold load at 2. rewrite Hold13 by done. by apply HC.
      + unfold load at 1. rewrite lookup_ge_None_2 by lia. simpl.
        apply map_empty_subseteq. }
  destruct rt as [rt|e].
  2:{ intros [= <- <-]. split_and!; done. }
  destruct (Dpll.truthy h3 rt).
  { intros [= <- <-]. split_and!; [done|done|done|].
    intros r' [= ->]. right.
    destruct (Hret3 r' eq_refl) as [[= Hx]|?]; lia. }
  destruct (copy h3 a) as [h4 af] eqn:Hcp'.
  assert (af = length h3 ∧ h4 = h3 ++ [load h3 a]) as [-> ->].
  { unfold copy in Hcp'. by injection Hcp' as <- <-. }
  intros Hf. apply IH in Hf as (Hlen5 & Hold5 & _ & Hret5).
  rewrite length_setitem, length_app in Hlen5, Hold5, Hret5.
  simpl in Hlen5, Hold5, Hret5.
  assert (∀ b, (b < length h3)%nat → h' !! b = h3 !! b) as Hold35.
  { intros b Hb. rewrite Hold5; [|lia|intros [= Hx]; lia].
    rewrite lookup_setitem_ne by lia. by rewrite lookup_app_l. }
  split_and!.
  - lia.
  - intros b Hb Hab. rewrite Hold35 by lia. by apply HB3.
  - intros a' Ha'. destruct (Hsome a' Ha') as [-> ->].
    destruct (decide (a < length h3)%nat) as [Hlt|Hge].
    + unfold load at 2. rewrite Hold35 by done. by apply HC3.
    + unfold load at 1. rewrite lookup_ge_None_2 by lia. simpl.
      apply map_empty_subseteq.
  - intros r' ->. right.
    destruct (Hret5 r' eq_refl) as [[= Hx]|?]; lia.
Qed.

(** ** Well-formed formulas under [simplify] *)

Lemma reduce_NoDup a c : NoDup c.*1 → NoDup (reduce a c).*1.
Proof.
  intros Hc. eapply sublist_NoDup; [exact Hc|].
  apply fmap_sublist. unfold reduce. apply sublist_filter.
Qed.

Lemma simplify_wf f a f' :
  wf_instance f → Dpll.simplify f a = Some f' →
  wf_instance f' ∧
  clauses f' = reduce a <$> filter (fun c => ¬ satisfied_by a c) (clauses f).
Proof.
  intros [Hcs Hsy] Hs.
  assert (Forall (fun c : Clause => NoDup c.*1) (clauses f)) as Hnd.
  { eapply Forall_impl; [exact Hcs|]. by intros c [_ ?]. }
  rewrite simplify_refines in Hs by done. unfold simplify_spec in Hs.
  case_decide as Hin; [done|]. injection Hs as <-. simpl.
  split; [|done]. split; simpl.
  - apply Forall_forall. intros c' Hc'. split.
    + by intros ->.
    + apply list_elem_of_fmap in Hc' as (c & -> & Hc).
      apply list_elem_of_filter in Hc as [_ Hc]. apply reduce_NoDup.
      by apply (proj1 (Forall_forall _ _) Hnd).
  - apply sorted_symbols_set.
Qed.

Lemma length_reduce_le a c : (length (reduce a c) ≤ length c)%nat.
Proof. unfold reduce. apply length_filter. Qed.

Lemma length_reduce_lt a c item :
  item ∈ c → a !! item.1 ≠ None → (length (reduce a c) < length c)%nat.
Proof.
  intros Hin Hit. unfold reduce.
  by apply (length_filter_lt (fun i : symbol * Z => a !! i.1 = None) c item).
Qed.

Lemma survivors_weight_le a cs :
  (sum_list_with length
     (reduce a <$> filter (fun c => ¬ satisfied_by a c) cs)
   ≤ sum_list_with length cs)%nat.
Proof.
  induction cs as [|c cs IH]; [done|].
  pose proof (length_reduce_le a c).
  rewrite filter_cons. case_decide; csimpl; lia.
Qed.

Lemma survivors_weight_lt a cs c :
  c ∈ cs → c ≠ [] →
  satisfied_by a c ∨ (∃ item, item ∈ c ∧ a !! item.1 ≠ None) →
  (sum_list_with length
     (reduce a <$> filter (fun c => ¬ satisfied_by a c) cs)
   < sum_list_with length cs)%nat.
Proof.
  intros Hin Hne Hc. induction cs as [|c0 cs IH]; [by apply elem_of_nil in Hin|].
  pose proof (survivors_weight_le a cs) as Hle.
  pose proof (length_reduce_le a c0) as Hl0.
  assert (0 < length c)%nat as Hpos by (destruct c; [done|simpl; lia]).
  rewrite filter_cons.
  apply elem_of_cons in Hin as [<-|Hin].
  - destruct Hc as [Hsat|(item & Hit & Hass)].
    + rewrite decide_False by (intros Hn; by apply Hn). csimpl. lia.
    + pose proof (length_reduce_lt a c item Hit Hass).
      case_decide; csimpl; lia.
  - specialize (IH Hin). case_decide; csimpl; lia.
Qed.

Lemma simplify_weight_lt f s v f' :
  wf_instance f → s ∈ symbols_of (clauses f) →
  Dpll.simplify f {[s := v]} = Some f' → (weight f' < weight f)%nat.
Proof.
  intros Hwf Hs Hf'.
  destruct (simplify_wf _ _ _ Hwf Hf') as [_ Hcl].
  unfold weight. rewrite Hcl.
  apply elem_of_symbols_of in Hs as (c & Hc & Hk).
  apply elem_of_keys in Hk as [sg Hk].
  apply (survivors_weight_lt _ _ c); [done| |].
  - destruct Hwf as [Hcs _].
    by destruct (proj1 (Forall_forall _ _) Hcs c Hc).
  - right. exists (s, sg). split; [done|]. simpl.
    by rewrite lookup_singleton_eq.
Qed.

Lemma find_unit_loop_Some cs item :
  Dpll.find_unit_loop cs = Some item → [item] ∈ cs.
Proof.
  induction cs as [|c cs IH]; simpl; [done|].
  destruct c as [|i [|j c]]; try (intros H; right; by apply IH).
  intros [= ->]. by left.
Qed.

Lemma find_unit_loop_None cs c :
  Dpll.find_unit_loop cs = None → c ∈ cs → length c ≠ 1%nat.
Proof.
  induction cs as [|c0 cs IH]; simpl; [by intros _ ?%elem_of_nil|].
  destruct c0 as [|i [|j c0]]; try done;
    intros Hn [->|Hin]%elem_of_cons; simpl; auto.
Qed.

Lemma first_unassigned_Some l a s :
  Dpll.first_unassigned l a = Some s → s ∈ l ∧ a !! s = None.
Proof.
  induction l as [|x l IH]; simpl; [done|].
  destruct (a !! x) eqn:Hx.
  - intros [? ?]%IH. split; [by right|done].
  - intros [= <-]. split; [by left|done].
Qed.

Lemma first_unassigned_None l a s :
  Dpll.first_unassigned l a = None → s ∈ l → a !! s ≠ None.
Proof.
  induction l as [|x l IH]; simpl; [by intros _ ?%elem_of_nil|].
  destruct (a !! x) eqn:Hx; [|done].
  intros Hn [->|Hin]%elem_of_cons; [congruence|auto].
Qed.

Lemma reduce_untouched a c :
  (∀ item, item ∈ c → a !! item.1 = None) → reduce a c = c.
Proof.
  induction c as [|item c IH]; [done|]. intros H.
  rewrite reduce_cons, decide_True by (apply H; by left).
  rewrite IH; [done|]. intros i Hi. apply H. by right.
Qed.

Lemma reduce_single_length s v c :
  NoDup c.*1 → (length c ≤ S (length (reduce {[s := v]} c)))%nat.
Proof.
  induction c as [|[k sg] c IH]; [simpl; lia|].
  rewrite fmap_cons. intros [Hk Hc]%NoDup_cons. rewrite reduce_cons. simpl in *.
  destruct (decide (k = s)) as [->|Hne].
  - rewrite lookup_singleton_eq. rewrite decide_False by done.
    rewrite reduce_untouched; [lia|].
    intros [k' sg'] Hin. simpl. apply lookup_singleton_ne.
    intros <-. apply Hk. apply list_elem_of_fmap. by exists (s, sg').
  - rewrite lookup_singleton_ne by done. rewrite decide_True by done.
    simpl. specialize (IH Hc). lia.
Qed.

Lemma simplify_branch_Some f s v :
  wf_instance f → Dpll.find_unit_clause f = None →
  ∃ f', Dpll.simplify f {[s := v]} = Some f'.
Proof.
  intros [Hcs Hsy] Hu.
  assert (Forall (fun c : Clause => NoDup c.*1) (clauses f)) as Hnd.
  { eapply Forall_impl; [exact Hcs|]. by intros c [_ ?]. }
  rewrite simplify_refines by done. unfold simplify_spec.
  case_decide as Hin; [|eauto]. exfalso.
  apply list_elem_of_fmap in Hin as (c & Hr & Hc).
  apply list_elem_of_filter in Hc as [_ Hc].
  destruct (proj1 (Forall_forall _ _) Hcs c Hc) as [Hne Hndc].
  pose proof (reduce_single_length s v c Hndc) as Hlen.
  rewrite <- Hr in Hlen. simpl in Hlen.
  apply (find_unit_loop_None _ c Hu Hc).
  destruct c; [done|]. simpl in *. lia.
Qed.

(** ** [solve_dpll] returns *)

Lemma propagate_terminates fuel f h a :
  wf_instance f → (weight f ≤ fuel)%nat →
  ∃ h' e, Dpll.propagate fuel f h a = Some (h', e) ∧
    ∀ f', e = Dpll.Falls_through f' →
      wf_instance f' ∧ (weight f' ≤ weight f)%nat ∧
      Dpll.find_unit_clause f' = None.
Proof.
  revert f h. induction fuel as [|n IH]; intros f h Hwf Hw.
  - cbn [Dpll.propagate].
    destruct (Dpll.find_unit_clause f) as [[s sg]|] eqn:Hu.
    + apply find_unit_loop_Some in Hu.
      pose proof (sum_list_with_in _ length _ Hu) as Hin.
      unfold weight in Hw. simpl in Hin. lia.
    + eexists _, _. split; [done|]. intros f' [= <-]. by split_and!.
  - cbn [Dpll.propagate].
    destruct (Dpll.find_unit_clause f) as [[s sg]|] eqn:Hu.
    2:{ eexists _, _. split; [done|]. intros f' [= <-]. by split_and!. }
    destruct (Dpll.conflicts _ _ _); [by eexists _, _|].
    destruct (Dpll.simplify f _) as [f1|] eqn:Hs; [|by eexists _, _].
    destruct (simplify_wf _ _ _ Hwf Hs) as [Hwf1 _].
    assert (weight f1 < weight f)%nat as Hlt.
    { eapply simplify_weight_lt; [done| |done].
      apply find_unit_loop_Some in Hu.
      apply elem_of_symbols_of. exists [(s, sg)]. split; [done|].
      apply elem_of_keys. exists sg. by left. }
    destruct (clauses f1) eqn:Hcl; [by eexists _, _|].
    destruct (IH f1 (setitem h a s sg) Hwf1) as (h' & e & Hp & He); [lia|].
    exists h', e. split; [done|].
    intros f' Hf'. destruct (He f' Hf') as (? & ? & ?). split_and!; [done|lia|done].
Qed.

Lemma solve_dpll_terminates fuel f asg h :
  wf_instance f → (weight f < fuel)%nat →
  ∃ h' r, Dpll.solve_dpll fuel (Some f) asg h = Some (h', Ok r).
Proof.
  revert f asg h. induction fuel as [|n IH]; intros f asg h Hwf Hw; [lia|].
  cbn [Dpll.solve_dpll].
  destruct (Dpll.enter h asg) as [h0 a].
  destruct (propagate_terminates n f h0 a Hwf) as (h1 & e & -> & He); [lia|].
  destruct e as [r|f1]; [by eexists _, _|].
  destruct (He f1 eq_refl) as (Hwf1 & Hw1 & Hu1).
  destruct (clauses f1) eqn:Hcl; [by eexists _, _|].
  destruct (Dpll.first_unassigned _ _) as [s|] eqn:Hfu; [|by eexists _, _].
  apply first_unassigned_Some in Hfu as [Hs _].
  assert (s ∈ symbols_of (clauses f1)) as Hs'.
  { destruct Hwf1 as [_ <-]. by apply elem_of_list_to_set. }
  destruct (copy h1 a) as [h2 at_].
  destruct (simplify_branch_Some f1 s 1 Hwf1 Hu1) as [ft Hft].
  destruct (simplify_branch_Some f1 s (-1) Hwf1 Hu1) as [ff Hff].
  rewrite Hft, Hff.
  destruct (simplify_wf _ _ _ Hwf1 Hft) as [Hwft _].
  destruct (simplify_wf _ _ _ Hwf1 Hff) as [Hwff _].
  pose proof (simplify_weight_lt _ _ _ _ Hwf1 Hs' Hft).
  pose proof (simplify_weight_lt _ _ _ _ Hwf1 Hs' Hff).
  destruct (IH ft (Some at_) (setitem h2 at_ s 1) Hwft) as (h3 & rt & ->);
    [lia|].
  destruct (Dpll.truthy h3 rt); [by eexists _, _|].
  destruct (copy h3 a) as [h4 af].
  destruct (IH ff (Some af) (setitem h4 af s (-1)) Hwff) as (h5 & rf & ->);
    [lia|].
  by eexists _, _.
Qed.

Lemma propagate_keeps_wf fuel f h a h' f' :
  Dpll.propagate fuel f h a = Some (h', Dpll.Falls_through f') →
  wf_instance f → wf_instance f' ∧ Dpll.find_unit_clause f' = None.
Proof.
  revert f h. induction fuel as [|n IH]; intros f h; cbn [Dpll.propagate];
    destruct (Dpll.find_unit_clause f) as [[s sg]|] eqn:Hu; try done;
    try (by intros [= <- <-]).
  destruct (Dpll.conflicts _ _ _); [done|].
  destruct (Dpll.simplify f _) as [f1|] eqn:Hs; [|done].
  destruct (clauses f1) eqn:Hcl; [done|].
  intros Hp Hwf. eapply IH; [exact Hp|].
  by destruct (simplify_wf _ _ _ Hwf Hs).
Qed.

Lemma solve_dpll_no_raise fuel f asg h h' res :
  Dpll.solve_dpll fuel (Some f) asg h = Some (h', res) →
  wf_instance f → ∃ r, res = Ok r.
Proof.
  revert f asg h h' res.
  induction fuel as [|n IH]; intros f asg h h' res; [done|].
  cbn [Dpll.solve_dpll].
  destruct (Dpll.enter h asg) as [h0 a].
  destruct (Dpll.propagate n f h0 a) as [[h1 [r|f1]]|] eqn:Hp; [| |done].
  { intros [= <- <-]. eauto. }
  intros Hres Hwf.
  destruct (propagate_keeps_wf _ _ _ _ _ _ Hp Hwf) as [Hwf1 Hu1].
  destruct (clauses f1) eqn:Hcl; [injection Hres as <- <-; eauto|].
  destruct (Dpll.first_unassigned _ _) as [s|];
    [|injection Hres as <- <-; eauto].
  destruct (copy h1 a) as [h2 at_].
  destruct (simplify_branch_Some f1 s 1 Hwf1 Hu1) as [ft Hft].
  destruct (simplify_branch_Some f1 s (-1) Hwf1 Hu1) as [ff Hff].
  rewrite Hft, Hff in Hres.
  destruct (simplify_wf _ _ _ Hwf1 Hft) as [Hwft _].
  destruct (simplify_wf _ _ _ Hwf1 Hff) as [Hwff _].
  destruct (Dpll.solve_dpll n (Some ft) _ _) as [[h3 rt]|] eqn:Ht; [|done].
  destruct (IH _ _ _ _ _ Ht Hwft) as [rt' ->].
  destruct (Dpll.truthy h3 rt'); [injection Hres as <- <-; eauto|].
  destruct (copy h3 a) as [h4 af].
  by eapply IH.
Qed.

(** C5. On a well-formed formula [solve_dpll] never raises: given fuel
    above the number of literal occurrences it returns ([None] or an
    assignment object), whatever assignment it is started with; no run
    ends in an exception; and the one way to an exception, a recursive
    call on the [None] of [simplify], is closed, since at the branching
    step (no unit clause left) [simplify] under one symbol never
    fails. *)
Theorem solve_dpll_never_raises (f : SatInstance) (asg : option nat) (h : heap) :
  wf_instance f →
  (∀ fuel, (weight f < fuel)%nat →
     ∃ h' r, Dpll.solve_dpll fuel (Some f) asg h = Some (h', Ok r)) ∧
  (∀ fuel h' e, Dpll.solve_dpll fuel (Some f) asg h ≠ Some (h', Raise e)) ∧
  (∀ f1 s v, wf_instance f1 → Dpll.find_unit_clause f1 = None →
     Dpll.simplify f1 {[s := v]} ≠ None).
Proof.
  intros Hwf. split_and!.
  - intros fuel Hfuel. by apply solve_dpll_terminates.
  - intros fuel h' e Hr.
    by destruct (solve_dpll_no_raise _ _ _ _ _ _ Hr Hwf) as [r ?].
  - intros f1 s v Hwf1 Hu1.
    destruct (simplify_branch_Some f1 s v Hwf1 Hu1) as [f' ->]. done.
Qed.

Ltac solve_wf :=
  split;
  [ repeat (apply Forall_cons; split;
            [split; [done|apply (bool_decide_unpack _); by vm_compute]|]);
    constructor
  | by vm_compute ].

Lemma solve_dpll_never_raises_witness :
  ∃ h' r, Dpll.solve_dpll 5 (Some scenario_1) None [] = Some (h', Ok r).
Proof.
  refine (proj1 (solve_dpll_never_raises scenario_1 None [] _) 5%nat _).
  - solve_wf.
  - vm_compute. lia.
Defined.

(** ** The assignment [solve_dpll] returns *)

Lemma clause_satisfied_spec c a :
  Dpll.clause_satisfied c a = true ↔ satisfied_by a c.
Proof.
  induction c as [|[s sg] c IH]; simpl.
  - split; [done|by intros ?%Exists_nil].
  - rewrite satisfied_by_cons. unfold agrees at 1. simpl.
    destruct (a !! s) as [v|] eqn:Hs.
    + destruct (decide (v = sg)) as [->|Hne]; [naive_solver|].
      rewrite IH. naive_solver.
    + rewrite IH. naive_solver.
Qed.

Lemma is_satisfied_spec f a :
  Dpll.is_satisfied f a = true ↔ ∀ c, c ∈ clauses f → satisfied_by a c.
Proof.
  unfold Dpll.is_satisfied. induction (clauses f) as [|c cs IH]; simpl.
  - split; [by intros _ c ?%elem_of_nil|done].
  - destruct (Dpll.clause_satisfied c a) eqn:Hc.
    + rewrite IH. apply clause_satisfied_spec in Hc. split.
      * intros H c' [->|?]%elem_of_cons; auto.
      * intros H c' Hc'. apply H. by right.
    + split; [done|]. intros H.
      assert (satisfied_by a c) as Hs by (apply H; by left).
      apply clause_satisfied_spec in Hs. congruence.
Qed.

Lemma covers_start f : wf_instance f → covers f f ∅.
Proof.
  intros Hwf. split_and!; [done| |done].
  intros c Hc. right. by exists c.
Qed.

Lemma covers_done orig f asg :
  covers orig f asg → clauses f = [] → Dpll.is_satisfied orig asg = true.
Proof.
  intros (_ & Hcov & _) Hnil. apply is_satisfied_spec. intros c Hc.
  destruct (Hcov c Hc) as [?|(c' & Hc' & _)]; [done|].
  rewrite Hnil in Hc'. by apply elem_of_nil in Hc'.
Qed.

Lemma satisfied_by_insert asg s v c :
  asg !! s = None → satisfied_by asg c → satisfied_by (<[s := v]> asg) c.
Proof.
  intros Hs. unfold satisfied_by. rewrite !Exists_exists.
  intros (item & Hin & Hag). exists item. split; [done|].
  unfold agrees in *. rewrite lookup_insert_ne; [done|]. congruence.
Qed.

Lemma covers_step orig f asg s v f' :
  covers orig f asg → asg !! s = None →
  Dpll.simplify f {[s := v]} = Some f' → covers orig f' (<[s := v]> asg).
Proof.
  intros (Hwf & Hcov & Hfree) Hs Hf'.
  destruct (simplify_wf _ _ _ Hwf Hf') as [Hwf' Hcl].
  split_and!; [done| |].
  - intros c Hc. destruct (Hcov c Hc) as [Hsat|(c' & Hc' & Hsub)].
    { left. by apply satisfied_by_insert. }
    destruct (decide (satisfied_by {[s := v]} c')) as [Hsat'|Hsat'].
    + left. apply satisfied_by_alt in Hsat' as (s' & sg & Hin & Hl).
      apply lookup_singleton_Some in Hl as [<- <-].
      apply satisfied_by_alt. exists s, v. split; [by apply Hsub|].
      by rewrite lookup_insert_eq.
    + right. exists (reduce {[s := v]} c'). split.
      * rewrite Hcl. apply list_elem_of_fmap. exists c'. split; [done|].
        by apply list_elem_of_filter.
      * intros item [Hin _]%elem_of_reduce. by apply Hsub.
  - intros s' Hs'. rewrite Hcl in Hs'.
    apply elem_of_symbols_of in Hs' as (c'' & Hc'' & Hk).
    apply list_elem_of_fmap in Hc'' as (c' & -> & Hc').
    apply list_elem_of_filter in Hc' as [_ Hc'].
    apply elem_of_keys in Hk as [sg Hk].
    apply elem_of_reduce in Hk as [Hin Hnone]. simpl in Hnone.
    apply lookup_singleton_None in Hnone.
    rewrite lookup_insert_ne by done. apply Hfree.
    apply elem_of_symbols_of. exists c'. split; [done|].
    apply elem_of_keys. by exists sg.
Qed.

Lemma covers_symbol_free orig f asg :
  covers orig f asg → clauses f ≠ [] →
  ∃ s, s ∈ symbols f ∧ asg !! s = None.
Proof.
  intros ([Hcs Hsy] & _ & Hfree) Hne.
  destruct (clauses f) as [|c cs] eqn:Hcl; [done|].
  apply Forall_cons in Hcs as [[Hc _] _].
  destruct c as [|[s sg] c]; [done|].
  assert (s ∈ symbols_of (clauses f)) as Hs.
  { apply elem_of_symbols_of. exists ((s, sg) :: c). rewrite Hcl.
    split; [by left|]. apply elem_of_keys. exists sg. by left. }
  rewrite Hcl in Hs. exists s. split; [|by apply Hfree].
  rewrite <- Hsy in Hs. by apply elem_of_list_to_set in Hs.
Qed.

Lemma propagate_sound fuel orig f h a h' e :
  Dpll.propagate fuel f h a = Some (h', e) →
  (a < length h)%nat → covers orig f (load h a) →
  match e with
  | Dpll.Returns (Some r) => Dpll.is_satisfied orig (load h' r) = true
  | Dpll.Returns None => True
  | Dpll.Falls_through f' =>
      covers orig f' (load h' a) ∧ Dpll.find_unit_clause f' = None
  end.
Proof.
  revert f h. induction fuel as [|n IH]; intros f h; cbn [Dpll.propagate];
    destruct (Dpll.find_unit_clause f) as [[s sg]|] eqn:Hu; try done;
    try (by intros [= <- <-]).
  destruct (Dpll.conflicts _ _ _); [by intros [= <- <-]|].
  destruct (Dpll.simplify f _) as [f1|] eqn:Hs; [|by intros [= <- <-]].
  intros Hp Ha Hcov.
  assert (load h a !! s = None) as Hfree.
  { destruct Hcov as (_ & _ & Hfree). apply Hfree.
    apply find_unit_loop_Some in Hu.
    apply elem_of_symbols_of. exists [(s, sg)]. split; [done|].
    apply elem_of_keys. exists sg. by left. }
  pose proof (covers_step _ _ _ _ _ _ Hcov Hfree Hs) as Hcov1.
  rewrite <- (load_setitem_eq h a s sg Ha) in Hcov1.
  destruct (clauses f1) eqn:Hcl.
  - injection Hp as <- <-. by eapply covers_done.
  - eapply IH; [exact Hp| |done]. by rewrite length_setitem.
Qed.

Lemma solve_dpll_sound fuel orig f asg h h' r :
  Dpll.solve_dpll fuel (Some f) asg h = Some (h', Ok (Some r)) →
  (∀ a, asg = Some a → (a < length h)%nat) →
  covers orig f (load (Dpll.enter h asg).1 (Dpll.enter h asg).2) →
  Dpll.is_satisfied orig (load h' r) = true.
Proof.
  revert f asg h h' r.
  induction fuel as [|n IH]; intros f asg h h' r; [done|].
  cbn [Dpll.solve_dpll].
  destruct (Dpll.enter h asg) as [h0 a] eqn:He. simpl.
  intros Hres Hasg Hcov.
  assert (a < length h0)%nat as Ha.
  { apply enter_spec in He as (_ & _ & [[-> ->]|(_ & -> & ->)]); [auto|].
    rewrite length_app. simpl. lia. }
  destruct (Dpll.propagate n f h0 a) as [[h1 e]|] eqn:Hp; [|done].
  pose proof (propagate_sound _ _ _ _ _ _ _ Hp Ha Hcov) as Hsound.
  apply propagate_frame in Hp as (Hlen1 & _ & _ & _).
  destruct e as [r0|f1].
  { injection Hres as <- ->. done. }
  destruct Hsound as [Hcov1 Hu1].
  destruct (clauses f1) eqn:Hcl.
  { injection Hres as <- <-. by eapply covers_done. }
  destruct (Dpll.first_unassigned _ _) as [s|] eqn:Hfu.
  2:{ exfalso. destruct (covers_symbol_free _ _ _ Hcov1) as (s & Hs & Hn).
      - by rewrite Hcl.
      - by apply (first_unassigned_None _ _ s Hfu). }
  apply first_unassigned_Some in Hfu as [_ Hfree].
  destruct (copy h1 a) as [h2 at_] eqn:Hcp.
  assert (at_ = length h1 ∧ h2 = h1 ++ [load h1 a]) as [-> ->].
  { unfold copy in Hcp. by injection Hcp as <- <-. }
  destruct Hcov1 as (Hwf1 & Hcov1).
  destruct (simplify_branch_Some f1 s 1 Hwf1 Hu1) as [ft Hft].
  destruct (simplify_branch_Some f1 s (-1) Hwf1 Hu1) as [ff Hff].
  rewrite Hft, Hff in Hres.
  assert (∀ (hh : heap) v,
    load (setitem (hh ++ [load h1 a]) (length hh) s v) (length hh) =
    <[s := v]> (load h1 a)) as Hnew.
  { intros hh v. rewrite load_setitem_eq by (rewrite length_app; simpl; lia).
    f_equal. unfold load at 1. by rewrite lookup_app_r, Nat.sub_diag. }
  destruct (Dpll.solve_dpll n (Some ft) _ _) as [[h3 rt]|] eqn:Ht; [|done].
  destruct rt as [rt|]; [|done].
  destruct (Dpll.truthy h3 rt) eqn:Htr.
  { injection Hres as <- ->.
    eapply (IH _ _ _ _ _ Ht).
    - intros a' [= <-]. rewrite length_setitem, length_app. simpl. lia.
    - simpl. rewrite Hnew. by eapply covers_step. }
  apply solve_dpll_frame in Ht as (Hlen3 & Hold3 & _ & _).
  rewrite length_setitem, length_app in Hlen3, Hold3. simpl in Hlen3, Hold3.
  assert (load h3 a = load h1 a) as Ha3.
  { unfold load. rewrite Hold3; [|lia|intros [= Hx]; lia].
    rewrite lookup_setitem_ne by lia. by rewrite lookup_app_l by lia. }
  destruct (copy h3 a) as [h4 af] eqn:Hcp'.
  assert (af = length h3 ∧ h4 = h3 ++ [load h3 a]) as [-> ->].
  { unfold copy in Hcp'. by injection Hcp' as <- <-. }
  eapply (IH _ _ _ _ _ Hres).
  - intros a' [= <-]. rewrite length_setitem, length_app. simpl. lia.
  - simpl. rewrite Ha3, Hnew. by eapply covers_step.
Qed.

(** C4 (as amended). On a well-formed formula (every clause a non-empty
    dict, [symbols] listing the symbols of the clauses, as the readers
    and [simplify] build them), whenever [solve_dpll], started with the
    default empty assignment, returns an assignment, [is_satisfied] of
    the original formula and that assignment is true. *)
Theorem dpll_assignment_satisfies (f : SatInstance) (fuel : nat)
    (h h' : heap) (r : nat) :
  wf_instance f →
  Dpll.solve_dpll fuel (Some f) None h = Some (h', Ok (Some r)) →
  Dpll.is_satisfied f (load h' r) = true.
Proof.
  intros Hwf Hres. eapply solve_dpll_sound; [exact Hres|done|].
  change (Dpll.enter h None) with (fresh h).
  rewrite (load_fresh h). by apply covers_start.
Qed.

Lemma dpll_assignment_satisfies_witness :
  Dpll.is_satisfied scenario_1
    (load [∅; <[Sym 1 := 1]> (<[Sym 2 := -1]> ∅)] 1) = true.
Proof.
  refine (dpll_assignment_satisfies scenario_1 5 [] _ 1 _ _).
  - solve_wf.
  - vm_compute. reflexivity.
Defined.

(** C4, as stated for every formula, fails on the formula whose only
    clause is the empty clause: [solve_dpll] returns the (empty)
    assignment, which does not satisfy the formula. *)
Lemma empty_clause_assignment_unsatisfied :
  Dpll.solve_dpll 5 (Some only_empty_clause) None [] =
    Some ([∅], Ok (Some 0%nat)) ∧
  Dpll.is_satisfied only_empty_clause (load [∅] 0) = false.
Proof. split; vm_compute; reflexivity. Qed.




(** ** [dp] and tautological resolvents *)

Lemma foldr_min_in (l : list Z) (d : Z) :
  foldr Z.min d l = d ∨ foldr Z.min d l ∈ l.
Proof.
  induction l as [|x l IH]; simpl; [by left|].
  destruct (Z.min_spec x (foldr Z.min d l)) as [[_ ->]|[_ ->]].
  - right. by left.
  - destruct IH as [?|?]; [by left|right; by right].
Qed.

Lemma pick_min_chooses : chooses Dp.pick_min.
Proof.
  intros X HX. unfold Dp.pick_min.
  destruct (elements X) as [|x l] eqn:E.
  { by apply elements_empty_inv, leibniz_equiv in E. }
  simpl head. simpl default. apply elem_of_elements. rewrite E.
  destruct (foldr_min_in (x :: l) x) as [->|?]; [by left|done].
Qed.

Section dp_facts.
Variable pick : gset Z → Z.
Hypothesis pick_ok : chooses pick.

Lemma pick_singleton (X : gset Z) (v : Z) : X = {[ v ]} → pick X = v.
Proof.
  intros ->.
  assert (pick {[ v ]} ∈ ({[ v ]} : gset Z)) as Hin
    by apply pick_ok, non_empty_singleton_L.
  set_solver.
Qed.

(** A clause list holding only a tautology [{v, -v}] is what [dp]
    recurses on when given it: the variable is not eliminated. *)
Lemma dp_two_loops fuel : Dp.dp pick fuel [{[ 2; -2 ]}] = None.
Proof.
  induction fuel as [|n IH]; [done|]. cbn [Dp.dp].
  destruct (decide (∅ ∈ _)) as [H|_]; [exfalso; revert H; compute_done|].
  destruct (decide (_ = [])) as [H|_]; [done|].
  destruct (decide (_ = ∅)) as [H|_]; [exfalso; revert H; compute_done|].
  rewrite (pick_singleton _ 2) by compute_done.
  replace (Dp.eliminate 2 [{[ 2; -2 ]}]) with
    (inr [{[ 2; -2 ]}] : bool + list (gset Z)) by (by vm_compute).
  exact IH.
Qed.

Lemma dp_one_loops fuel : Dp.dp pick fuel [{[ 1; -1 ]}] = None.
Proof.
  induction fuel as [|n IH]; [done|]. cbn [Dp.dp].
  destruct (decide (∅ ∈ _)) as [H|_]; [exfalso; revert H; compute_done|].
  destruct (decide (_ = [])) as [H|_]; [done|].
  destruct (decide (_ = ∅)) as [H|_]; [exfalso; revert H; compute_done|].
  rewrite (pick_singleton _ 1) by compute_done.
  replace (Dp.eliminate 1 [{[ 1; -1 ]}]) with
    (inr [{[ 1; -1 ]}] : bool + list (gset Z)) by (by vm_compute).
  exact IH.
Qed.

Lemma dp_scenario_1_loops fuel : Dp.dp pick fuel scenario_1_flat = None.
Proof.
  destruct fuel as [|n]; [done|]. cbn [Dp.dp].
  destruct (decide (∅ ∈ _)) as [H|_]; [exfalso; revert H; compute_done|].
  destruct (decide (_ = [])) as [H|_]; [done|].
  destruct (decide (_ = ∅)) as [H|_]; [exfalso; revert H; compute_done|].
  assert (Dp.variables_of scenario_1_flat = {[ 1; 2 ]}) as -> by compute_done.
  assert (pick {[ 1; 2 ]} = 1 ∨ pick {[ 1; 2 ]} = 2) as [-> | ->].
  { assert (pick {[ 1; 2 ]} ∈ ({[ 1; 2 ]} : gset Z)) as Hin.
    { apply pick_ok. set_solver. }
    set_solver. }
  - replace (Dp.eliminate 1 scenario_1_flat) with
      (inr [{[ 2; -2 ]}] : bool + list (gset Z)) by (by vm_compute).
    apply dp_two_loops.
  - replace (Dp.eliminate 2 scenario_1_flat) with
      (inr [{[ 1; -1 ]}] : bool + list (gset Z)) by (by vm_compute).
    apply dp_one_loops.
Qed.

Lemma dp_empty_clause fuel cs : ∅ ∈ cs → Dp.dp pick (S fuel) cs = Some false.
Proof. intros H. cbn [Dp.dp]. by rewrite decide_True. Qed.

End dp_facts.

(** With the choice CPython makes on small sets, [dp] also misses a
    contradiction that is one resolution step away. *)
Lemma dp_misses_unit_conflict fuel :
  complementary_units_flat [{[ 1; 2 ]}; {[ -1; -2 ]}; {[ 3 ]}; {[ -3 ]}] ∧
  Dp.dp Dp.pick_min fuel [{[ 1; 2 ]}; {[ -1; -2 ]}; {[ 3 ]}; {[ -3 ]}] = None.
Proof.
  split.
  { exists 3. split_and!; [done| |]; set_solver. }
  destruct fuel as [|n]; [done|].
  replace (Dp.dp Dp.pick_min (S n) [{[ 1; 2 ]}; {[ -1; -2 ]}; {[ 3 ]}; {[ -3 ]}])
    with (Dp.dp Dp.pick_min n [{[ 3 ]}; {[ -3 ]}; {[ 2; -2 ]}]).
  2:{ cbn [Dp.dp].
      destruct (decide (∅ ∈ _)) as [H|_]; [exfalso; revert H; compute_done|].
      destruct (decide (_ = [])) as [H|_]; [done|].
      destruct (decide (_ = ∅)) as [H|_]; [exfalso; revert H; compute_done|].
      by replace (Dp.eliminate _ _) with
        (inr [{[ 3 ]}; {[ -3 ]}; {[ 2; -2 ]}] : bool + list (gset Z))
        by (by vm_compute). }
  induction n as [|n IH]; [done|]. cbn [Dp.dp].
  destruct (decide (∅ ∈ _)) as [H|_]; [exfalso; revert H; compute_done|].
  destruct (decide (_ = [])) as [H|_]; [done|].
  destruct (decide (_ = ∅)) as [H|_]; [exfalso; revert H; compute_done|].
  replace (Dp.eliminate _ _) with
    (inr [{[ 3 ]}; {[ -3 ]}; {[ 2; -2 ]}] : bool + list (gset Z))
    by (by vm_compute).
  exact IH.
Qed.

(** ** Resolution on two complementary unit clauses *)

Lemma resolve_units l : Resolution.resolve {[ l ]} {[ - l ]} = Some ∅.
Proof.
  unfold Resolution.resolve. rewrite elements_singleton. simpl.
  rewrite decide_True by set_solver. f_equal. set_solver.
Qed.

Lemma pass_inner_unsat c1 c2 later known new_clauses :
  c2 ∈ later → Resolution.resolve c1 c2 = Some ∅ →
  Resolution.pass_inner c1 later known new_clauses = None.
Proof.
  intros Hin Hres. revert new_clauses.
  induction later as [|c later IH]; intros new_clauses;
    [by apply elem_of_nil in Hin|].
  cbn [Resolution.pass_inner].
  apply elem_of_cons in Hin as [<-|Hin].
  - rewrite Hres. by rewrite decide_True.
  - destruct (Resolution.resolve c1 c) as [r|]; [|by apply IH].
    destruct (decide (r = ∅)); [done|].
    destruct (decide (r ∉ known)); by apply IH.
Qed.

Lemma pass_outer_unsat c1 c2 known_list known new_clauses :
  c1 ∈ known_list → c2 ∈ known_list → c1 ≠ c2 →
  Resolution.resolve c1 c2 = Some ∅ → Resolution.resolve c2 c1 = Some ∅ →
  Resolution.pass_outer known_list known new_clauses = None.
Proof.
  intros H1 H2 Hne H12 H21. revert new_clauses.
  induction known_list as [|c later IH]; intros new_clauses;
    [by apply elem_of_nil in H1|].
  cbn [Resolution.pass_outer].
  apply elem_of_cons in H1 as [<-|H1]; apply elem_of_cons in H2 as [<-|H2];
    try done.
  - by rewrite (pass_inner_unsat c1 c2).
  - by rewrite (pass_inner_unsat c2 c1).
  - destruct (Resolution.pass_inner _ _ _ _); [by apply IH|done].
Qed.

Lemma resolution_units fuel cs :
  complementary_units_flat cs →
  Resolution.resolution (S fuel) cs = Some "Unsatisfiable".
Proof.
  intros (l & Hl & H1 & H2). unfold Resolution.resolution.
  cbn [Resolution.saturate].
  rewrite (pass_outer_unsat {[ l ]} {[ - l ]}); [done|..].
  - by apply elem_of_elements, elem_of_list_to_set.
  - by apply elem_of_elements, elem_of_list_to_set.
  - intros Heq. assert (l ∈ ({[ - l ]} : gset Z)) as Hin by (rewrite <- Heq; set_solver).
    apply elem_of_singleton in Hin. lia.
  - apply resolve_units.
  - rewrite <- (Z.opp_involutive l) at 2. apply resolve_units.
Qed.

(** ** [solve_dpll] on two complementary unit clauses *)

Lemma simplify_loop_fails c cs a acc :
  c ∈ cs → Dpll.simplify_clause c a [] = Some [] →
  Dpll.simplify_loop cs a acc = None.
Proof.
  intros Hin Hc. revert acc.
  induction cs as [|c0 cs IH]; intros acc; [by apply elem_of_nil in Hin|].
  cbn [Dpll.simplify_loop].
  apply elem_of_cons in Hin as [<-|Hin]; [by rewrite Hc|].
  destruct (Dpll.simplify_clause c0 a []) as [[|i r]|]; [done|by apply IH..].
Qed.

Lemma simplify_loop_keeps c c' cs a acc r :
  Dpll.simplify_loop cs a acc = Some r →
  (c' ∈ acc ∨ c ∈ cs ∧ Dpll.simplify_clause c a [] = Some c') → c' ∈ r.
Proof.
  revert acc. induction cs as [|c0 cs IH]; intros acc; cbn [Dpll.simplify_loop].
  - intros [= <-] [?|[?%elem_of_nil _]]; done.
  - destruct (Dpll.simplify_clause c0 a []) as [[|i r0]|] eqn:E0; [done|..].
    + intros Hr [Hacc|[[->|Hin]%elem_of_cons Hc]]; apply (IH _ Hr).
      * left. apply elem_of_app. by left.
      * left. apply elem_of_app. right. rewrite E0 in Hc. injection Hc as <-.
        by left.
      * by right.
    + intros Hr [Hacc|[[->|Hin]%elem_of_cons Hc]]; [| congruence |];
        apply (IH _ Hr); [by left|by right].
Qed.

Lemma simplify_loop_length cs a acc r :
  Dpll.simplify_loop cs a acc = Some r →
  (length r ≤ length acc + length cs)%nat ∧
  (∀ c, c ∈ cs → Dpll.simplify_clause c a [] = None →
        (length r < length acc + length cs)%nat).
Proof.
  revert acc. induction cs as [|c0 cs IH]; intros acc; cbn [Dpll.simplify_loop].
  - intros [= <-]. split; [simpl; lia|]. by intros c ?%elem_of_nil.
  - destruct (Dpll.simplify_clause c0 a []) as [[|i r0]|] eqn:E0; [done|..];
      intros Hr; destruct (IH _ Hr) as [Hle Hlt];
      rewrite ?length_app in *; simpl in *.
    + split; [lia|]. intros c [->|Hin]%elem_of_cons Hc; [congruence|].
      specialize (Hlt c Hin Hc). lia.
    + split; [lia|]. intros c _ _. lia.
Qed.

Lemma propagate_units fuel f h a :
  complementary_units f → (length (clauses f) ≤ fuel)%nat →
  ∃ h', Dpll.propagate fuel f h a = Some (h', Dpll.Returns None).
Proof.
  revert f h. induction fuel as [|n IH]; intros f h Hcu Hlen.
  { destruct Hcu as (s & H1 & _). destruct (clauses f); [|simpl in Hlen; lia].
    by apply elem_of_nil in H1. }
  pose proof Hcu as (s & H1 & H2).
  cbn [Dpll.propagate].
  destruct (Dpll.find_unit_clause f) as [[s' sg']|] eqn:Hu.
  2:{ exfalso. by apply (find_unit_loop_None _ _ Hu H1). }
  apply find_unit_loop_Some in Hu.
  destruct (Dpll.conflicts _ _ _); [by eexists|].
  destruct (Dpll.simplify f _) as [f1|] eqn:Hs; [|by eexists].
  unfold Dpll.simplify in Hs.
  destruct (Dpll.simplify_loop _ _ _) as [r|] eqn:Hloop; [|done].
  simpl in Hs. injection Hs as <-. cbn [clauses].
  destruct (decide (s' = s)) as [->|Hne].
  { exfalso. destruct (decide (sg' = 1)) as [->|Hsg].
    - rewrite (simplify_loop_fails _ _ _ _ H2) in Hloop; [done|].
      simpl. rewrite lookup_singleton_eq. by rewrite decide_False.
    - rewrite (simplify_loop_fails _ _ _ _ H1) in Hloop; [done|].
      simpl. rewrite lookup_singleton_eq. by rewrite decide_False. }
  assert (∀ v, [(s, v)] ∈ clauses f → [(s, v)] ∈ r) as Hkeep.
  { intros v Hv. apply (simplify_loop_keeps [(s, v)] _ _ _ _ _ Hloop).
    right. split; [done|]. simpl. by rewrite lookup_singleton_ne. }
  destruct (simplify_loop_length _ _ _ _ Hloop) as [_ Hlt].
  specialize (Hlt _ Hu). simpl in Hlt.
  rewrite lookup_singleton_eq, decide_True in Hlt by done.
  specialize (Hlt eq_refl).
  destruct r as [|c0 r0] eqn:Hr.
  { specialize (Hkeep 1 H1). by apply elem_of_nil in Hkeep. }
  rewrite <- Hr in *. 
  destruct (IH (mkSatInstance (sorted_symbols (⋃ (keys <$> r))) r)
              (setitem h a s' sg')) as [h' Hh'].
  - exists s. split; simpl; by apply Hkeep.
  - simpl. lia.
  - exists h'. rewrite <- Hh'. by rewrite Hr.
Qed.

Lemma solve_dpll_units fuel f asg h :
  complementary_units f → (length (clauses f) < fuel)%nat →
  ∃ h', Dpll.solve_dpll fuel (Some f) asg h = Some (h', Ok None).
Proof.
  intros Hcu Hlen. destruct fuel as [|n]; [lia|].
  cbn [Dpll.solve_dpll]. destruct (Dpll.enter h asg) as [h0 a].
  destruct (propagate_units n f h0 a Hcu) as [h' ->]; [lia|].
  by eexists.
Qed.

(** ** The three solvers on the scenarios *)

(** C3. [dp] does not terminate on the clause list of scenario 1 of the
    specification, whatever element [next(iter(variables))] yields:
    eliminating either variable leaves the tautological resolvent
    [{2, -2}] (or [{1, -1}]), whose variable the next call chooses
    again and does not eliminate, so the call recurses on its own
    argument and the variable set never shrinks. *)
Theorem dp_never_returns_on_scenario_1 (pick : gset Z → Z) :
  chooses pick →
  Dp.dimacs_file scenario_1_text = Ok scenario_1 ∧
  Dp.convert_to_clause_list scenario_1 = Ok scenario_1_flat ∧
  (∀ fuel, Dp.dp pick fuel scenario_1_flat = None) ∧
  Dp.eliminate 1 scenario_1_flat = inr [{[ 2; -2 ]}] ∧
  Dp.eliminate 2 scenario_1_flat = inr [{[ 1; -1 ]}] ∧
  Dp.variables_of [{[ 2; -2 ]}] = {[ 2 ]} ∧
  Dp.eliminate 2 [{[ 2; -2 ]}] = inr [{[ 2; -2 ]}] ∧
  Dp.variables_of [{[ 1; -1 ]}] = {[ 1 ]} ∧
  Dp.eliminate 1 [{[ 1; -1 ]}] = inr [{[ 1; -1 ]}].
Proof.
  intros Hpick.
  split; [by vm_compute|]. split; [by vm_compute|].
  split; [intros fuel; by apply dp_scenario_1_loops|].
  split_and!; by vm_compute.
Qed.

Lemma dp_never_returns_on_scenario_1_witness :
  Dp.dp Dp.pick_min 100 scenario_1_flat = None.
Proof.
  refine (proj1 (proj2 (proj2
    (dp_never_returns_on_scenario_1 Dp.pick_min pick_min_chooses))) 100%nat).
Defined.

(** C1. On scenario 1 of the specification the solvers do not agree:
    [resolution] answers [Satisfiable] and [solve_dpll] returns an
    assignment that satisfies the formula, while [dp], on the clause list
    converted from the same formula, never returns a verdict. *)
Theorem solvers_part_on_scenario_1 (pick : gset Z → Z) :
  chooses pick →
  Dpll.from_dimacs_file scenario_1_text = Ok scenario_1 ∧
  Dp.convert_to_clause_list scenario_1 = Ok scenario_1_flat ∧
  (∀ fuel, Dp.dp pick fuel scenario_1_flat = None) ∧
  Resolution.resolution 5 scenario_1_flat = Some "Satisfiable" ∧
  Dpll.solve_dpll 5 (Some scenario_1) None [] =
    Some ([∅; <[Sym 1 := 1]> (<[Sym 2 := -1]> ∅)], Ok (Some 1%nat)) ∧
  Dpll.is_satisfied scenario_1 (<[Sym 1 := 1]> (<[Sym 2 := -1]> ∅)) = true.
Proof.
  intros Hpick.
  split; [by vm_compute|]. split; [by vm_compute|].
  split; [intros fuel; by apply dp_scenario_1_loops|].
  split_and!; by vm_compute.
Qed.

Lemma solvers_part_on_scenario_1_witness :
  Dp.dp Dp.pick_min 100 scenario_1_flat = None ∧
  Resolution.resolution 5 scenario_1_flat = Some "Satisfiable".
Proof.
  destruct (solvers_part_on_scenario_1 Dp.pick_min pick_min_chooses)
    as (_ & _ & Hdp & Hres & _).
  split; [exact (Hdp 100%nat)|exact Hres].
Defined.

(** C2 (as amended). [dp] answers unsatisfiable on every clause list
    that holds the empty clause; [resolution] and [solve_dpll] answer
    unsatisfiable on every formula that holds two complementary unit
    clauses, from which the empty clause is one resolution step away. *)
Theorem contradiction_law (pick : gset Z → Z) (cs : list (gset Z))
    (f : SatInstance) :
  (∅ ∈ cs → ∀ fuel, Dp.dp pick (S fuel) cs = Some false) ∧
  (complementary_units_flat cs →
     ∀ fuel, Resolution.resolution (S fuel) cs = Some "Unsatisfiable") ∧
  (complementary_units f →
     ∀ fuel asg h, (length (clauses f) < fuel)%nat →
       ∃ h', Dpll.solve_dpll fuel (Some f) asg h = Some (h', Ok None)).
Proof.
  split_and!.
  - intros H fuel. by apply dp_empty_clause.
  - intros H fuel. by apply resolution_units.
  - intros H fuel asg h Hlen. by apply solve_dpll_units.
Qed.

Lemma contradiction_law_witness :
  Dp.dp Dp.pick_min 1 [∅] = Some false ∧
  Resolution.resolution 1 [{[ 1 ]}; {[ -1 ]}] = Some "Unsatisfiable" ∧
  ∃ h', Dpll.solve_dpll 3 (Some scenario_2) None [] = Some (h', Ok None).
Proof.
  destruct (contradiction_law Dp.pick_min [∅] scenario_2) as (Hdp & _ & Hdpll).
  destruct (contradiction_law Dp.pick_min [{[ 1 ]}; {[ -1 ]}] scenario_2)
    as (_ & Hres & _).
  split_and!.
  - apply Hdp. by left.
  - apply Hres. exists 1. split_and!; [done|by left|]. right. by left.
  - apply Hdpll; [|simpl; lia].
    exists (Sym 1). split; [by left|]. right. by left.
Defined.

(** C2, as stated, fails: on the formula whose only clause is the empty
    clause, [resolution] answers [Satisfiable] and [solve_dpll] returns
    an assignment. *)
Lemma empty_clause_not_refuted :
  Dp.convert_to_clause_list only_empty_clause = Ok [∅] ∧
  Resolution.resolution 5 [∅] = Some "Satisfiable" ∧
  Dpll.solve_dpll 5 (Some only_empty_clause) None [] =
    Some ([∅], Ok (Some 0%nat)).
Proof. split_and!; by vm_compute. Qed.

(** * Further properties of the code *)

Import Meaning.

(** ** [find_unit_clause] and [is_satisfied] *)

Lemma find_unit_loop_split cs item :
  Dpll.find_unit_loop cs = Some item ↔
  ∃ before after, cs = before ++ [item] :: after ∧
                  ∀ c, c ∈ before → length c ≠ 1%nat.
Proof.
  split.
  - induction cs as [|c cs IH]; simpl; [done|].
    destruct c as [|i [|j c]].
    + intros (b & a & -> & Hb)%IH. exists ([] :: b), a. split; [done|].
      intros c [->|?]%elem_of_cons; [done|auto].
    + intros [= ->]. exists [], cs. split; [done|]. by intros c ?%elem_of_nil.
    + intros (b & a & -> & Hb)%IH. exists ((i :: j :: c) :: b), a.
      split; [done|]. intros c' [->|?]%elem_of_cons; [done|auto].
  - intros (b & a & -> & Hb). induction b as [|c b IH]; simpl; [done|].
    assert (length c ≠ 1%nat) as Hc by (apply Hb; by left).
    destruct c as [|i [|j c]]; [|done|]; apply IH; intros c' ?; apply Hb;
      by right.
Qed.

(** X1. [find_unit_clause] returns the literal of the first clause, in
    the order of [clauses], that has exactly one symbol, and [None]
    exactly when no clause has exactly one symbol. *)
Theorem find_unit_clause_first (f : SatInstance) :
  (∀ item, Dpll.find_unit_clause f = Some item ↔
     ∃ before after, clauses f = before ++ [item] :: after ∧
                     ∀ c, c ∈ before → length c ≠ 1%nat) ∧
  (Dpll.find_unit_clause f = None ↔ ∀ c, c ∈ clauses f → length c ≠ 1%nat).
Proof.
  split; [intros item; apply find_unit_loop_split|].
  unfold Dpll.find_unit_clause. split.
  - intros Hn c Hc. by eapply find_unit_loop_None.
  - intros Hall. destruct (Dpll.find_unit_loop (clauses f)) as [item|] eqn:E;
      [|done].
    apply find_unit_loop_Some in E. by destruct (Hall _ E).
Qed.

Lemma dp_is_satisfied_eq : Dp.is_satisfied = Dpll.is_satisfied.
Proof. reflexivity. Qed.

(** X2. [is_satisfied] is true exactly when every clause has a literal
    whose symbol is assigned the recorded sign: so a formula without
    clauses is satisfied by every assignment, a formula holding an empty
    clause by none, and the empty assignment satisfies a formula only if
    it has no clause. The method of [dp.py] is the same function. *)
Theorem is_satisfied_meaning (f : SatInstance) (a : assignment) :
  (Dpll.is_satisfied f a = true ↔
     ∀ c, c ∈ clauses f → ∃ s sg, (s, sg) ∈ c ∧ a !! s = Some sg) ∧
  (clauses f = [] → Dpll.is_satisfied f a = true) ∧
  ([] ∈ clauses f → Dpll.is_satisfied f a = false) ∧
  (Dpll.is_satisfied f ∅ = true ↔ clauses f = []) ∧
  Dp.is_satisfied f a = Dpll.is_satisfied f a.
Proof.
  assert (∀ b, Dpll.is_satisfied f b = true ↔
     ∀ c, c ∈ clauses f → ∃ s sg, (s, sg) ∈ c ∧ b !! s = Some sg) as Hchar.
  { intros b. rewrite is_satisfied_spec. by setoid_rewrite satisfied_by_alt. }
  split_and!; [apply Hchar| | | |done].
  - intros Hnil. apply Hchar. rewrite Hnil. by intros c ?%elem_of_nil.
  - intros Hin. apply not_true_is_false. intros Hs.
    destruct (proj1 (Hchar a) Hs [] Hin) as (s & sg & Hx & _).
    by apply elem_of_nil in Hx.
  - split.
    + intros Hs. destruct (clauses f) as [|c cs] eqn:E; [done|].
      destruct (proj1 (Hchar ∅) Hs c) as (s & sg & _ & Hl).
      * by left.
      * by rewrite lookup_empty in Hl.
    + intros Hnil. apply Hchar. rewrite Hnil. by intros c ?%elem_of_nil.
Qed.

(** X3. [is_satisfied] is monotone in the assignment: an assignment that
    extends a satisfying one is satisfying. *)
Theorem is_satisfied_extends (f : SatInstance) (a a' : assignment) :
  a ⊆ a' → Dpll.is_satisfied f a = true → Dpll.is_satisfied f a' = true.
Proof.
  intros Hsub. rewrite !is_satisfied_spec. intros H c Hc.
  apply satisfied_by_alt. destruct (proj1 (satisfied_by_alt _ _) (H c Hc))
    as (s & sg & Hin & Hl).
  exists s, sg. split; [done|]. by eapply lookup_weaken.
Qed.

Lemma is_satisfied_extends_witness :
  Dpll.is_satisfied one_unit (<[Sym 2 := -1]> {[Sym 1 := 1]}) = true.
Proof.
  refine (is_satisfied_extends one_unit {[Sym 1 := 1]}
            (<[Sym 2 := -1]> {[Sym 1 := 1]}) _ _).
  - apply insert_subseteq. by vm_compute.
  - vm_compute. reflexivity.
Defined.

(** ** The clause builder and the symbol list of a formula *)

Lemma elem_of_dict_set_iff d k v s sg :
  NoDup d.*1 →
  (s, sg) ∈ dict_set d k v ↔ (s = k ∧ sg = v) ∨ (s ≠ k ∧ (s, sg) ∈ d).
Proof.
  induction d as [|[k' v'] d IH]; cbn [dict_set].
  - intros _. rewrite list_elem_of_singleton. split.
    + intros [= -> ->]. by left.
    + intros [[-> ->]|[_ ?%elem_of_nil]]; done.
  - rewrite fmap_cons. intros [Hk' Hd]%NoDup_cons. simpl in Hk'.
    destruct (decide (k = k')) as [<-|Hne].
    + rewrite !elem_of_cons. split.
      * intros [[= -> ->]|Hin]; [by left|]. right. split; [|by right].
        intros ->. apply Hk'. apply list_elem_of_fmap. by exists (k, sg).
      * intros [[-> ->]|[Hs [[= -> _]|Hin]]]; [by left|done|by right].
    + rewrite !elem_of_cons, (IH Hd). split.
      * intros [[= -> ->]|[[-> ->]|[Hs Hin]]].
        -- right. split; [congruence|by left].
        -- by left.
        -- right. split; [done|by right].
      * intros [[-> ->]|[Hs [[= -> ->]|Hin]]];
          [right; by left|by left|right; right; by split].
Qed.

Lemma from_dimacs_loop_last literals vm acc c s sg :
  Dpll.from_dimacs_loop literals vm acc = Ok c → NoDup acc.*1 →
  (s, sg) ∈ c ↔
    (∃ before l after, literals = before ++ l :: after ∧
       vm !! Z.abs l = Some s ∧ sg = (if decide (l > 0) then 1 else -1) ∧
       ∀ l', l' ∈ after → vm !! Z.abs l' ≠ Some s) ∨
    ((s, sg) ∈ acc ∧ ∀ l', l' ∈ literals → vm !! Z.abs l' ≠ Some s).
Proof.
  revert acc. induction literals as [|l ls IH]; intros acc;
    cbn [Dpll.from_dimacs_loop].
  - intros [= <-] _. split.
    + intros Hin. right. split; [done|]. by intros l' ?%elem_of_nil.
    + intros [(b & l & a & Heq & _)|[? _]]; [by destruct b|done].
  - destruct (vm !! Z.abs l) as [k|] eqn:Hk; [|done].
    intros Hc Hnd.
    rewrite (IH _ Hc (dict_set_NoDup _ _ _ Hnd)).
    rewrite (elem_of_dict_set_iff _ _ _ _ _ Hnd). split.
    + intros [(b & l0 & a & -> & H1 & H2 & H3)|[[[-> ->]|[Hne Hin]] Hnone]].
      * left. by exists (l :: b), l0, a.
      * left. by exists [], l, ls.
      * right. split; [done|]. intros l' [->|?]%elem_of_cons; [congruence|auto].
    + intros [(b & l0 & a & Heq & H1 & H2 & H3)|[Hin Hnone]].
      * destruct b as [|x b]; simpl in Heq; injection Heq as -> ->.
        -- right. split; [|done]. left. split; congruence.
        -- left. by exists b, l0, a.
      * right. split.
        -- right. split; [|done]. intros ->. apply (Hnone l); [by left|done].
        -- intros l' Hl'. apply Hnone. by right.
Qed.

(** X4. A clause built from a list of literals has one entry per symbol,
    and the sign it records for a symbol is that of the last literal of
    the list on this symbol: a later occurrence silently overwrites an
    earlier one, so [k -k] gives the unit clause "not x_k". The same holds
    for the builder of [dp.py]. *)
Theorem from_dimacs_last_wins (literals : list Z) (vm : gmap Z symbol)
    (c : Clause) :
  Dpll.from_dimacs literals vm = Ok c →
  Dp.dimacs literals vm = Ok c ∧
  NoDup c.*1 ∧
  ∀ s sg, (s, sg) ∈ c ↔
    ∃ before l after, literals = before ++ l :: after ∧
      vm !! Z.abs l = Some s ∧ sg = (if decide (l > 0) then 1 else -1) ∧
      ∀ l', l' ∈ after → vm !! Z.abs l' ≠ Some s.
Proof.
  intros Hc. split_and!.
  - by rewrite dp_dimacs_eq.
  - eapply from_dimacs_loop_NoDup; [exact Hc|constructor].
  - intros s sg. rewrite (from_dimacs_loop_last _ _ _ _ s sg Hc) by constructor.
    split; [|by left]. intros [?|[?%elem_of_nil _]]; done.
Qed.

Lemma from_dimacs_last_wins_witness :
  Dp.dimacs [1; -1] (declared 1) = Ok [(Sym 1, -1)].
Proof.
  refine (proj1 (from_dimacs_last_wins [1; -1] (declared 1) [(Sym 1, -1)] _)).
  vm_compute. reflexivity.
Defined.

#[local] Instance symbol_le_trans : Transitive symbol_le.
Proof. intros a b c. unfold symbol_le. lia. Qed.

#[local] Instance symbol_le_total : Total symbol_le.
Proof. intros a b. unfold symbol_le. lia. Qed.

Lemma sorted_symbols_increasing S :
  StronglySorted (fun a b => idx a < idx b) (sorted_symbols S).
Proof.
  unfold sorted_symbols.
  assert (NoDup (merge_sort symbol_le (elements S))) as Hnd.
  { rewrite merge_sort_Permutation. apply NoDup_elements. }
  pose proof (StronglySorted_merge_sort symbol_le (elements S)) as Hs.
  induction Hs as [|x l Hs IH Hx]; [constructor|].
  apply NoDup_cons in Hnd as [Hx' Hnd]. constructor; [by apply IH|].
  apply Forall_forall. intros y Hy.
  pose proof (proj1 (Forall_forall _ _) Hx y Hy) as Hle. unfold symbol_le in Hle.
  destruct (decide (idx x = idx y)) as [Heq|Hne]; [|lia].
  destruct x, y. simpl in Heq. subst. done.
Qed.

(** X5. The symbol list of a formula built by a reader, and of every
    formula that [simplify] returns, is strictly increasing in the
    variable number and holds exactly the symbols that occur in the
    clauses (a variable that the preamble declares and no clause uses is
    not listed). *)
Theorem symbols_sorted_and_exact (lines : list string) (f : SatInstance)
    (a : assignment) :
  (Dpll.from_dimacs_file lines = Ok f ∨ Dp.dimacs_file lines = Ok f ∨
   ∃ g, Dpll.simplify g a = Some f) →
  StronglySorted (fun s t => idx s < idx t) (symbols f) ∧
  ∀ s, s ∈ symbols f ↔ ∃ c sg, c ∈ clauses f ∧ (s, sg) ∈ c.
Proof.
  intros H.
  assert (symbols f = sorted_symbols (symbols_of (clauses f))) as Hsym.
  { destruct H as [H|[H|[g H]]].
    - unfold Dpll.from_dimacs_file in H.
      destruct (Dpll.read_lines _ lines) as [st|] eqn:Hst; simpl in H; [|done].
      injection H as <-. simpl.
      apply read_lines_ok in Hst as [_ Hsy]; [|by split; [constructor|]].
      rewrite <- Hsy. case_decide as He; [|done].
      by rewrite He, sorted_symbols_empty.
    - rewrite dp_dimacs_file_eq in H. unfold Dpll.from_dimacs_file in H.
      destruct (Dpll.read_lines _ lines) as [st|] eqn:Hst; simpl in H; [|done].
      injection H as <-. simpl.
      apply read_lines_ok in Hst as [_ Hsy]; [|by split; [constructor|]].
      rewrite <- Hsy. case_decide as He; [|done].
      by rewrite He, sorted_symbols_empty.
    - unfold Dpll.simplify in H.
      destruct (Dpll.simplify_loop _ _ _) as [r|]; simpl in H; [|done].
      injection H as <-. simpl. destruct r; [|done].
      unfold symbols_of. simpl. by rewrite sorted_symbols_empty. }
  rewrite Hsym. split; [apply sorted_symbols_increasing|].
  intros s. rewrite <- (elem_of_list_to_set (C := gset symbol)).
  rewrite sorted_symbols_set, elem_of_symbols_of. setoid_rewrite elem_of_keys. naive_solver.
Qed.

Lemma symbols_sorted_and_exact_witness :
  StronglySorted (fun s t => idx s < idx t) (symbols scenario_1).
Proof.
  refine (proj1 (symbols_sorted_and_exact scenario_1_text scenario_1 ∅ _)).
  left. vm_compute. reflexivity.
Defined.

(** ** [simplify] composed with itself *)

Lemma reduce_union a b c : reduce (a ∪ b) c = reduce b (reduce a c).
Proof.
  induction c as [|[s sg] c IH]; [done|].
  rewrite !reduce_cons. simpl.
  destruct (decide ((a ∪ b) !! s = None)) as [Hu|Hu].
  - apply lookup_union_None in Hu as [Ha Hb].
    rewrite (decide_True (P := a !! s = None)) by done.
    rewrite reduce_cons. simpl. rewrite decide_True by done. by rewrite IH.
  - destruct (decide (a !! s = None)) as [Ha|Ha]; [|done].
    rewrite reduce_cons. simpl. rewrite decide_False; [done|].
    intros Hb. apply Hu. by apply lookup_union_None.
Qed.

Lemma satisfied_by_union a b c :
  satisfied_by (a ∪ b) c ↔ satisfied_by a c ∨ satisfied_by b (reduce a c).
Proof.
  rewrite !satisfied_by_alt. split.
  - intros (s & sg & Hin & Hl). apply lookup_union_Some_raw in Hl as [Hl|[Hn Hl]].
    + left. by exists s, sg.
    + right. exists s, sg. split; [|done]. by apply elem_of_reduce.
  - intros [(s & sg & Hin & Hl)|(s & sg & Hin & Hl)].
    + exists s, sg. split; [done|]. apply lookup_union_Some_raw. by left.
    + apply elem_of_reduce in Hin as [Hin Hn]. simpl in Hn.
      exists s, sg. split; [done|]. apply lookup_union_Some_raw. by right.
Qed.

Lemma survivors_union a b (cs : list Clause) :
  reduce (a ∪ b) <$> filter (fun c => ¬ satisfied_by (a ∪ b) c) cs =
  reduce b <$> filter (fun c => ¬ satisfied_by b c)
                 (reduce a <$> filter (fun c => ¬ satisfied_by a c) cs).
Proof.
  induction cs as [|c cs IH]; [done|].
  rewrite !filter_cons.
  destruct (decide (satisfied_by a c)) as [Ha|Ha].
  - rewrite (decide_False (P := ¬ satisfied_by a c)) by (intros H; by apply H).
    rewrite decide_False; [done|].
    intros H. apply H. apply satisfied_by_union. by left.
  - rewrite (decide_True (P := ¬ satisfied_by a c)) by done.
    rewrite fmap_cons, filter_cons.
    destruct (decide (satisfied_by b (reduce a c))) as [Hb|Hb].
    + rewrite (decide_False (P := ¬ satisfied_by b (reduce a c)))
        by (intros H; by apply H).
      rewrite decide_False; [done|].
      intros H. apply H. apply satisfied_by_union. by right.
    + rewrite (decide_True (P := ¬ satisfied_by b (reduce a c))) by done.
      rewrite decide_True.
      * rewrite !fmap_cons. by rewrite IH, reduce_union.
      * intros [?|?]%satisfied_by_union; done.
Qed.

Lemma simplify_compose (f : SatInstance) (a b : assignment) :
  Forall (fun c : Clause => NoDup c.*1) (clauses f) →
  (f' ← Dpll.simplify f a; Dpll.simplify f' b) = Dpll.simplify f (a ∪ b).
Proof.
  intros Hnd. rewrite (simplify_refines f (a ∪ b)) by done.
  rewrite (simplify_refines f a) by done. unfold simplify_spec.
  rewrite survivors_union.
  set (S1 := reduce a <$> filter (fun c => ¬ satisfied_by a c) (clauses f)).
  assert (Forall (fun c : Clause => NoDup c.*1) S1) as Hnd1.
  { apply Forall_forall. intros c' (c & -> & Hc)%list_elem_of_fmap.
    apply list_elem_of_filter in Hc as [_ Hc]. apply reduce_NoDup.
    by apply (proj1 (Forall_forall _ _) Hnd). }
  destruct (decide ([] ∈ S1)) as [Hin|Hin]; simpl.
  - rewrite decide_True; [done|].
    apply list_elem_of_fmap. exists []. split; [done|].
    apply list_elem_of_filter. split; [|done]. by intros ?%Exists_nil.
  - rewrite simplify_refines by done. done.
Qed.

(** X6. Simplifying under [a] and then under [b] is simplifying once
    under the two assignments together ([a] taking precedence on a
    symbol both assign): the same failure, or the same formula. *)
Theorem simplify_twice (f : SatInstance) (a b : assignment) :
  Forall (fun c : Clause => NoDup c.*1) (clauses f) →
  (f' ← Dpll.simplify f a; Dpll.simplify f' b) = Dpll.simplify f (a ∪ b).
Proof. apply simplify_compose. Qed.

Lemma simplify_twice_witness :
  (f' ← Dpll.simplify scenario_1 {[Sym 1 := 1]};
   Dpll.simplify f' {[Sym 2 := -1]}) =
  Dpll.simplify scenario_1 ({[Sym 1 := 1]} ∪ {[Sym 2 := -1]}).
Proof.
  refine (simplify_twice scenario_1 {[Sym 1 := 1]} {[Sym 2 := -1]} _).
  apply (bool_decide_unpack _). vm_compute. exact I.
Defined.

(** X7. Simplification is idempotent: what [simplify] returns under an
    assignment is left as it is by [simplify] under the same
    assignment. More generally a formula of non-empty clauses that
    mentions no symbol of the assignment keeps its clauses. *)
Theorem simplify_idempotent (f f' : SatInstance) (a : assignment) :
  Forall (fun c : Clause => NoDup c.*1) (clauses f) →
  Dpll.simplify f a = Some f' →
  Dpll.simplify f' a = Some f' ∧
  ∀ b : assignment,
    (∀ s, s ∈ symbols_of (clauses f') → b !! s = None) →
    ∃ g, Dpll.simplify f' b = Some g ∧ clauses g = clauses f'.
Proof.
  intros Hnd Hf'. split.
  - pose proof (simplify_compose f a a Hnd) as Htw.
    rewrite Hf' in Htw. simpl in Htw. rewrite Htw.
    by rewrite (idemp (∪) a).
  - intros b Hb.
    assert (Forall (fun c : Clause => c ≠ [] ∧ NoDup c.*1) (clauses f'))
      as Hwf.
    { rewrite simplify_refines in Hf' by done. unfold simplify_spec in Hf'.
      case_decide as Hin; [done|]. injection Hf' as <-. simpl.
      apply Forall_forall. intros c' Hc'. split; [by intros ->|].
      apply list_elem_of_fmap in Hc' as (c & -> & Hc).
      apply list_elem_of_filter in Hc as [_ Hc]. apply reduce_NoDup.
      by apply (proj1 (Forall_forall _ _) Hnd). }
    assert (Forall (fun c : Clause => NoDup c.*1) (clauses f')) as Hnd'.
    { eapply Forall_impl; [exact Hwf|]. by intros c [_ ?]. }
    assert (reduce b <$> filter (fun c => ¬ satisfied_by b c) (clauses f')
            = clauses f') as Heq.
    { revert Hb. clear -Hwf. induction (clauses f') as [|c cs IH]; [done|].
      intros Hb. apply Forall_cons in Hwf as [_ Hwf].
      assert (∀ item, item ∈ c → b !! item.1 = None) as Hc.
      { intros [s sg] Hin. apply Hb. apply elem_of_symbols_of.
        exists c. split; [by left|]. apply elem_of_keys. by exists sg. }
      rewrite filter_cons, decide_True.
      - rewrite fmap_cons, reduce_untouched by done. f_equal.
        apply IH; [done|]. intros s Hs. apply Hb.
        apply elem_of_symbols_of in Hs as (c' & Hc' & Hk).
        apply elem_of_symbols_of. exists c'. split; [by right|done].
      - intros (s & sg & Hin & Hl)%satisfied_by_alt.
        specialize (Hc _ Hin). simpl in Hc. congruence. }
    rewrite simplify_refines by done. unfold simplify_spec. rewrite Heq.
    rewrite decide_False.
    + eexists. split; [done|done].
    + intros Hin. by destruct (proj1 (Forall_forall _ _) Hwf [] Hin).
Qed.

Lemma simplify_idempotent_witness :
  Dpll.simplify (mkSatInstance [Sym 2] [[(Sym 2, -1)]]) {[Sym 1 := 1]} =
  Some (mkSatInstance [Sym 2] [[(Sym 2, -1)]]).
Proof.
  refine (proj1 (simplify_idempotent scenario_1 _ {[Sym 1 := 1]} _ _)).
  - apply (bool_decide_unpack _). vm_compute. exact I.
  - vm_compute. reflexivity.
Defined.

(** ** What [solve_dpll] returns *)

Lemma keys_simplify_clause c a acc c' :
  Dpll.simplify_clause c a acc = Some c' → keys c' ⊆ keys acc ∪ keys c.
Proof.
  revert acc. induction c as [|[s sg] c IH]; intros acc; simpl.
  - intros [= <-]. set_solver.
  - destruct (a !! s) as [v|].
    + case_decide; [done|]. intros Hc%IH. unfold keys in *. set_solver.
    + intros Hc%IH. rewrite dict_set_keys in Hc. unfold keys in *. set_solver.
Qed.

Lemma symbols_simplify_loop cs a acc r :
  Dpll.simplify_loop cs a acc = Some r →
  symbols_of r ⊆ symbols_of acc ∪ symbols_of cs.
Proof.
  revert acc. induction cs as [|c cs IH]; intros acc; cbn [Dpll.simplify_loop].
  - intros [= <-]. set_solver.
  - destruct (Dpll.simplify_clause c a []) as [[|i c']|] eqn:Hc; [done|..].
    + intros H%IH. apply keys_simplify_clause in Hc.
      rewrite symbols_of_snoc in H.
      unfold symbols_of in *. simpl. set_solver.
    + intros H%IH. unfold symbols_of in *. simpl. set_solver.
Qed.

Lemma symbols_simplify f a f' :
  Dpll.simplify f a = Some f' →
  symbols_of (clauses f') ⊆ symbols_of (clauses f) ∧
  list_to_set (symbols f') = symbols_of (clauses f').
Proof.
  unfold Dpll.simplify.
  destruct (Dpll.simplify_loop _ _ _) as [r|] eqn:Hr; simpl; [|done].
  intros [= <-]. simpl. apply symbols_simplify_loop in Hr. split.
  - unfold symbols_of in *. set_solver.
  - destruct r; [done|]. apply sorted_symbols_set.
Qed.

Lemma dom_load_setitem (h : heap) a k v :
  dom (load (setitem h a k v) a) ⊆ dom (load h a) ∪ {[ k ]}.
Proof.
  destruct (decide (a < length h)%nat).
  - rewrite load_setitem_eq by done. rewrite dom_insert_L. set_solver.
  - rewrite load_setitem_out by lia. set_solver.
Qed.

Lemma propagate_dom fuel f h a h' e :
  Dpll.propagate fuel f h a = Some (h', e) →
  dom (load h' a) ⊆ dom (load h a) ∪ symbols_of (clauses f) ∧
  ∀ f', e = Dpll.Falls_through f' →
    f' = f ∨ (symbols_of (clauses f') ⊆ symbols_of (clauses f) ∧
              list_to_set (symbols f') = symbols_of (clauses f')).
Proof.
  revert f h. induction fuel as [|n IH]; intros f h; cbn [Dpll.propagate];
    destruct (Dpll.find_unit_clause f) as [[s sg]|] eqn:Hu; try done;
    try (intros [= <- <-]; split; [set_solver|intros f' [= <-]; by left]).
  destruct (Dpll.conflicts _ _ _); [intros [= <- <-]; split; [set_solver|done]|].
  assert (s ∈ symbols_of (clauses f)) as Hs.
  { apply find_unit_loop_Some in Hu. apply elem_of_symbols_of.
    exists [(s, sg)]. split; [done|]. apply elem_of_keys. exists sg. by left. }
  pose proof (dom_load_setitem h a s sg) as Hd.
  destruct (Dpll.simplify f _) as [f1|] eqn:Hs1;
    [|intros [= <- <-]; split; [set_solver|done]].
  apply symbols_simplify in Hs1 as [Hsub Hsy].
  destruct (clauses f1) eqn:Hcl; [intros [= <- <-]; split; [set_solver|done]|].
  rewrite <- Hcl in *.
  intros (Hdom & Hft)%IH. split; [set_solver|].
  intros f' Hf'. right. destruct (Hft f' Hf') as [->|[? ?]]; [done|].
  split; [set_solver|done].
Qed.

Lemma solve_dpll_result fuel f asg h h' r :
  Dpll.solve_dpll fuel (Some f) asg h = Some (h', Ok (Some r)) →
  ((Dpll.enter h asg).2 < length (Dpll.enter h asg).1)%nat →
  load (Dpll.enter h asg).1 (Dpll.enter h asg).2 ⊆ load h' r ∧
  dom (load h' r) ⊆
    dom (load (Dpll.enter h asg).1 (Dpll.enter h asg).2) ∪
    symbols_of (clauses f) ∪ list_to_set (symbols f).
Proof.
  revert f asg h h' r.
  induction fuel as [|n IH]; intros f asg h h' r; [done|].
  cbn [Dpll.solve_dpll].
  destruct (Dpll.enter h asg) as [h0 a] eqn:He. simpl.
  intros Hres Ha.
  destruct (Dpll.propagate n f h0 a) as [[h1 e]|] eqn:Hp; [|done].
  pose proof (propagate_dom _ _ _ _ _ _ Hp) as [Hdom1 Hft].
  apply propagate_frame in Hp as (Hlen1 & _ & Hsub1 & Hret1).
  destruct e as [r0|f1].
  { injection Hres as <- ->. rewrite (Hret1 r eq_refl). split; [done|set_solver]. }
  assert (symbols_of (clauses f1) ∪ list_to_set (symbols f1) ⊆
          symbols_of (clauses f) ∪ list_to_set (symbols f)) as Hvars.
  { destruct (Hft f1 eq_refl) as [->|[? Heq]]; [done|]. rewrite Heq. set_solver. }
  destruct (clauses f1) eqn:Hcl.
  { injection Hres as <- <-. split; [done|set_solver]. }
  rewrite <- Hcl in *.
  destruct (Dpll.first_unassigned _ _) as [s|] eqn:Hfu.
  2:{ injection Hres as <- <-. split; [done|set_solver]. }
  apply first_unassigned_Some in Hfu as [Hs Hfree].
  destruct (copy h1 a) as [h2 at_] eqn:Hcp.
  assert (at_ = length h1 ∧ h2 = h1 ++ [load h1 a]) as [-> ->].
  { unfold copy in Hcp. by injection Hcp as <- <-. }
  assert (∀ (hh : heap) v,
    load (setitem (hh ++ [load h1 a]) (length hh) s v) (length hh) =
    <[s := v]> (load h1 a)) as Hnew.
  { intros hh v. rewrite load_setitem_eq by (rewrite length_app; simpl; lia).
    f_equal. unfold load at 1. by rewrite lookup_app_r, Nat.sub_diag. }
  assert (∀ g v, Dpll.simplify f1 {[s := v]} = Some g →
            symbols_of (clauses g) ∪ list_to_set (symbols g) ⊆
            symbols_of (clauses f) ∪ list_to_set (symbols f)) as Hg.
  { intros g v [? Heq]%symbols_simplify. rewrite Heq. set_solver. }
  assert (∀ h'' r'', load h1 a ⊆ load h'' r'' →
            load h0 a ⊆ load h'' r'') as Hup by (intros; by etrans).
  assert (∀ v (X : gset symbol) g,
            Dpll.simplify f1 {[s := v]} = Some g →
            X ⊆ dom (<[s := v]> (load h1 a)) ∪ symbols_of (clauses g) ∪
                list_to_set (symbols g) →
            X ⊆ dom (load h0 a) ∪ symbols_of (clauses f) ∪
                list_to_set (symbols f)) as Hdown.
  { intros v X g Hgv HX. specialize (Hg g v Hgv). rewrite dom_insert_L in HX.
    assert (s ∈ (list_to_set (symbols f1) : gset symbol))
      by (by apply elem_of_list_to_set).
    set_solver. }
  destruct (Dpll.simplify f1 {[s := 1]}) as [ft|] eqn:Hft1.
  2:{ destruct n; [done|]. by cbn [Dpll.solve_dpll] in Hres;
        destruct (Dpll.enter _ _). }
  destruct (Dpll.solve_dpll n (Some ft) _ _) as [[h3 rt]|] eqn:Ht; [|done].
  destruct rt as [rt|]; [|done].
  destruct (Dpll.truthy h3 rt) eqn:Htr.
  { injection Hres as <- ->.
    destruct (IH _ _ _ _ _ Ht) as [Hext Hdom].
    { simpl. rewrite length_setitem, length_app. simpl. lia. }
    simpl in Hext, Hdom. rewrite Hnew in Hext, Hdom. split.
    - apply Hup. etrans; [|exact Hext]. by apply insert_subseteq.
    - by eapply Hdown. }
  apply solve_dpll_frame in Ht as (Hlen3 & Hold3 & _ & _).
  rewrite length_setitem, length_app in Hlen3, Hold3. simpl in Hlen3, Hold3.
  assert (load h3 a = load h1 a) as Ha3.
  { unfold load. rewrite Hold3; [|lia|intros [= Hx]; lia].
    rewrite lookup_setitem_ne by lia. by rewrite lookup_app_l by lia. }
  destruct (copy h3 a) as [h4 af] eqn:Hcp'.
  assert (af = length h3 ∧ h4 = h3 ++ [load h3 a]) as [-> ->].
  { unfold copy in Hcp'. by injection Hcp' as <- <-. }
  destruct (Dpll.simplify f1 {[s := -1]}) as [ff|] eqn:Hff1.
  2:{ destruct n; [done|]. by cbn [Dpll.solve_dpll] in Hres;
        destruct (Dpll.enter _ _). }
  destruct (IH _ _ _ _ _ Hres) as [Hext Hdom].
  { simpl. rewrite length_setitem, length_app. simpl. lia. }
  simpl in Hext, Hdom. rewrite Ha3, Hnew in Hext, Hdom. split.
  - apply Hup. etrans; [|exact Hext]. by apply insert_subseteq.
  - by eapply Hdown.
Qed.

(** X8. The assignment that [solve_dpll] returns extends the assignment
    it was given, and assigns no symbol other than those of the given
    assignment and of the formula. *)
Theorem solve_dpll_returns_extension (fuel : nat) (f : SatInstance)
    (asg : option nat) (h h' : heap) (r : nat) :
  Dpll.solve_dpll fuel (Some f) asg h = Some (h', Ok (Some r)) →
  (∀ a, asg = Some a → (a < length h)%nat) →
  (∀ a, asg = Some a → load h a ⊆ load h' r) ∧
  dom (load h' r) ⊆
    match asg with Some a => dom (load h a) | None => ∅ end ∪
    symbols_of (clauses f) ∪ list_to_set (symbols f).
Proof.
  intros Hres Hasg.
  destruct (solve_dpll_result _ _ _ _ _ _ Hres) as [Hext Hdom].
  - destruct asg as [a|]; simpl; [by apply Hasg|].
    rewrite length_app. simpl. lia.
  - destruct asg as [a|].
    + simpl in *. split; [by intros a' [= <-]|done].
    + change (Dpll.enter h None) with (fresh h) in Hdom.
      rewrite (load_fresh h) in Hdom. split; [done|]. set_solver.
Qed.

Lemma solve_dpll_returns_extension_witness :
  load [{[Sym 1 := 1]}] 0 ⊆ load [{[Sym 1 := 1]}; <[Sym 2 := 1]> {[Sym 1 := 1]}] 1.
Proof.
  refine (proj1 (solve_dpll_returns_extension 5
    (mkSatInstance [Sym 2; Sym 3] [[(Sym 2, 1); (Sym 3, 1)]])
    (Some 0%nat) [{[Sym 1 := 1]}]
    [{[Sym 1 := 1]}; <[Sym 2 := 1]> {[Sym 1 := 1]}] 1 _ _) 0%nat eq_refl).
  - vm_compute. reflexivity.
  - intros a [= <-]. simpl. lia.
Defined.

(** ** [solve_dpll] answers [None] only on unsatisfiable formulas *)

Lemma sat_unit f b s sg :
  Dpll.is_satisfied f b = true → [(s, sg)] ∈ clauses f → b !! s = Some sg.
Proof.
  rewrite is_satisfied_spec. intros H Hin.
  destruct (proj1 (satisfied_by_alt _ _) (H _ Hin)) as (s' & sg' & Hx & Hl).
  by apply list_elem_of_singleton in Hx as [= -> ->].
Qed.

Lemma sat_simplify f b s v f' :
  Forall (fun c : Clause => NoDup c.*1) (clauses f) →
  Dpll.is_satisfied f b = true →
  (∀ c sg, c ∈ clauses f → (s, sg) ∈ c → b !! s = Some sg → sg = v) →
  Dpll.simplify f {[s := v]} = Some f' →
  Dpll.is_satisfied f' b = true.
Proof.
  intros Hnd Hsat Hv Hf'. rewrite simplify_refines in Hf' by done.
  unfold simplify_spec in Hf'. case_decide; [done|]. injection Hf' as <-.
  rewrite is_satisfied_spec in *. simpl.
  intros c' (c & -> & Hc)%list_elem_of_fmap.
  apply list_elem_of_filter in Hc as [Hns Hc].
  apply satisfied_by_alt. destruct (proj1 (satisfied_by_alt _ _) (Hsat c Hc))
    as (s' & sg' & Hin & Hl).
  exists s', sg'. split; [|done]. apply elem_of_reduce. split; [done|]. simpl.
  apply lookup_singleton_None. intros <-.
  apply Hns. apply satisfied_by_alt. exists s, sg'. split; [done|].
  rewrite (Hv c sg' Hc Hin Hl). by rewrite lookup_singleton_eq.
Qed.

Lemma simplify_unit_fails f s sg :
  wf_instance f → [(s, sg)] ∈ clauses f →
  Dpll.simplify f {[s := sg]} = None → ¬ satisfiable f.
Proof.
  intros [Hcs _] Hu Hnone [b Hb].
  assert (Forall (fun c : Clause => NoDup c.*1) (clauses f)) as Hnd.
  { eapply Forall_impl; [exact Hcs|]. by intros c [_ ?]. }
  rewrite simplify_refines in Hnone by done. unfold simplify_spec in Hnone.
  case_decide as Hin; [|done].
  apply list_elem_of_fmap in Hin as (c & Hr & Hc).
  apply list_elem_of_filter in Hc as [Hns Hc].
  pose proof (sat_unit _ _ _ _ Hb Hu) as Hbs.
  rewrite is_satisfied_spec in Hb.
  destruct (proj1 (satisfied_by_alt _ _) (Hb c Hc)) as (s' & sg' & Hx & Hl).
  assert ((s', sg') ∉ reduce {[s := sg]} c) as Hnr
    by (rewrite <- Hr; apply not_elem_of_nil).
  rewrite elem_of_reduce in Hnr. simpl in Hnr.
  destruct (decide (s' = s)) as [->|Hne].
  - apply Hns. apply satisfied_by_alt. exists s, sg'. split; [done|].
    rewrite lookup_singleton_eq. congruence.
  - apply Hnr. split; [done|]. by apply lookup_singleton_ne.
Qed.

Lemma signed_simplify f a f' :
  Forall (fun c : Clause => NoDup c.*1) (clauses f) →
  signed f → Dpll.simplify f a = Some f' → signed f'.
Proof.
  intros Hnd Hsg Hf'. rewrite simplify_refines in Hf' by done.
  unfold simplify_spec in Hf'. case_decide; [done|]. injection Hf' as <-.
  unfold signed in *. simpl. apply Forall_forall.
  intros c' (c & -> & Hc)%list_elem_of_fmap.
  apply list_elem_of_filter in Hc as [_ Hc].
  pose proof (proj1 (Forall_forall _ _) Hsg c Hc) as Hcsg.
  apply Forall_forall. intros item [Hin _]%elem_of_reduce.
  by apply (proj1 (Forall_forall _ _) Hcsg).
Qed.

Lemma wf_NoDup f :
  wf_instance f → Forall (fun c : Clause => NoDup c.*1) (clauses f).
Proof. intros [Hcs _]. eapply Forall_impl; [exact Hcs|]. by intros c [_ ?]. Qed.

Lemma free_step f (asg : assignment) s v f' :
  wf_instance f → (∀ s, s ∈ symbols_of (clauses f) → asg !! s = None) →
  asg !! s = None → Dpll.simplify f {[s := v]} = Some f' →
  wf_instance f' ∧
  ∀ s', s' ∈ symbols_of (clauses f') → (<[s := v]> asg) !! s' = None.
Proof.
  intros Hwf Hfree Hs Hf'.
  destruct (covers_step (mkSatInstance [] []) f asg s v f') as (? & _ & ?);
    [|done|done|done].
  split_and!; [done| |done]. by intros c ?%elem_of_nil.
Qed.

Lemma propagate_complete fuel f h a h' e :
  Dpll.propagate fuel f h a = Some (h', e) →
  wf_instance f → signed f → (a < length h)%nat →
  (∀ s, s ∈ symbols_of (clauses f) → load h a !! s = None) →
  match e with
  | Dpll.Returns None => ¬ satisfiable f
  | Dpll.Returns (Some _) => True
  | Dpll.Falls_through f' =>
      wf_instance f' ∧ signed f' ∧ Dpll.find_unit_clause f' = None ∧
      (∀ s, s ∈ symbols_of (clauses f') → load h' a !! s = None) ∧
      (satisfiable f → satisfiable f')
  end.
Proof.
  revert f h. induction fuel as [|n IH]; intros f h; cbn [Dpll.propagate];
    destruct (Dpll.find_unit_clause f) as [[s sg]|] eqn:Hu; try done;
    try (by intros [= <- <-]).
  intros Hp Hwf Hsg Ha Hfree.
  apply find_unit_loop_Some in Hu.
  assert (load h a !! s = None) as Hs.
  { apply Hfree. apply elem_of_symbols_of. exists [(s, sg)]. split; [done|].
    apply elem_of_keys. exists sg. by left. }
  assert (Dpll.conflicts (load h a) s sg = false) as Hc
    by (apply conflicts_false; by left).
  rewrite Hc in Hp.
  destruct (Dpll.simplify f _) as [f1|] eqn:Hs1.
  2:{ injection Hp as <- <-. by eapply simplify_unit_fails. }
  destruct (free_step _ _ _ _ _ Hwf Hfree Hs Hs1) as [Hwf1 Hfree1].
  rewrite <- (load_setitem_eq h a s sg Ha) in Hfree1.
  pose proof (signed_simplify _ _ _ (wf_NoDup _ Hwf) Hsg Hs1) as Hsg1.
  assert (satisfiable f → satisfiable f1) as Hsat.
  { intros [b Hb]. exists b.
    apply (sat_simplify f b s sg f1 (wf_NoDup _ Hwf) Hb); [|done].
    intros c sg' _ _ Hl. pose proof (sat_unit _ _ _ _ Hb Hu). congruence. }
  destruct (clauses f1) eqn:Hcl; [by injection Hp as <- <-|].
  rewrite <- Hcl in *.
  apply IH in Hp; [|done|done|by rewrite length_setitem|done].
  destruct e as [[r|]|f']; [done|tauto|].
  destruct Hp as (? & ? & ? & ? & ?). split_and!; try done. tauto.
Qed.

Lemma branch_unsat f s :
  wf_instance f → signed f →
  (∀ ft, Dpll.simplify f {[s := 1]} = Some ft → ¬ satisfiable ft) →
  (∀ ff, Dpll.simplify f {[s := -1]} = Some ff → ¬ satisfiable ff) →
  Dpll.find_unit_clause f = None → ¬ satisfiable f.
Proof.
  intros Hwf Hsg Ht Hf Hu [b Hb].
  destruct (simplify_branch_Some f s 1 Hwf Hu) as [ft Hft].
  destruct (simplify_branch_Some f s (-1) Hwf Hu) as [ff Hff].
  destruct (decide (b !! s = Some 1)) as [H1|H1].
  - apply (Ht ft Hft). exists b.
    apply (sat_simplify f b s 1 ft (wf_NoDup _ Hwf) Hb); [|done].
    intros c sg _ _ Hl. congruence.
  - apply (Hf ff Hff). exists b.
    apply (sat_simplify f b s (-1) ff (wf_NoDup _ Hwf) Hb); [|done].
    intros c sg Hc Hin Hl.
    pose proof (proj1 (Forall_forall _ _) Hsg c Hc) as Hcs.
    destruct (proj1 (Forall_forall _ _) Hcs (s, sg) Hin) as [Hx|Hx];
      simpl in Hx; [|done]. subst. done.
Qed.

Lemma solve_dpll_complete fuel f asg h h' :
  Dpll.solve_dpll fuel (Some f) asg h = Some (h', Ok None) →
  wf_instance f → signed f →
  ((Dpll.enter h asg).2 < length (Dpll.enter h asg).1)%nat →
  (∀ s, s ∈ symbols_of (clauses f) →
        load (Dpll.enter h asg).1 (Dpll.enter h asg).2 !! s = None) →
  ¬ satisfiable f.
Proof.
  revert f asg h h'.
  induction fuel as [|n IH]; intros f asg h h'; [done|].
  cbn [Dpll.solve_dpll].
  destruct (Dpll.enter h asg) as [h0 a] eqn:He. simpl.
  intros Hres Hwf Hsg Ha Hfree.
  destruct (Dpll.propagate n f h0 a) as [[h1 e]|] eqn:Hp; [|done].
  pose proof (propagate_complete _ _ _ _ _ _ Hp Hwf Hsg Ha Hfree) as Hc.
  apply propagate_frame in Hp as (Hlen1 & _ & _ & _).
  destruct e as [r0|f1].
  { injection Hres as <- ->. done. }
  destruct Hc as (Hwf1 & Hsg1 & Hu1 & Hfree1 & Hsat).
  destruct (clauses f1) eqn:Hcl; [done|]. rewrite <- Hcl in *.
  destruct (Dpll.first_unassigned _ _) as [s|] eqn:Hfu; [|done].
  apply first_unassigned_Some in Hfu as [Hs Hs1].
  destruct (copy h1 a) as [h2 at_] eqn:Hcp.
  assert (at_ = length h1 ∧ h2 = h1 ++ [load h1 a]) as [-> ->].
  { unfold copy in Hcp. by injection Hcp as <- <-. }
  assert (∀ (hh : heap) v,
    load (setitem (hh ++ [load h1 a]) (length hh) s v) (length hh) =
    <[s := v]> (load h1 a)) as Hnew.
  { intros hh v. rewrite load_setitem_eq by (rewrite length_app; simpl; lia).
    f_equal. unfold load at 1. by rewrite lookup_app_r, Nat.sub_diag. }
  destruct (simplify_branch_Some f1 s 1 Hwf1 Hu1) as [ft Hft].
  destruct (simplify_branch_Some f1 s (-1) Hwf1 Hu1) as [ff Hff].
  rewrite Hft, Hff in Hres.
  destruct (free_step _ _ _ _ _ Hwf1 Hfree1 Hs1 Hft) as [Hwft Hfreet].
  destruct (free_step _ _ _ _ _ Hwf1 Hfree1 Hs1 Hff) as [Hwff Hfreef].
  pose proof (signed_simplify _ _ _ (wf_NoDup _ Hwf1) Hsg1 Hft) as Hsgt.
  pose proof (signed_simplify _ _ _ (wf_NoDup _ Hwf1) Hsg1 Hff) as Hsgf.
  destruct (Dpll.solve_dpll n (Some ft) _ _) as [[h3 rt]|] eqn:Ht; [|done].
  destruct rt as [rt|]; [|done].
  assert (rt = None ∨ Dpll.truthy h3 rt = true) as [->|Htr].
  { destruct rt as [r|]; [right|by left].
    destruct (solve_dpll_result _ _ _ _ _ _ Ht) as [Hext _].
    { simpl. rewrite length_setitem, length_app. simpl. lia. }
    simpl in Hext. rewrite Hnew in Hext. simpl.
    apply negb_true_iff, bool_decide_eq_false. intros He0.
    assert (load h3 r !! s = Some 1) as Hl.
    { eapply lookup_weaken; [|exact Hext]. apply lookup_insert_eq. }
    rewrite He0 in Hl. by rewrite lookup_empty in Hl. }
  2:{ rewrite Htr in Hres. injection Hres as <- ->. done. }
  simpl in Hres.
  pose proof Ht as Hframe.
  apply solve_dpll_frame in Hframe as (Hlen3 & Hold3 & _ & _).
  rewrite length_setitem, length_app in Hlen3, Hold3. simpl in Hlen3, Hold3.
  assert (load h3 a = load h1 a) as Ha3.
  { unfold load. rewrite Hold3; [|lia|intros [= Hx]; lia].
    rewrite lookup_setitem_ne by lia. by rewrite lookup_app_l by lia. }
  destruct (copy h3 a) as [h4 af] eqn:Hcp'.
  assert (af = length h3 ∧ h4 = h3 ++ [load h3 a]) as [-> ->].
  { unfold copy in Hcp'. by injection Hcp' as <- <-. }
  intros Hf. apply Hsat in Hf. revert Hf.
  apply (branch_unsat f1 s Hwf1 Hsg1); [| |done].
  - intros ft' Hft'. rewrite Hft in Hft'. injection Hft' as <-.
    eapply (IH _ _ _ _ Ht); [done|done| |].
    + simpl. rewrite length_setitem, length_app. simpl. lia.
    + simpl. by rewrite Hnew.
  - intros ff' Hff'. rewrite Hff in Hff'. injection Hff' as <-.
    eapply (IH _ _ _ _ Hres); [done|done| |].
    + simpl. rewrite length_setitem, length_app. simpl. lia.
    + simpl. by rewrite Ha3, Hnew.
Qed.

Lemma from_dimacs_loop_signs literals vm acc c :
  Dpll.from_dimacs_loop literals vm acc = Ok c →
  Forall (fun item : symbol * Z => item.2 = 1 ∨ item.2 = -1) acc →
  Forall (fun item : symbol * Z => item.2 = 1 ∨ item.2 = -1) c.
Proof.
  revert acc. induction literals as [|l ls IH]; intros acc;
    cbn [Dpll.from_dimacs_loop]; [by intros [= <-]|].
  destruct (vm !! Z.abs l) as [k|]; [|done].
  intros Hc Hacc. apply (IH _ Hc). apply Forall_forall.
  intros item [Hin| ->]%elem_of_dict_set.
  - by apply (proj1 (Forall_forall _ _) Hacc).
  - simpl. case_decide; auto.
Qed.

Lemma read_lines_signed lines st st' :
  Dpll.read_lines st lines = Ok st' →
  Forall (Forall (fun item : symbol * Z => item.2 = 1 ∨ item.2 = -1))
         (r_clauses st) →
  Forall (Forall (fun item : symbol * Z => item.2 = 1 ∨ item.2 = -1))
         (r_clauses st').
Proof.
  revert st. induction lines as [|line lines IH]; simpl; intros st.
  - by intros [= <-].
  - destruct (Dpll.read_line st line) as [st1|] eqn:H1; simpl; [|done].
    intros H2 Hsg. apply (IH _ H2).
    destruct (read_line_clauses _ _ _ H1)
      as [[-> _]|(lits & c & _ & Hc & -> & _)]; [done|].
    apply Forall_app. split; [done|]. apply Forall_singleton.
    eapply from_dimacs_loop_signs; [exact Hc|constructor].
Qed.

Lemma from_dimacs_file_signed lines f :
  Dpll.from_dimacs_file lines = Ok f → signed f.
Proof.
  unfold Dpll.from_dimacs_file.
  destruct (Dpll.read_lines _ lines) as [st|] eqn:Hst; simpl; [|done].
  intros [= <-]. unfold signed. simpl.
  eapply read_lines_signed; [exact Hst|constructor].
Qed.

(** X9. When [solve_dpll], started with the default empty assignment on
    a well-formed formula whose signs are [1] or [-1], returns the
    failure signal [None], no assignment satisfies the formula. *)
Theorem dpll_failure_means_unsatisfiable (f : SatInstance) (fuel : nat)
    (h h' : heap) :
  wf_instance f → signed f →
  Dpll.solve_dpll fuel (Some f) None h = Some (h', Ok None) →
  ∀ a : assignment, Dpll.is_satisfied f a = false.
Proof.
  intros Hwf Hsg Hres a. apply not_true_is_false. intros Ha.
  eapply solve_dpll_complete; [exact Hres|done|done| | |by exists a].
  - simpl. rewrite length_app. simpl. lia.
  - intros s _. change (Dpll.enter h None) with (fresh h).
    by rewrite (load_fresh h).
Qed.

(** X10. [solve_dpll] decides the formulas the reader builds: given fuel
    above the number of literal occurrences it returns, and it returns
    an assignment that satisfies the formula if one exists and [None]
    exactly when the formula is unsatisfiable. *)
Theorem dpll_decides_parsed (lines : list string) (f : SatInstance)
    (fuel : nat) (h : heap) :
  Dpll.from_dimacs_file lines = Ok f → (weight f < fuel)%nat →
  ∃ h' r, Dpll.solve_dpll fuel (Some f) None h = Some (h', Ok r) ∧
    match r with
    | Some x => Dpll.is_satisfied f (load h' x) = true
    | None => ¬ satisfiable f
    end.
Proof.
  intros Hf Hfuel.
  pose proof (from_dimacs_file_wf _ _ Hf) as Hwf.
  pose proof (from_dimacs_file_signed _ _ Hf) as Hsg.
  destruct (solve_dpll_terminates fuel f None h Hwf Hfuel) as (h' & r & Hres).
  exists h', r. split; [done|]. destruct r as [x|].
  - eapply solve_dpll_sound; [exact Hres|done|].
    change (Dpll.enter h None) with (fresh h).
    rewrite (load_fresh h). by apply covers_start.
  - eapply solve_dpll_complete; [exact Hres|done|done| |].
    + simpl. rewrite length_app. simpl. lia.
    + intros s _. change (Dpll.enter h None) with (fresh h).
      by rewrite (load_fresh h).
Qed.

Lemma dpll_decides_parsed_witness :
  ∃ h' r, Dpll.solve_dpll 5 (Some scenario_1) None [] = Some (h', Ok r) ∧
    match r with
    | Some x => Dpll.is_satisfied scenario_1 (load h' x) = true
    | None => ¬ satisfiable scenario_1
    end.
Proof.
  refine (dpll_decides_parsed scenario_1_text scenario_1 5 [] _ _).
  - vm_compute. reflexivity.
  - vm_compute. lia.
Defined.

Lemma dpll_failure_means_unsatisfiable_witness :
  Dpll.is_satisfied scenario_2 {[Sym 1 := 1]} = false.
Proof.
  refine (dpll_failure_means_unsatisfiable scenario_2 3 []
            [{[Sym 1 := 1]}] _ _ _ {[Sym 1 := 1]}).
  - solve_wf.
  - apply (bool_decide_unpack _). vm_compute. exact I.
  - vm_compute. reflexivity.
Defined.

(** ** Resolvents are consequences *)

Lemma lit_holds_opp v l : l ≠ 0 → lit_holds v l → lit_holds v (- l) → False.
Proof.
  unfold lit_holds. intros Hl.
  destruct (decide (0 < l)); destruct (decide (0 < - l)); try lia;
    rewrite ?Z.opp_involutive; congruence.
Qed.

Lemma resolvent_holds v (c1 c2 : gset Z) l :
  l ≠ 0 → l ∈ c1 → - l ∈ c2 →
  clause_holds v c1 → clause_holds v c2 →
  clause_holds v ((c1 ∖ {[ l ]}) ∪ (c2 ∖ {[ - l ]})).
Proof.
  intros Hl H1 H2 (l1 & Hl1 & Hv1) (l2 & Hl2 & Hv2).
  destruct (decide (l1 = l)) as [->|Hne1].
  - destruct (decide (l2 = - l)) as [->|Hne2].
    + by destruct (lit_holds_opp v l).
    + exists l2. split; [set_solver|done].
  - exists l1. split; [set_solver|done].
Qed.

Lemma resolve_loop_Some lits (c1 c2 r : gset Z) :
  Resolution.resolve_loop lits c1 c2 = Some r →
  ∃ l, l ∈ lits ∧ - l ∈ c2 ∧ r = (c1 ∖ {[ l ]}) ∪ (c2 ∖ {[ - l ]}).
Proof.
  induction lits as [|l lits IH]; simpl; [done|].
  case_decide.
  - intros [= <-]. exists l. split_and!; [by left|done|done].
  - intros (l' & ? & ? & ?)%IH. exists l'. split_and!; [by right|done|done].
Qed.

Lemma resolve_loop_None lits (c1 c2 : gset Z) :
  Resolution.resolve_loop lits c1 c2 = None ↔ ∀ l, l ∈ lits → - l ∉ c2.
Proof.
  induction lits as [|l lits IH]; simpl.
  - split; [by intros _ l ?%elem_of_nil|done].
  - case_decide as Hl.
    + split; [done|]. intros H. destruct (H l); [by left|done].
    + rewrite IH. split.
      * intros H l' [->|?]%elem_of_cons; auto.
      * intros H l' ?. apply H. by right.
Qed.

(** X11. [resolve] returns [None] exactly when no literal of the first
    clause has its negation in the second (and then also with the
    clauses swapped); otherwise it returns the union of the two clauses
    without one such literal and its negation, which holds under every
    valuation under which both clauses hold, provided the first clause
    does not mention [0]. *)
Theorem resolve_sound (c1 c2 : gset Z) :
  (Resolution.resolve c1 c2 = None ↔ ∀ l, l ∈ c1 → - l ∉ c2) ∧
  (Resolution.resolve c1 c2 = None ↔ Resolution.resolve c2 c1 = None) ∧
  ∀ r, Resolution.resolve c1 c2 = Some r →
    (∃ l, l ∈ c1 ∧ - l ∈ c2 ∧ r = (c1 ∖ {[ l ]}) ∪ (c2 ∖ {[ - l ]})) ∧
    (0 ∉ c1 → ∀ v, clause_holds v c1 → clause_holds v c2 → clause_holds v r).
Proof.
  assert (∀ a b : gset Z,
    Resolution.resolve a b = None ↔ ∀ l, l ∈ a → - l ∉ b) as Hnone.
  { intros a b. unfold Resolution.resolve. rewrite resolve_loop_None.
    by setoid_rewrite elem_of_elements. }
  split_and!; [apply Hnone| |].
  - rewrite !Hnone. split; intros H l Hl Hn; apply (H (- l) Hn);
      by rewrite Z.opp_involutive.
  - intros r Hr. unfold Resolution.resolve in Hr.
    apply resolve_loop_Some in Hr as (l & Hl & Hnl & ->).
    apply elem_of_elements in Hl. split; [by exists l|].
    intros H0 v Hv1 Hv2. apply resolvent_holds; try done.
    intros ->. done.
Qed.

Lemma resolve_sound_witness :
  clause_holds (fun _ => true) ({[ 2; 3 ]} : gset Z).
Proof.
  destruct (resolve_sound {[ 1; 2 ]} {[ -1; 3 ]}) as (_ & _ & H).
  destruct (H {[ 2; 3 ]}) as [_ Hs]; [by vm_compute|].
  apply Hs.
  - by vm_compute.
  - exists 1. split; [set_solver|reflexivity].
  - exists 3. split; [set_solver|reflexivity].
Defined.

(** ** [resolution] and [dp] never refute a satisfiable clause list *)

Lemma pass_inner_result c1 later known new_clauses :
  match Resolution.pass_inner c1 later known new_clauses with
  | None => ∃ c2, c2 ∈ later ∧ Resolution.resolve c1 c2 = Some ∅
  | Some new' =>
      ∀ r, r ∈ new' →
        r ∈ new_clauses ∨ ∃ c2, c2 ∈ later ∧ Resolution.resolve c1 c2 = Some r
  end.
Proof.
  revert new_clauses. induction later as [|c2 later IH]; intros new_clauses;
    cbn [Resolution.pass_inner]; [by left|].
  assert (∀ n,
    match Resolution.pass_inner c1 later known n with
    | None => ∃ c, c ∈ c2 :: later ∧ Resolution.resolve c1 c = Some ∅
    | Some new' => ∀ r, r ∈ new' →
        r ∈ n ∨ ∃ c, c ∈ c2 :: later ∧ Resolution.resolve c1 c = Some r
    end) as IH'.
  { intros n. specialize (IH n).
    destruct (Resolution.pass_inner c1 later known n).
    - intros r Hr. destruct (IH r Hr) as [?|(c & ? & ?)]; [by left|].
      right. exists c. split; [by right|done].
    - destruct IH as (c & ? & ?). exists c. split; [by right|done]. }
  destruct (Resolution.resolve c1 c2) as [res|] eqn:Hres; [|apply IH'].
  destruct (decide (res = ∅)) as [->|Hne].
  { exists c2. split; [by left|done]. }
  destruct (decide (res ∉ known)); [|apply IH'].
  specialize (IH' (new_clauses ∪ {[res]})).
  destruct (Resolution.pass_inner _ _ _ _); [|done].
  intros r Hr. destruct (IH' r Hr) as [[?| ->%elem_of_singleton]%elem_of_union|?];
    [by left| |by right].
  right. exists c2. split; [by left|done].
Qed.

Lemma pass_outer_result known_list known new_clauses :
  match Resolution.pass_outer known_list known new_clauses with
  | None => ∃ c1 c2, c1 ∈ known_list ∧ c2 ∈ known_list ∧
                     Resolution.resolve c1 c2 = Some ∅
  | Some new' =>
      ∀ r, r ∈ new' →
        r ∈ new_clauses ∨
        ∃ c1 c2, c1 ∈ known_list ∧ c2 ∈ known_list ∧
                 Resolution.resolve c1 c2 = Some r
  end.
Proof.
  revert new_clauses.
  induction known_list as [|c1 later IH]; intros new_clauses;
    cbn [Resolution.pass_outer]; [by left|].
  pose proof (pass_inner_result c1 later known new_clauses) as Hin.
  destruct (Resolution.pass_inner c1 later known new_clauses) as [n1|].
  - specialize (IH n1). destruct (Resolution.pass_outer later known n1).
    + intros r Hr. destruct (IH r Hr) as [Hr1|(a & b & ? & ? & ?)].
      * destruct (Hin r Hr1) as [?|(c2 & ? & ?)]; [by left|].
        right. exists c1, c2. split_and!; [by left|by right|done].
      * right. exists a, b. split_and!; [by right|by right|done].
    + destruct IH as (a & b & ? & ? & ?).
      exists a, b. split_and!; [by right|by right|done].
  - destruct Hin as (c2 & ? & ?).
    exists c1, c2. split_and!; [by left|by right|done].
Qed.

Lemma saturate_sound fuel (known : gset (gset Z)) v :
  Resolution.saturate fuel known = Some "Unsatisfiable" →
  (∀ c, c ∈ known → 0 ∉ c) → ¬ (∀ c, c ∈ known → clause_holds v c).
Proof.
  revert known. induction fuel as [|n IH]; intros known; [done|].
  cbn [Resolution.saturate]. intros Hres Hz Hv.
  pose proof (pass_outer_result (elements known) known ∅) as Hp.
  assert (∀ c1 c2 r, c1 ∈ elements known → c2 ∈ elements known →
            Resolution.resolve c1 c2 = Some r →
            0 ∉ r ∧ clause_holds v r) as Hstep.
  { intros c1 c2 r H1%elem_of_elements H2%elem_of_elements Hr.
    unfold Resolution.resolve in Hr.
    apply resolve_loop_Some in Hr as (l & Hl%elem_of_elements & Hnl & ->).
    pose proof (Hz c1 H1). pose proof (Hz c2 H2). split; [set_solver|].
    apply resolvent_holds; auto. by intros ->. }
  destruct (Resolution.pass_outer _ _ _) as [new|].
  - destruct (decide (new = ∅)); [done|].
    apply (IH _ Hres).
    + intros c [?|Hc]%elem_of_union; [auto|].
      destruct (Hp c Hc) as [?|(c1 & c2 & Hc1 & Hc2 & Hr)]; [set_solver|].
      by destruct (Hstep _ _ _ Hc1 Hc2 Hr).
    + intros c [?|Hc]%elem_of_union; [auto|].
      destruct (Hp c Hc) as [?|(c1 & c2 & Hc1 & Hc2 & Hr)]; [set_solver|].
      by destruct (Hstep _ _ _ Hc1 Hc2 Hr).
  - destruct Hp as (c1 & c2 & H1 & H2 & Hr).
    destruct (Hstep _ _ _ H1 H2 Hr) as [_ (l & Hl & _)]. set_solver.
Qed.

(** X12. [resolution] answers [Unsatisfiable] only on an unsatisfiable
    clause list: if some valuation makes every clause of the list hold
    (and no clause mentions [0]), the answer is not [Unsatisfiable]. *)
Theorem resolution_unsat_sound (fuel : nat) (cs : list (gset Z))
    (v : Z → bool) :
  zero_free cs → models v cs →
  Resolution.resolution fuel cs ≠ Some "Unsatisfiable".
Proof.
  intros Hz Hv Hres. unfold Resolution.resolution in Hres.
  apply (saturate_sound _ _ v) in Hres.
  - apply Hres. intros c Hc%elem_of_list_to_set. by apply Hv.
  - intros c Hc%elem_of_list_to_set. by apply Hz.
Qed.

Lemma resolution_unsat_sound_witness :
  Resolution.resolution 5 scenario_1_flat ≠ Some "Unsatisfiable".
Proof.
  refine (resolution_unsat_sound 5 scenario_1_flat
            (fun x => bool_decide (x = 1)) _ _).
  - intros c Hc. unfold scenario_1_flat in Hc.
    apply elem_of_cons in Hc as [->|Hc]; [set_solver|].
    apply list_elem_of_singleton in Hc as ->. set_solver.
  - intros c Hc. unfold scenario_1_flat in Hc.
    apply elem_of_cons in Hc as [->|Hc].
    + exists 1. split; [set_solver|reflexivity].
    + apply list_elem_of_singleton in Hc as ->.
      exists (-2). split; [set_solver|reflexivity].
Defined.
(** ** The verdict of [dp] *)

Lemma resolvents_inner_result var c1 negs acc :
  match Dp.resolvents_inner var c1 negs acc with
  | None => ∃ c2, c2 ∈ negs ∧ resolvent var c1 c2 = ∅
  | Some rs => rs = acc ++ (resolvent var c1 <$> negs) ∧
               ∀ c2, c2 ∈ negs → resolvent var c1 c2 ≠ ∅
  end.
Proof.
  revert acc. induction negs as [|c2 negs IH]; intros acc;
    cbn [Dp.resolvents_inner].
  - split; [by rewrite app_nil_r|]. by intros c2 ?%elem_of_nil.
  - fold (resolvent var c1 c2). case_decide as He.
    + exists c2. split; [by left|done].
    + specialize (IH (acc ++ [resolvent var c1 c2])).
      destruct (Dp.resolvents_inner _ _ _ _) as [rs|].
      * destruct IH as [-> Hne]. split.
        -- by rewrite fmap_cons, <- app_assoc.
        -- intros c [->|?]%elem_of_cons; auto.
      * destruct IH as (c & ? & ?). exists c. split; [by right|done].
Qed.

Lemma resolvents_outer_result var poss negs acc :
  match Dp.resolvents_outer var poss negs acc with
  | None => ∃ c1 c2, c1 ∈ poss ∧ c2 ∈ negs ∧ resolvent var c1 c2 = ∅
  | Some rs => rs = acc ++ (poss ≫= (fun c1 => resolvent var c1 <$> negs)) ∧
               ∀ c1 c2, c1 ∈ poss → c2 ∈ negs → resolvent var c1 c2 ≠ ∅
  end.
Proof.
  revert acc. induction poss as [|c1 poss IH]; intros acc;
    cbn [Dp.resolvents_outer].
  - split; [by rewrite app_nil_r|]. by intros c1 c2 ?%elem_of_nil.
  - pose proof (resolvents_inner_result var c1 negs acc) as Hin.
    destruct (Dp.resolvents_inner var c1 negs acc) as [rs1|].
    + destruct Hin as [-> Hne1]. specialize (IH (acc ++ (resolvent var c1 <$> negs))).
      destruct (Dp.resolvents_outer _ _ _ _) as [rs|].
      * destruct IH as [-> Hne]. split.
        -- by rewrite bind_cons, <- app_assoc.
        -- intros a b [->|?]%elem_of_cons ?; auto.
      * destruct IH as (a & b & ? & ? & ?). exists a, b.
        split_and!; [by right|done|done].
    + destruct Hin as (c2 & ? & ?). exists c1, c2. split_and!; [by left|done|done].
Qed.

Lemma eliminate_result var cs :
  match Dp.eliminate var cs with
  | inl b =>
      b = false ∧
      ∃ c1 c2, c1 ∈ cs ∧ c2 ∈ cs ∧ var ∈ c1 ∧ - var ∈ c2 ∧
               resolvent var c1 c2 = ∅
  | inr cs' =>
      cs' = filter (fun c => var ∉ c ∧ - var ∉ c) cs ++
            (filter (fun c => var ∈ c) cs ≫=
               fun c1 => resolvent var c1 <$> filter (fun c => - var ∈ c) cs) ∧
      ∀ c1 c2, c1 ∈ cs → c2 ∈ cs → var ∈ c1 → - var ∈ c2 →
               resolvent var c1 c2 ≠ ∅
  end.
Proof.
  unfold Dp.eliminate.
  pose proof (resolvents_outer_result var (filter (fun c => var ∈ c) cs)
                (filter (fun c => - var ∈ c) cs) []) as H.
  destruct (Dp.resolvents_outer _ _ _ _) as [rs|].
  - destruct H as [-> Hne]. split; [done|].
    intros c1 c2 ????. apply Hne; by apply list_elem_of_filter.
  - destruct H as (c1 & c2 & [??]%list_elem_of_filter & [??]%list_elem_of_filter & ?).
    split; [done|]. by exists c1, c2.
Qed.

Lemma lit_holds_force v l : l ≠ 0 → lit_holds (force v l) l.
Proof.
  intros Hl. unfold lit_holds, force.
  destruct (decide (0 < l)).
  - rewrite decide_True by lia. by apply bool_decide_eq_true.
  - rewrite decide_True by lia. apply bool_decide_eq_false. lia.
Qed.

Lemma lit_holds_force_other v l l' :
  l' ≠ l → l' ≠ - l → lit_holds (force v l) l' ↔ lit_holds v l'.
Proof.
  intros H1 H2. unfold lit_holds, force.
  destruct (decide (0 < l')); rewrite decide_False by lia; done.
Qed.

#[local] Instance lit_holds_dec v l : Decision (lit_holds v l).
Proof. unfold lit_holds. destruct (decide (0 < l)); apply _. Defined.

Lemma resolvent_sound v var (c1 c2 : gset Z) :
  var ≠ 0 → var ∈ c1 → - var ∈ c2 →
  clause_holds v c1 → clause_holds v c2 → clause_holds v (resolvent var c1 c2).
Proof. apply resolvent_holds. Qed.

Lemma elem_of_eliminate var cs r :
  r ∈ filter (fun c => var ∉ c ∧ - var ∉ c) cs ++
      (filter (fun c => var ∈ c) cs ≫=
         fun c1 => resolvent var c1 <$> filter (fun c => - var ∈ c) cs) ↔
  (r ∈ cs ∧ var ∉ r ∧ - var ∉ r) ∨
  ∃ c1 c2, c1 ∈ cs ∧ c2 ∈ cs ∧ var ∈ c1 ∧ - var ∈ c2 ∧ r = resolvent var c1 c2.
Proof.
  rewrite elem_of_app, list_elem_of_filter, list_elem_of_bind. split.
  - intros [(? & ?)|(c1 & Hr & [Hv1 H1]%list_elem_of_filter)]; [left; tauto|].
    apply list_elem_of_fmap in Hr as (c2 & -> & [Hv2 H2]%list_elem_of_filter).
    right. by exists c1, c2.
  - intros [(? & ? & ?)|(c1 & c2 & H1 & H2 & Hv1 & Hv2 & ->)]; [by left|].
    right. exists c1. split; [|by apply list_elem_of_filter].
    apply list_elem_of_fmap. exists c2. split; [done|].
    by apply list_elem_of_filter.
Qed.

(** A model of the clause list [dp] recurses on gives a model of the
    clause list it was given. *)
Lemma eliminate_model var cs v :
  var ≠ 0 →
  (∀ r, (r ∈ cs ∧ var ∉ r ∧ - var ∉ r) ∨
        (∃ c1 c2, c1 ∈ cs ∧ c2 ∈ cs ∧ var ∈ c1 ∧ - var ∈ c2 ∧
                  r = resolvent var c1 c2) → clause_holds v r) →
  ∃ v', models v' cs.
Proof.
  intros Hvar Hv.
  destruct (decide (Exists (fun c1 : gset Z =>
              var ∈ c1 ∧ - var ∉ c1 ∧
              ¬ set_Exists (fun l => l ≠ var ∧ lit_holds v l) c1) cs))
    as [Hex|Hall].
  - apply Exists_exists in Hex as (c1 & Hc1 & Hv1 & Hn1 & Hno).
    exists (force v var). intros c Hc.
    destruct (decide (var ∈ c)) as [Hp|Hp].
    { exists var. split; [done|]. by apply lit_holds_force. }
    destruct (decide (- var ∈ c)) as [Hn|Hn].
    + destruct (Hv (resolvent var c1 c)) as (l & Hl & Hh).
      { right. by exists c1, c. }
      unfold resolvent in Hl.
      apply elem_of_union in Hl as [Hl|Hl].
      * destruct Hno. exists l. split; [set_solver|]. split; [set_solver|done].
      * exists l. split; [set_solver|].
        apply lit_holds_force_other; [set_solver|set_solver|done].
    + destruct (Hv c) as (l & Hl & Hh); [by left|].
      exists l. split; [done|].
      apply lit_holds_force_other; [set_solver|set_solver|done].
  - exists (force v (- var)). intros c Hc.
    destruct (decide (- var ∈ c)) as [Hn|Hn].
    { exists (- var). split; [done|]. apply lit_holds_force. lia. }
    destruct (decide (var ∈ c)) as [Hp|Hp].
    + destruct (decide (set_Exists (fun l => l ≠ var ∧ lit_holds v l) c))
        as [(l & Hl & Hne & Hh)|Hno].
      * exists l. split; [done|].
        apply lit_holds_force_other; [set_solver|rewrite Z.opp_involutive; done|done].
      * destruct Hall. apply Exists_exists. by exists c.
    + destruct (Hv c) as (l & Hl & Hh); [by left|].
      exists l. split; [done|].
      apply lit_holds_force_other;
        [set_solver|rewrite Z.opp_involutive; set_solver|done].
Qed.

Lemma variables_nonempty (cs : list (gset Z)) :
  cs ≠ [] → ∅ ∉ cs → Dp.variables_of cs ≠ ∅.
Proof.
  destruct cs as [|c cs]; [done|]. intros _ Hne.
  assert (c ≠ ∅) as Hc by (intros ->; apply Hne; by left).
  apply set_choose_L in Hc as [l Hl].
  unfold Dp.variables_of. rewrite fmap_cons, union_list_cons.
  intros He. assert (Z.abs l ∈ (∅ : gset Z)) as H; [|set_solver].
  rewrite <- He. apply elem_of_union. left. apply elem_of_map. by exists l.
Qed.

Lemma dp_verdict fuel pick cs b :
  zero_free cs → Dp.dp pick fuel cs = Some b →
  if b then ∃ v, models v cs else ∀ v, ¬ models v cs.
Proof.
  revert cs. induction fuel as [|n IH]; intros cs Hz; [done|].
  cbn [Dp.dp].
  destruct (decide (∅ ∈ cs)) as [He|He].
  { intros [= <-] v Hv. destruct (Hv ∅ He) as (l & Hl & _). set_solver. }
  destruct (decide (cs = [])) as [->|Hne].
  { intros [= <-]. exists (fun _ => true). by intros c ?%elem_of_nil. }
  rewrite decide_False by by apply variables_nonempty.
  pose proof (eliminate_result (pick (Dp.variables_of cs)) cs) as Hel.
  set (var := pick (Dp.variables_of cs)) in *.
  destruct (Dp.eliminate var cs) as [verdict|cs'].
  - destruct Hel as (-> & c1 & c2 & H1 & H2 & Hv1 & Hv2 & Hr).
    intros [= <-] v Hv.
    assert (var ≠ 0) as Hvar by (intros E; rewrite E in Hv1; by apply (Hz c1)).
    destruct (resolvent_sound v var c1 c2) as (l & Hl & _); auto.
    rewrite Hr in Hl. set_solver.
  - destruct Hel as [Hcs' Hnonempty]. intros Hdp.
    assert (∀ r, r ∈ cs' ↔
      (r ∈ cs ∧ var ∉ r ∧ - var ∉ r) ∨
      ∃ c1 c2, c1 ∈ cs ∧ c2 ∈ cs ∧ var ∈ c1 ∧ - var ∈ c2 ∧
               r = resolvent var c1 c2) as Hin.
    { intros r. rewrite Hcs'. apply elem_of_eliminate. }
    assert (zero_free cs') as Hz'.
    { intros r [(? & _)|(c1 & c2 & H1 & H2 & _ & _ & ->)]%Hin; [by apply Hz|].
      pose proof (Hz c1 H1). pose proof (Hz c2 H2). unfold resolvent. set_solver. }
    specialize (IH cs' Hz' Hdp). destruct b.
    + destruct IH as [v Hv].
      destruct (decide (var = 0)) as [E|Hvar].
      * exists v. intros c Hc. apply Hv, Hin. left. split; [done|].
        pose proof (Hz c Hc). rewrite E. simpl. done.
      * apply (eliminate_model var cs v Hvar).
        intros r Hr. by apply Hv, Hin.
    + intros v Hv. apply (IH v). intros r [(? & _)|(c1 & c2 & H1 & H2 & Hv1 & Hv2 & ->)]%Hin;
        [by apply Hv|].
      assert (var ≠ 0) as Hvar by (intros E; rewrite E in Hv1; by apply (Hz c1)).
      apply resolvent_sound; auto.
Qed.

(** X13. Whatever element [next(iter(variables))] picks, a verdict of
    [dp] on a clause list that does not mention [0] is right: when [dp]
    returns [True] some valuation makes every clause hold, when it
    returns [False] none does. *)
Theorem dp_verdict_correct (pick : gset Z → Z) (fuel : nat)
    (cs : list (gset Z)) (b : bool) :
  zero_free cs → Dp.dp pick fuel cs = Some b →
  if b then ∃ v, models v cs else ∀ v, ¬ models v cs.
Proof. apply dp_verdict. Qed.

Lemma dp_verdict_correct_witness : ∃ v, models v [{[ 1 ]}; {[ -1; 2 ]}].
Proof.
  refine (dp_verdict_correct Dp.pick_min 3 [{[ 1 ]}; {[ -1; 2 ]}] true _ _).
  - intros c Hc. apply elem_of_cons in Hc as [->|Hc]; [set_solver|].
    apply list_elem_of_singleton in Hc as ->. set_solver.
  - vm_compute. reflexivity.
Defined.

Lemma resolvent_empty var (c1 c2 : gset Z) :
  var ∈ c1 → - var ∈ c2 →
  resolvent var c1 c2 = ∅ ↔ c1 = {[ var ]} ∧ c2 = {[ - var ]}.
Proof.
  intros H1 H2. unfold resolvent. split.
  - intros Hr.
    assert (∀ x, x ∈ (c1 ∖ {[ var ]}) ∪ (c2 ∖ {[ - var ]}) → False) as Hno.
    { intros x. rewrite Hr. apply not_elem_of_empty. }
    split; apply set_eq; intros x; rewrite elem_of_singleton;
      (split; [|by intros ->]); intros Hx.
    + destruct (decide (x = var)); [done|]. destruct (Hno x).
      apply elem_of_union. left. apply elem_of_difference.
      by rewrite elem_of_singleton.
    + destruct (decide (x = - var)); [done|]. destruct (Hno x).
      apply elem_of_union. right. apply elem_of_difference.
      by rewrite elem_of_singleton.
  - intros [-> ->]. apply set_eq. intros x.
    rewrite elem_of_union, !elem_of_difference, !elem_of_singleton.
    split; [tauto|]. by intros ?%not_elem_of_empty.
Qed.

(** X14. One elimination step of [dp] on the variable [var]: it returns
    [False] exactly when the clause list holds the two unit clauses
    [{var}] and [{-var}], and never [True]; otherwise the clause list it
    recurses on holds the clauses without [var] and [-var] and every
    resolvent of a clause with [var] and a clause with [-var]. No clause
    of that list mentions [var] or [-var] when no clause of the given
    list holds both, but a clause that holds both is kept. *)
Theorem eliminate_step (var : Z) (cs : list (gset Z)) :
  (Dp.eliminate var cs = inl false ↔ {[ var ]} ∈ cs ∧ {[ - var ]} ∈ cs) ∧
  Dp.eliminate var cs ≠ inl true ∧
  ∀ cs', Dp.eliminate var cs = inr cs' →
    (∀ r, r ∈ cs' ↔
       (r ∈ cs ∧ var ∉ r ∧ - var ∉ r) ∨
       ∃ c1 c2, c1 ∈ cs ∧ c2 ∈ cs ∧ var ∈ c1 ∧ - var ∈ c2 ∧
                r = resolvent var c1 c2) ∧
    ((∀ c, c ∈ cs → ¬ (var ∈ c ∧ - var ∈ c)) →
     ∀ r, r ∈ cs' → var ∉ r ∧ - var ∉ r) ∧
    (var ≠ 0 → ∀ c, c ∈ cs → var ∈ c → - var ∈ c → c ∈ cs').
Proof.
  pose proof (eliminate_result var cs) as H.
  destruct (Dp.eliminate var cs) as [b|cs0].
  - destruct H as (-> & c1 & c2 & H1 & H2 & Hv1 & Hv2 & Hr).
    split_and!; [|done|done]. split; [intros _|done].
    apply resolvent_empty in Hr as [<- <-]; done.
  - destruct H as [-> Hne]. split_and!; [|done|].
    + split; [done|]. intros [H1 H2]. destruct (Hne _ _ H1 H2).
      * by apply elem_of_singleton.
      * by apply elem_of_singleton.
      * apply resolvent_empty; [by apply elem_of_singleton..|done].
    + intros cs' [= <-].
      assert (∀ r, r ∈ filter (fun c => var ∉ c ∧ - var ∉ c) cs ++
          (filter (fun c => var ∈ c) cs ≫=
             fun c1 => resolvent var c1 <$> filter (fun c => - var ∈ c) cs) ↔
        (r ∈ cs ∧ var ∉ r ∧ - var ∉ r) ∨
        ∃ c1 c2, c1 ∈ cs ∧ c2 ∈ cs ∧ var ∈ c1 ∧ - var ∈ c2 ∧
                 r = resolvent var c1 c2) as Hin
        by (intros r; apply elem_of_eliminate).
      split_and!; [done| |].
      * intros Hnt r [(_ & ? & ?)|(c1 & c2 & H1 & H2 & Hv1 & Hv2 & ->)]%Hin;
          [done|].
        pose proof (Hnt c1 H1). pose proof (Hnt c2 H2).
        unfold resolvent. set_solver.
      * intros Hvar c Hc Hp Hn. apply Hin. right. exists c, c.
        split_and!; try done. unfold resolvent. apply set_eq. intros x.
        rewrite elem_of_union, !elem_of_difference, !elem_of_singleton.
        split; [|tauto]. intros Hx.
        destruct (decide (x = var)) as [->|]; [|tauto].
        right. split; [done|lia].
Qed.
(** ** From the formula of the reader to the clause list of [dp] *)

Lemma symbol_to_int_from_None symbols i m s :
  Dp.symbol_to_int_from i symbols m !! s = None ↔ s ∉ symbols ∧ m !! s = None.
Proof.
  revert i m. induction symbols as [|s0 symbols IH]; intros i m;
    cbn [Dp.symbol_to_int_from].
  - split; [intros ?; split; [apply not_elem_of_nil|done]|by intros [_ ?]].
  - rewrite IH, lookup_insert_None, not_elem_of_cons. naive_solver.
Qed.

Lemma symbol_to_int_from_Some symbols i m s n :
  NoDup symbols →
  Dp.symbol_to_int_from i symbols m !! s = Some n ↔
  (∃ k, symbols !! k = Some s ∧ n = i + Z.of_nat k + 1) ∨
  (s ∉ symbols ∧ m !! s = Some n).
Proof.
  revert i m. induction symbols as [|s0 symbols IH]; intros i m Hnd;
    cbn [Dp.symbol_to_int_from].
  - split; [intros ?; right; split; [apply not_elem_of_nil|done]|].
    by intros [(k & Hk & _)|[_ ?]].
  - apply NoDup_cons in Hnd as [Hs0 Hnd]. rewrite (IH _ _ Hnd). split.
    + intros [(k & Hk & ->)|[Hs Hl]].
      * left. exists (S k). split; [done|lia].
      * apply lookup_insert_Some in Hl as [[<- <-]|[Hne Hl]].
        -- left. exists 0%nat. split; [done|lia].
        -- right. split; [|done]. apply not_elem_of_cons. by split.
    + intros [([|k] & Hk & ->)|[[Hne Hs]%not_elem_of_cons Hl]].
      * injection Hk as ->. right. split; [done|].
        apply lookup_insert_Some. left. split; [done|lia].
      * left. exists k. split; [done|lia].
      * right. split; [done|]. apply lookup_insert_Some. right. by split.
Qed.

Lemma clause_lits_loop_result items sti acc :
  match Dp.clause_lits_loop items sti acc with
  | Ok lits =>
      (∀ s sg, (s, sg) ∈ items → is_Some (sti !! s)) ∧
      ∀ l, l ∈ lits ↔
           l ∈ acc ∨ ∃ s sg n, (s, sg) ∈ items ∧ sti !! s = Some n ∧ l = n * sg
  | Raise e => e = KeyError ∧ ∃ s sg, (s, sg) ∈ items ∧ sti !! s = None
  end.
Proof.
  revert acc. induction items as [|[s sg] items IH]; intros acc;
    cbn [Dp.clause_lits_loop].
  - split; [by intros s sg ?%elem_of_nil|]. intros l. split; [by left|].
    by intros [?|(s & sg & n & ?%elem_of_nil & _)].
  - destruct (sti !! s) as [n|] eqn:Hs.
    + specialize (IH (acc ∪ {[n * sg]})).
      destruct (Dp.clause_lits_loop _ _ _) as [lits|e].
      * destruct IH as [Hall Hin]. split.
        -- intros s' sg' [[= -> ->]|?]%elem_of_cons; [by rewrite Hs|eauto].
        -- intros l. rewrite Hin, elem_of_union, elem_of_singleton. split.
           ++ intros [[?| ->]|(s' & sg' & n' & ? & ? & ->)]; [by left| |].
              ** right. exists s, sg, n. split; [by left|done].
              ** right. exists s', sg', n'. split; [by right|done].
           ++ intros [?|(s' & sg' & n' & [[= -> ->]|?]%elem_of_cons & Hl & ->)].
              ** left. by left.
              ** left. right. congruence.
              ** right. by exists s', sg', n'.
      * destruct IH as (-> & s' & sg' & ? & ?). split; [done|].
        exists s', sg'. split; [by right|done].
    + split; [done|]. exists s, sg. split; [by left|done].
Qed.

Lemma clause_list_loop_result cs sti acc :
  match Dp.clause_list_loop cs sti acc with
  | Ok r =>
      ∃ flats, r = acc ++ flats ∧
        Forall2 (fun c lits => Dp.clause_lits_loop c sti ∅ = Ok lits) cs flats
  | Raise e =>
      e = KeyError ∧ ∃ c s sg, c ∈ cs ∧ (s, sg) ∈ c ∧ sti !! s = None
  end.
Proof.
  revert acc. induction cs as [|c cs IH]; intros acc;
    cbn [Dp.clause_list_loop].
  - exists []. split; [by rewrite app_nil_r|constructor].
  - pose proof (clause_lits_loop_result c sti ∅) as Hc.
    destruct (Dp.clause_lits_loop c sti ∅) as [lits|e] eqn:Hl; simpl.
    + specialize (IH (acc ++ [lits])).
      destruct (Dp.clause_list_loop _ _ _) as [r|e].
      * destruct IH as (flats & -> & HF). exists (lits :: flats).
        split; [by rewrite <- app_assoc|by constructor].
      * destruct IH as (-> & c' & s & sg & ? & ? & ?). split; [done|].
        exists c', s, sg. split_and!; [by right|done|done].
    + destruct Hc as (-> & s & sg & ? & ?). split; [done|].
      exists c, s, sg. split_and!; [by left|done|done].
Qed.


Lemma convert_to_clause_list_Ok (f : SatInstance) :
  wf_instance f → NoDup (symbols f) →
  ∃ cs, Dp.convert_to_clause_list f = Ok cs ∧
    Forall2 (fun (c : Clause) (lits : gset Z) =>
      ∀ l, l ∈ lits ↔
        ∃ s sg k, (s, sg) ∈ c ∧ symbols f !! k = Some s ∧
          Dp.symbol_to_int_from 0 (symbols f) ∅ !! s = Some (Z.of_nat k + 1) ∧
          l = (Z.of_nat k + 1) * sg)
      (clauses f) cs.
Proof.
  intros [Hcl Hsy] Hnd. unfold Dp.convert_to_clause_list.
  pose proof (clause_list_loop_result (clauses f)
                (Dp.symbol_to_int_from 0 (symbols f) ∅) []) as H.
  destruct (Dp.clause_list_loop _ _ _) as [r|e].
  - destruct H as (flats & -> & HF). exists flats. split; [done|].
    eapply Forall2_impl; [exact HF|]. intros c lits Hl.
    pose proof (clause_lits_loop_result c
                  (Dp.symbol_to_int_from 0 (symbols f) ∅) ∅) as Hc.
    rewrite Hl in Hc. destruct Hc as [_ Hin]. intros l. rewrite Hin. split.
    + intros [?%not_elem_of_empty|(s & sg & n & Hitem & Hn & ->)]; [done|].
      pose proof Hn as Hn'.
      apply symbol_to_int_from_Some in Hn as [(k & Hk & ->)|[_ Hn]];
        [|by rewrite lookup_empty in Hn|done].
      exists s, sg, k.
      split_and!; [done|done|rewrite Hn'; f_equal; lia|f_equal; lia].
    + intros (s & sg & k & Hitem & Hk & Hn & ->). right. by exists s, sg, (Z.of_nat k + 1).
  - destruct H as (_ & c & s & sg & Hc & Hin & [Hs _]%symbol_to_int_from_None).
    destruct Hs. apply (elem_of_list_to_set (C := gset symbol)).
    rewrite Hsy. apply elem_of_symbols_of. exists c. split; [done|].
    apply elem_of_keys. by exists sg.
Qed.

Lemma convert_faithful (f : SatInstance) :
  wf_instance f → signed f → NoDup (symbols f) →
  ∃ cs, Dp.convert_to_clause_list f = Ok cs ∧
    length cs = length (clauses f) ∧
    (∀ c l, c ∈ cs → l ∈ c → 1 ≤ Z.abs l ≤ Z.of_nat (length (symbols f))) ∧
    ∅ ∉ cs ∧
    (∀ a, Dp.is_satisfied f a = true → models (valuation_of (symbols f) a) cs) ∧
    (∀ v, models v cs →
       Dp.is_satisfied f
         (assignment_of (Dp.symbol_to_int_from 0 (symbols f) ∅) v) = true).
Proof.
  intros Hwf Hsg Hnd.
  destruct (convert_to_clause_list_Ok f Hwf Hnd) as (cs & Hcs & HF).
  destruct Hwf as [Hcl Hsy].
  assert (∀ c s sg, c ∈ clauses f → (s, sg) ∈ c →
            (sg = 1 ∨ sg = -1) ∧ ∃ k, symbols f !! k = Some s) as Hitem.
  { intros c s sg Hc Hin. split.
    - pose proof (proj1 (Forall_forall _ _) Hsg c Hc) as Hc'.
      apply (proj1 (Forall_forall _ _) Hc' (s, sg) Hin).
    - apply list_elem_of_lookup. apply (elem_of_list_to_set (C := gset symbol)).
      rewrite Hsy. apply elem_of_symbols_of. exists c. split; [done|].
      apply elem_of_keys. by exists sg. }
  exists cs. split_and!; [done|symmetry; by eapply Forall2_length| | | |].
  - intros c' l Hc' Hl. apply list_elem_of_lookup in Hc' as [i Hi].
    destruct (Forall2_lookup_r _ _ _ _ _ HF Hi) as (c & Hc & Hin).
    destruct (proj1 (Hin l) Hl) as (s & sg & k & Hx & Hk & _ & Heq).
    apply list_elem_of_lookup_2 in Hc.
    destruct (Hitem c s sg Hc Hx) as [Hs _].
    apply lookup_lt_Some in Hk. rewrite Heq. destruct Hs as [-> | ->]; lia.
  - intros [i Hi]%list_elem_of_lookup.
    destruct (Forall2_lookup_r _ _ _ _ _ HF Hi) as (c & Hc & Hin).
    apply list_elem_of_lookup_2 in Hc.
    pose proof (proj1 (Forall_forall _ _) Hcl c Hc) as [Hne _].
    destruct c as [|[s sg] c]; [done|].
    destruct (Hitem _ s sg Hc) as [_ [k Hk]]; [by left|].
    apply (not_elem_of_empty (C := gset Z) ((Z.of_nat k + 1) * sg)).
    apply Hin. exists s, sg, k. split_and!; [by left|done| |done].
    apply symbol_to_int_from_Some; [done|]. left. exists k. split; [done|lia].
  - intros a Ha c' [i Hi]%list_elem_of_lookup.
    destruct (Forall2_lookup_r _ _ _ _ _ HF Hi) as (c & Hc & Hin).
    apply list_elem_of_lookup_2 in Hc.
    rewrite dp_is_satisfied_eq in Ha.
    pose proof (proj1 (is_satisfied_spec f a) Ha c Hc) as Hsat.
    apply satisfied_by_alt in Hsat as (s & sg & Hx & Ha').
    destruct (Hitem c s sg Hc Hx) as [Hs [k Hk]].
    exists ((Z.of_nat k + 1) * sg). split.
    + apply Hin. exists s, sg, k. split_and!; [done|done| |done].
      apply symbol_to_int_from_Some; [done|]. left. exists k. split; [done|lia].
    + unfold lit_holds, valuation_of. destruct Hs as [-> | ->].
      * rewrite decide_True by lia.
        replace (Z.to_nat ((Z.of_nat k + 1) * 1 - 1)) with k by lia.
        rewrite Hk. by apply bool_decide_eq_true.
      * rewrite decide_False by lia.
        replace (Z.to_nat (- ((Z.of_nat k + 1) * -1) - 1)) with k by lia.
        rewrite Hk. apply bool_decide_eq_false. rewrite Ha'. by intros [=].
  - intros v Hv. rewrite dp_is_satisfied_eq. apply is_satisfied_spec.
    intros c [i Hi]%list_elem_of_lookup.
    destruct (Forall2_lookup_l _ _ _ _ _ HF Hi) as (c' & Hc' & Hin).
    apply list_elem_of_lookup_2 in Hc'. apply list_elem_of_lookup_2 in Hi.
    destruct (Hv c' Hc') as (l & Hl & Hh).
    destruct (proj1 (Hin l) Hl) as (s & sg & k & Hx & Hk & Hn & Heq).
    rewrite Heq in Hh.
    apply satisfied_by_alt. exists s, sg. split; [done|].
    unfold assignment_of. rewrite lookup_fmap, Hn. simpl. f_equal.
    unfold lit_holds in Hh.
    destruct (Hitem c s sg Hi Hx) as [[-> | ->] _].
    + rewrite decide_True in Hh by lia.
      replace ((Z.of_nat k + 1) * 1) with (Z.of_nat k + 1) in Hh by lia.
      by rewrite Hh.
    + rewrite decide_False in Hh by lia.
      replace (- ((Z.of_nat k + 1) * -1)) with (Z.of_nat k + 1) in Hh by lia.
      by rewrite Hh.
Qed.

Lemma sorted_symbols_NoDup S : NoDup (sorted_symbols S).
Proof.
  unfold sorted_symbols. rewrite merge_sort_Permutation. apply NoDup_elements.
Qed.

Lemma from_dimacs_file_symbols lines f :
  Dpll.from_dimacs_file lines = Ok f →
  symbols f = sorted_symbols (symbols_of (clauses f)).
Proof.
  unfold Dpll.from_dimacs_file.
  destruct (Dpll.read_lines _ lines) as [st|] eqn:Hst; simpl; [|done].
  intros [= <-]. simpl.
  apply read_lines_ok in Hst as [_ Hsy]; [|by split; [constructor|]].
  rewrite <- Hsy. case_decide as He; [|done].
  by rewrite He, sorted_symbols_empty.
Qed.

(** X16. On a well-formed formula whose signs are [1] or [-1] and whose
    symbol list has no repetition, [convert_to_clause_list] raises
    nothing and returns one non-empty set per clause, of literals
    between [1] and the number of symbols in absolute value, that keeps
    the meaning: an assignment satisfying the formula gives a valuation
    under which every set holds, and the other way round. *)
Theorem convert_to_clause_list_faithful (f : SatInstance) :
  wf_instance f → signed f → NoDup (symbols f) →
  ∃ cs, Dp.convert_to_clause_list f = Ok cs ∧
    length cs = length (clauses f) ∧
    (∀ c l, c ∈ cs → l ∈ c → 1 ≤ Z.abs l ≤ Z.of_nat (length (symbols f))) ∧
    ∅ ∉ cs ∧
    (∀ a, Dp.is_satisfied f a = true → models (valuation_of (symbols f) a) cs) ∧
    (∀ v, models v cs →
       Dp.is_satisfied f
         (assignment_of (Dp.symbol_to_int_from 0 (symbols f) ∅) v) = true).
Proof. apply convert_faithful. Qed.

Lemma convert_to_clause_list_faithful_witness :
  ∃ cs, Dp.convert_to_clause_list scenario_1 = Ok cs ∧
    length cs = length (clauses scenario_1) ∧
    (∀ c l, c ∈ cs → l ∈ c → 1 ≤ Z.abs l ≤ Z.of_nat (length (symbols scenario_1))) ∧
    ∅ ∉ cs ∧
    (∀ a, Dp.is_satisfied scenario_1 a = true →
          models (valuation_of (symbols scenario_1) a) cs) ∧
    (∀ v, models v cs →
       Dp.is_satisfied scenario_1
         (assignment_of (Dp.symbol_to_int_from 0 (symbols scenario_1) ∅) v) = true).
Proof.
  refine (convert_to_clause_list_faithful scenario_1 _ _ _).
  - solve_wf.
  - apply (bool_decide_unpack _). vm_compute. exact I.
  - apply (bool_decide_unpack _). vm_compute. exact I.
Defined.

(** X17. The pipeline of [dp.py] on a file its reader accepts:
    [convert_to_clause_list] raises nothing on the formula read, and a
    verdict of [dp] on the converted clauses, whatever variable order it
    picks, is [True] exactly when some assignment satisfies the formula
    read. *)
Theorem dp_decides_parsed (lines : list string) (f : SatInstance)
    (pick : gset Z → Z) (fuel : nat) :
  Dp.dimacs_file lines = Ok f →
  ∃ cs, Dp.convert_to_clause_list f = Ok cs ∧
    ∀ b, Dp.dp pick fuel cs = Some b → (b = true ↔ satisfiable f).
Proof.
  rewrite dp_dimacs_file_eq. intros Hf.
  pose proof (from_dimacs_file_wf _ _ Hf) as Hwf.
  pose proof (from_dimacs_file_signed _ _ Hf) as Hsg.
  assert (NoDup (symbols f)) as Hnd.
  { rewrite (from_dimacs_file_symbols _ _ Hf). apply sorted_symbols_NoDup. }
  destruct (convert_faithful f Hwf Hsg Hnd)
    as (cs & Hcs & _ & Hb & _ & Hav & Hva).
  exists cs. split; [done|]. intros b Hdp.
  apply dp_verdict in Hdp.
  2:{ intros c Hc H0. specialize (Hb c 0 Hc H0). lia. }
  destruct b.
  - split; [intros _|done]. destruct Hdp as [v Hv]. eexists. by apply Hva.
  - split; [done|]. intros [a Ha]. destruct (Hdp _ (Hav a Ha)).
Qed.

Lemma dp_decides_parsed_witness :
  ∃ cs, Dp.convert_to_clause_list
          (mkSatInstance [Sym 1; Sym 2] [[(Sym 1, 1)]; [(Sym 1, -1); (Sym 2, 1)]])
        = Ok cs ∧
    ∀ b, Dp.dp Dp.pick_min 3 cs = Some b →
      (b = true ↔
       satisfiable
         (mkSatInstance [Sym 1; Sym 2] [[(Sym 1, 1)]; [(Sym 1, -1); (Sym 2, 1)]])).
Proof.
  refine (dp_decides_parsed ["p cnf 2 2"; "1 0"; "-1 2 0"]
            (mkSatInstance [Sym 1; Sym 2] [[(Sym 1, 1)]; [(Sym 1, -1); (Sym 2, 1)]])
            Dp.pick_min 3 _).
  vm_compute. reflexivity.
Defined.
